(** * Snake Evolution: the simulation core of [snake_evolution.py]

    A shallow embedding of the game-state simulation (the classes [Snake]
    and [Game] without their drawing code) and the properties of its
    specification.

    Conventions of the embedding.
    - Python integers are [Z]; grid cells are pairs of [Z].
    - [Snake.active_powerups] and [Game.high_scores] are dictionaries:
      [gmap]s here.
    - A Python exception is the outcome [Raised]; the calls to the [random]
      module that place food, power-ups and obstacles read an explicit list
      of raw draws, and a loop that needs more draws than the list holds
      ends in [Starved].
    - Speeds are IEEE binary64 numbers, as Python's [float]: the kernel's
      primitive floats.
    - Particles (with the draws of their own), colours, fonts and the
      screen have no effect on the simulation and are left out. *)

From Stdlib Require Import ZArith Floats Ascii.
From stdpp Require Import gmap strings list fin_maps.

Local Open Scope Z_scope.

(** ** Constants *)

Definition WIDTH : Z := 800.
Definition HEIGHT : Z := 600.
Definition GRID_SIZE : Z := 20.
Definition GRID_WIDTH : Z := WIDTH `div` GRID_SIZE.
Definition GRID_HEIGHT : Z := HEIGHT `div` GRID_SIZE.
Definition FPS : Z := 60.

(** ** Outcomes of a call *)

Inductive exn : Set :=
  | IndexError
  | ValueError
  | ZeroDivisionError
  | OverflowError
  | AttributeError.

Inductive outcome (A : Type) : Type :=
  | Done (a : A)
  | Raised (e : exn)
  | Starved.

Arguments Done {A} a.
Arguments Raised {A} e.
Arguments Starved {A}.

Definition obind {A B : Type} (x : outcome A) (k : A → outcome B) : outcome B :=
  match x with
  | Done a => k a
  | Raised e => Raised e
  | Starved => Starved
  end.

(** ** The entity model *)

Definition Cell : Type := Z * Z.

Inductive Direction : Set := UP | DOWN | LEFT | RIGHT.

(** [Direction.X.value] *)
Definition value (d : Direction) : Z * Z :=
  match d with
  | UP => (0, -1)
  | DOWN => (0, 1)
  | LEFT => (-1, 0)
  | RIGHT => (1, 0)
  end.

Inductive PowerUpType : Set := SPEED_BOOST | SHIELD | MULTIPLIER | GHOST.

#[global] Instance PowerUpType_eq_dec : EqDecision PowerUpType.
Proof. solve_decision. Defined.

Definition PowerUpType_code (t : PowerUpType) : nat :=
  match t with SPEED_BOOST => 0 | SHIELD => 1 | MULTIPLIER => 2 | GHOST => 3 end%nat.

Definition PowerUpType_of_code (n : nat) : PowerUpType :=
  match n with
  | O => SPEED_BOOST
  | S O => SHIELD
  | S (S O) => MULTIPLIER
  | _ => GHOST
  end.

#[global] Instance PowerUpType_countable : Countable PowerUpType :=
  inj_countable' PowerUpType_code PowerUpType_of_code
    (λ t, match t with
          | SPEED_BOOST | SHIELD | MULTIPLIER | GHOST => eq_refl
          end).

(** The dataclass [PowerUp]; its [color] is a function of [type] and is
    not stored. *)
Record PowerUp : Type := mkPowerUp {
  type : PowerUpType;
  pos : Cell;
  duration : Z
}.

#[global] Instance PowerUp_eq_dec : EqDecision PowerUp.
Proof. solve_decision. Defined.

(** [Obstacle]; its only attribute [pos] is [opos] here. *)
Record Obstacle : Type := mkObstacle { opos : Cell }.

Record Snake : Type := mkSnake {
  body : list Cell;
  direction : Direction;
  grow_pending : Z;
  active_powerups : gmap PowerUpType Z
}.

(** *** Snake *)

Module Snake.

(** [Snake.reset] *)
Definition reset : Snake :=
  let start_x := GRID_WIDTH `div` 2 in
  let start_y := GRID_HEIGHT `div` 2 in
  {| body := [(start_x, start_y); (start_x - 1, start_y); (start_x - 2, start_y)];
     direction := RIGHT;
     grow_pending := 0;
     active_powerups := ∅ |}.

(** [self.body[0]] *)
Definition get_head (s : Snake) : outcome Cell :=
  match body s with
  | [] => Raised IndexError
  | h :: _ => Done h
  end.

(** The cell [move] computes before any test: head plus direction delta. *)
Definition step_cell (h : Cell) (d : Direction) : Cell :=
  (h.1 + (value d).1, h.2 + (value d).2).

Definition out_of_grid (c : Cell) : bool :=
  (c.1 <? 0) || (c.1 >=? GRID_WIDTH) || (c.2 <? 0) || (c.2 >=? GRID_HEIGHT).

(** [(x % GRID_WIDTH, y % GRID_HEIGHT)]; Python's [%] with a positive
    modulus is [Z.modulo]. *)
Definition wrap (c : Cell) : Cell := (c.1 `mod` GRID_WIDTH, c.2 `mod` GRID_HEIGHT).

(** The part of [move] from the self-collision test on. *)
Definition advance (s : Snake) (new_head : Cell) : bool * Snake :=
  if bool_decide (new_head ∈ drop 1 (body s)) then (false, s)
  else
    let body1 := new_head :: body s in
    if 0 <? grow_pending s then
      (true, {| body := body1; direction := direction s;
                grow_pending := grow_pending s - 1;
                active_powerups := active_powerups s |})
    else
      (true, {| body := removelast body1; direction := direction s;
                grow_pending := grow_pending s;
                active_powerups := active_powerups s |}).

(** [Snake.move]: the Boolean it returns and the snake it leaves. *)
Definition move (s : Snake) (has_ghost : bool) : outcome (bool * Snake) :=
  obind (get_head s) (λ h,
    let new_head := step_cell h (direction s) in
    if negb has_ghost then
      if out_of_grid new_head then Done (false, s)
      else Done (advance s new_head)
    else Done (advance s (wrap new_head))).

(** [Snake.grow] *)
Definition grow (s : Snake) (amount : Z) : Snake :=
  {| body := body s; direction := direction s;
     grow_pending := grow_pending s + amount;
     active_powerups := active_powerups s |}.

Definition with_direction (s : Snake) (d : Direction) : Snake :=
  {| body := body s; direction := d;
     grow_pending := grow_pending s;
     active_powerups := active_powerups s |}.

(** [Snake.set_direction] *)
Definition set_direction (s : Snake) (d : Direction) : outcome Snake :=
  obind (get_head s) (λ h,
    if (1 <? length (body s))%nat then
      match body s !! 1%nat with
      | Some neck =>
          if bool_decide (step_cell h d ≠ neck) then Done (with_direction s d)
          else Done s
      | None => Raised IndexError
      end
    else Done (with_direction s d)).

End Snake.

(** ** Random draws and the state-and-error monad of [Game] *)

(** A computation of [Game] reads raw draws (any integers) from the front
    of a list and returns what is left of it. *)
Definition M (A : Type) : Type := list Z → outcome (A * list Z).

Definition ret {A : Type} (a : A) : M A := λ rng, Done (a, rng).

Definition bind {A B : Type} (m : M A) (k : A → M B) : M B :=
  λ rng, obind (m rng) (λ ar, k ar.1 ar.2).

Definition lift {A : Type} (x : outcome A) : M A :=
  λ rng, obind x (λ a, Done (a, rng)).

Declare Scope game_scope.
Delimit Scope game_scope with game.
Notation "x <- c ;; k" := (bind c (λ x, k))
  (at level 100, c at next level, right associativity) : game_scope.
Notation "x <~ c ;; k" := (obind c (λ x, k))
  (at level 100, c at next level, right associativity) : game_scope.
Local Open Scope game_scope.

(** [random.randint(a, b)]: the next raw draw, brought into [a..b]. *)
Definition randint (a b : Z) : M Z :=
  λ rng,
    if b <? a then Raised ValueError
    else match rng with
         | [] => Starved
         | r :: rest => Done (a + r `mod` (b - a + 1), rest)
         end.

(** [random.choice(seq)]: the element at the next raw draw, brought into
    the indices of [seq]. *)
Definition choice {A : Type} (seq : list A) : M A :=
  λ rng,
    match rng with
    | [] => Starved
    | r :: rest =>
        match seq !! Z.to_nat (r `mod` Z.of_nat (length seq)) with
        | Some a => Done (a, rest)
        | None => Raised IndexError
        end
    end.

(** [(random.randint(0, GRID_WIDTH - 1), random.randint(0, GRID_HEIGHT - 1))] *)
Definition random_cell : M Cell :=
  x <- randint 0 (GRID_WIDTH - 1);;
  y <- randint 0 (GRID_HEIGHT - 1);;
  ret (x, y).

(** [while True: pos = ...; if free(pos): ... break]: candidates are drawn
    until one is free. [fuel] bounds the number of rounds; every round
    reads two draws, so [length rng] rounds (see [sample]) end only when
    the draws do. *)
Fixpoint sample_loop (fuel : nat) (free : Cell → bool) : M Cell :=
  match fuel with
  | O => λ _, Starved
  | S n =>
      pos <- random_cell;;
      if free pos then ret pos else sample_loop n free
  end.

Definition sample (free : Cell → bool) : M Cell :=
  λ rng, sample_loop (length rng) free rng.

(** ** The session *)

Inductive Mode : Set := MENU | CLASSIC | TIME_ATTACK | SURVIVAL | GAME_OVER.

#[global] Instance Mode_eq_dec : EqDecision Mode.
Proof. solve_decision. Defined.

(** The string that [self.mode] holds. *)
Definition mode_name (m : Mode) : string :=
  match m with
  | MENU => "MENU"
  | CLASSIC => "CLASSIC"
  | TIME_ATTACK => "TIME_ATTACK"
  | SURVIVAL => "SURVIVAL"
  | GAME_OVER => "GAME_OVER"
  end.

Definition lower_ascii (c : ascii) : ascii :=
  let n := nat_of_ascii c in
  if ((65 <=? n) && (n <=? 90))%nat then ascii_of_nat (n + 32) else c.

(** [str.lower] on ASCII text *)
Fixpoint lower (s : string) : string :=
  match s with
  | EmptyString => EmptyString
  | String c r => String (lower_ascii c) (lower r)
  end.

(** The file [high_scores.json]: what it holds when it exists and parses
    ([None] otherwise), and whether it can be opened for writing. *)
Record Disk : Type := mkDisk {
  file : option (gmap string Z);
  writable : bool
}.

Record Game : Type := mkGame {
  mode : Mode;
  last_mode : option Mode;
  snake : Snake;
  score : Z;
  move_counter : Z;
  base_speed : Z;
  speed_multiplier : float;
  powerups : list PowerUp;
  obstacles : list Obstacle;
  time_remaining : Z;
  powerup_spawn_counter : Z;
  food_pos : Cell;
  high_scores : gmap string Z;
  disk : Disk
}.

Module Game.

Definition with_snake (g : Game) (s : Snake) : Game :=
  mkGame (mode g) (last_mode g) s (score g) (move_counter g) (base_speed g)
    (speed_multiplier g) (powerups g) (obstacles g) (time_remaining g)
    (powerup_spawn_counter g) (food_pos g) (high_scores g) (disk g).

Definition with_mode (g : Game) (m : Mode) : Game :=
  mkGame m (last_mode g) (snake g) (score g) (move_counter g) (base_speed g)
    (speed_multiplier g) (powerups g) (obstacles g) (time_remaining g)
    (powerup_spawn_counter g) (food_pos g) (high_scores g) (disk g).

Definition with_last_mode (g : Game) (m : option Mode) : Game :=
  mkGame (mode g) m (snake g) (score g) (move_counter g) (base_speed g)
    (speed_multiplier g) (powerups g) (obstacles g) (time_remaining g)
    (powerup_spawn_counter g) (food_pos g) (high_scores g) (disk g).

Definition with_score (g : Game) (n : Z) : Game :=
  mkGame (mode g) (last_mode g) (snake g) n (move_counter g) (base_speed g)
    (speed_multiplier g) (powerups g) (obstacles g) (time_remaining g)
    (powerup_spawn_counter g) (food_pos g) (high_scores g) (disk g).

Definition with_move_counter (g : Game) (n : Z) : Game :=
  mkGame (mode g) (last_mode g) (snake g) (score g) n (base_speed g)
    (speed_multiplier g) (powerups g) (obstacles g) (time_remaining g)
    (powerup_spawn_counter g) (food_pos g) (high_scores g) (disk g).

Definition with_powerups (g : Game) (l : list PowerUp) : Game :=
  mkGame (mode g) (last_mode g) (snake g) (score g) (move_counter g) (base_speed g)
    (speed_multiplier g) l (obstacles g) (time_remaining g)
    (powerup_spawn_counter g) (food_pos g) (high_scores g) (disk g).

Definition with_obstacles (g : Game) (l : list Obstacle) : Game :=
  mkGame (mode g) (last_mode g) (snake g) (score g) (move_counter g) (base_speed g)
    (speed_multiplier g) (powerups g) l (time_remaining g)
    (powerup_spawn_counter g) (food_pos g) (high_scores g) (disk g).

Definition with_time_remaining (g : Game) (n : Z) : Game :=
  mkGame (mode g) (last_mode g) (snake g) (score g) (move_counter g) (base_speed g)
    (speed_multiplier g) (powerups g) (obstacles g) n
    (powerup_spawn_counter g) (food_pos g) (high_scores g) (disk g).

Definition with_powerup_spawn_counter (g : Game) (n : Z) : Game :=
  mkGame (mode g) (last_mode g) (snake g) (score g) (move_counter g) (base_speed g)
    (speed_multiplier g) (powerups g) (obstacles g) (time_remaining g)
    n (food_pos g) (high_scores g) (disk g).

Definition with_food_pos (g : Game) (c : Cell) : Game :=
  mkGame (mode g) (last_mode g) (snake g) (score g) (move_counter g) (base_speed g)
    (speed_multiplier g) (powerups g) (obstacles g) (time_remaining g)
    (powerup_spawn_counter g) c (high_scores g) (disk g).

Definition with_high_scores (g : Game) (t : gmap string Z) : Game :=
  mkGame (mode g) (last_mode g) (snake g) (score g) (move_counter g) (base_speed g)
    (speed_multiplier g) (powerups g) (obstacles g) (time_remaining g)
    (powerup_spawn_counter g) (food_pos g) t (disk g).

Definition with_disk (g : Game) (d : Disk) : Game :=
  mkGame (mode g) (last_mode g) (snake g) (score g) (move_counter g) (base_speed g)
    (speed_multiplier g) (powerups g) (obstacles g) (time_remaining g)
    (powerup_spawn_counter g) (food_pos g) (high_scores g) d.

Definition with_active_powerups (g : Game) (a : gmap PowerUpType Z) : Game :=
  with_snake g {| body := body (snake g); direction := direction (snake g);
                  grow_pending := grow_pending (snake g); active_powerups := a |}.

(** [t in self.snake.active_powerups] *)
Definition active (g : Game) (t : PowerUpType) : bool :=
  bool_decide (is_Some (active_powerups (snake g) !! t)).

(** *** Spawning *)

(** [pos not in self.snake.body and pos not in [o.pos for o in self.obstacles]] *)
Definition food_free (g : Game) (c : Cell) : bool :=
  bool_decide (c ∉ body (snake g)) && bool_decide (c ∉ opos <$> obstacles g).

(** [Game.spawn_food] *)
Definition spawn_food (g : Game) : M Cell := sample (food_free g).

(** The test of [spawn_powerup] and of [spawn_obstacle]. *)
Definition field_free (g : Game) (c : Cell) : bool :=
  bool_decide (c ∉ body (snake g)) && bool_decide (c ≠ food_pos g)
  && bool_decide (c ∉ pos <$> powerups g)
  && bool_decide (c ∉ opos <$> obstacles g).

(** [list(PowerUpType)], in the order of the class *)
Definition all_types : list PowerUpType := [SPEED_BOOST; SHIELD; MULTIPLIER; GHOST].

(** [Game.spawn_powerup]; a new [PowerUp] has the default duration 300. *)
Definition spawn_powerup (g : Game) : M Game :=
  if (length (powerups g) <? 2)%nat then
    c <- sample (field_free g);;
    powerup_type <- choice all_types;;
    ret (with_powerups g (powerups g ++ [mkPowerUp powerup_type c 300]))
  else ret g.

(** [Game.spawn_obstacle] *)
Definition spawn_obstacle (g : Game) : M Game :=
  c <- sample (field_free g);;
  ret (with_obstacles g (obstacles g ++ [mkObstacle c])).

(** *** High scores *)

Definition default_high_scores : gmap string Z :=
  <["classic" := 0]> (<["time_attack" := 0]> (<["survival" := 0]> ∅)).

(** [Game.load_high_scores] *)
Definition load_high_scores (d : Disk) : gmap string Z :=
  match file d with
  | Some t => t
  | None => default_high_scores
  end.

(** [Game.save_high_scores]: the whole table replaces the file; when the
    file cannot be written the error is swallowed and nothing changes. *)
Definition save_high_scores (g : Game) : Game :=
  if writable (disk g)
  then with_disk g {| file := Some (high_scores g); writable := true |}
  else g.

(** [Game.game_over] *)
Definition game_over (g : Game) : Game :=
  let g1 := with_mode (with_last_mode g (Some (mode g))) GAME_OVER in
  let mode_key := lower (mode_name (mode g)) in
  if default 0 (high_scores g1 !! mode_key) <? score g1 then
    save_high_scores (with_high_scores g1 (<[mode_key := score g1]> (high_scores g1)))
  else g1.

(** [Game.reset_game] *)
Definition reset_game (g : Game) : M Game :=
  let g1 :=
    mkGame (mode g) (last_mode g) Snake.reset 0 0 8 1%float [] []
      (60 * FPS) 0 (food_pos g) (high_scores g) (disk g) in
  c <- spawn_food g1;;
  ret (with_food_pos g1 c).

(** *** Speed *)

(** An [int] used as a [float]: rounded to the nearest binary64 number;
    Python raises [OverflowError] where none is near. *)
Definition float_of_Z (z : Z) : outcome float :=
  let f := SF2Prim (binary_normalize prec emax z 0 false) in
  if PrimFloat.is_infinity f then Raised OverflowError else Done f.

(** [int(f)]: truncation towards zero. *)
Definition int_of_float (f : float) : outcome Z :=
  match Prim2SF f with
  | S754_zero _ => Done 0
  | S754_finite s m e =>
      let a := if 0 <=? e then Z.shiftl (Z.pos m) e else Z.shiftr (Z.pos m) (- e) in
      Done (if s then - a else a)
  | S754_infinity _ => Raised OverflowError
  | S754_nan => Raised ValueError
  end.

(** The literal [0.05]: the binary64 number nearest to it. *)
Definition five_hundredths : float := 0x1.999999999999ap-5%float.

(** [current_speed] as [update] computes it. *)
Definition current_speed (g : Game) : outcome float :=
  b <~ float_of_Z (base_speed g);;
  let current_speed := PrimFloat.mul b (speed_multiplier g) in
  let current_speed :=
    if active g SPEED_BOOST then PrimFloat.mul current_speed 1.5%float
    else current_speed in
  if bool_decide (mode g = CLASSIC) then
    n <~ float_of_Z (Z.of_nat (length (body (snake g))));;
    Done (PrimFloat.add current_speed (PrimFloat.mul n five_hundredths))
  else Done current_speed.

(** [max(1, int(FPS / current_speed))] *)
Definition frames_per_move (g : Game) : outcome Z :=
  current_speed <~ current_speed g;;
  fps <~ float_of_Z FPS;;
  if PrimFloat.eqb current_speed 0%float then Raised ZeroDivisionError
  else
    n <~ int_of_float (PrimFloat.div fps current_speed);;
    Done (Z.max 1 n).

(** *** The tick *)

(** One entry of the loop over [active_powerups.items()]: [None] when the
    entry is put on [expired] (and deleted after the loop). *)
Definition tick_timer (remaining : Z) : option Z :=
  let remaining := remaining - 1 in
  if remaining <=? 0 then None else Some remaining.

Definition update_timers (g : Game) : Game :=
  with_active_powerups g (omap tick_timer (active_powerups (snake g))).

(** [update] either goes on with the next statement or returns. *)
Inductive flow : Type :=
  | Go (g : Game)
  | Return (g : Game).

Definition drop_shield (g : Game) : Game :=
  with_active_powerups g (delete SHIELD (active_powerups (snake g))).

(** [if not self.snake.move(has_ghost): ...]. ([create_particles] reads the
    head of a snake on which [move] has just returned.) *)
Definition move_snake (has_ghost : bool) (g : Game) : outcome flow :=
  r <~ Snake.move (snake g) has_ghost;;
  let g := with_snake g r.2 in
  if negb r.1 then
    if active g SHIELD then Done (Go (drop_shield g))
    else Done (Return (game_over g))
  else Done (Go g).

(** [# Check obstacle collision in survival mode] *)
Definition check_obstacles (has_ghost : bool) (g : Game) : outcome flow :=
  if bool_decide (mode g = SURVIVAL) && negb has_ghost then
    h <~ Snake.get_head (snake g);;
    if bool_decide (h ∈ opos <$> obstacles g) then
      if active g SHIELD then
        let g := drop_shield g in
        Done (Go (with_obstacles g (filter (λ o, opos o ≠ h) (obstacles g))))
      else Done (Return (game_over g))
    else Done (Go g)
  else Done (Go g).

(** [# Check food collision] *)
Definition check_food (g : Game) : M Game :=
  h <- lift (Snake.get_head (snake g));;
  if bool_decide (h = food_pos g) then
    let g := with_snake g (Snake.grow (snake g) 1) in
    let multiplier := if active g MULTIPLIER then 2 else 1 in
    let g := with_score g (score g + 10 * multiplier) in
    c <- spawn_food g;;
    ret (with_food_pos g c)
  else ret g.

(** [list.remove(x)]: the first element equal to [x] goes. *)
Fixpoint list_remove (x : PowerUp) (l : list PowerUp) : outcome (list PowerUp) :=
  match l with
  | [] => Raised ValueError
  | y :: l' =>
      if decide (y = x) then Done l'
      else l'' <~ list_remove x l';; Done (y :: l'')
  end.

(** [for powerup in self.powerups[:]: ...], over what is left of the copy. *)
Fixpoint collect_powerups (copy : list PowerUp) (g : Game) : outcome Game :=
  match copy with
  | [] => Done g
  | powerup :: rest =>
      h <~ Snake.get_head (snake g);;
      if bool_decide (h = pos powerup) then
        let g :=
          with_active_powerups g
            (<[type powerup := duration powerup]> (active_powerups (snake g))) in
        l <~ list_remove powerup (powerups g);;
        collect_powerups rest (with_powerups g l)
      else collect_powerups rest g
  end.

(** [# Check powerup collision] *)
Definition check_powerups (g : Game) : outcome Game :=
  collect_powerups (powerups g) g.

(** What [update] does after a blocked move was absorbed or the move
    succeeded: the checks against the head, in the order of the code. *)
Definition after_move (has_ghost : bool) (g : Game) : M flow :=
  r <- lift (check_obstacles has_ghost g);;
  match r with
  | Return g => ret (Return g)
  | Go g =>
      g <- check_food g;;
      g <- lift (check_powerups g);;
      ret (Go g)
  end.

(** The body of [if self.move_counter >= frames_per_move:] *)
Definition move_tick (g : Game) : M flow :=
  let g := with_move_counter g 0 in
  let has_ghost := active g GHOST in
  r <- lift (move_snake has_ghost g);;
  match r with
  | Return g => ret (Return g)
  | Go g => after_move has_ghost g
  end.

(** [# Spawn powerups periodically] *)
Definition spawn_powerups (g : Game) : M Game :=
  let g := with_powerup_spawn_counter g (powerup_spawn_counter g + 1) in
  if FPS * 10 <=? powerup_spawn_counter g then
    spawn_powerup (with_powerup_spawn_counter g 0)
  else ret g.

(** [# Survival mode: spawn obstacles] *)
Definition spawn_obstacles (g : Game) : M Game :=
  let n := Z.of_nat (length (body (snake g))) in
  if bool_decide (mode g = SURVIVAL) && (n `mod` 5 =? 0) && (3 <? n) then
    if Z.of_nat (length (obstacles g)) <? n `div` 5 then spawn_obstacle g
    else ret g
  else ret g.

(** [# Time attack mode] *)
Definition time_attack (g : Game) : Game :=
  if bool_decide (mode g = TIME_ATTACK) then
    let g := with_time_remaining g (time_remaining g - 1) in
    if time_remaining g <=? 0 then game_over g else g
  else g.

(** The statements of [update] after the move block. *)
Definition end_of_tick (g : Game) : M Game :=
  g <- spawn_powerups g;;
  g <- spawn_obstacles g;;
  ret (time_attack g).

Definition playing (m : Mode) : bool :=
  match m with
  | CLASSIC | TIME_ATTACK | SURVIVAL => true
  | MENU | GAME_OVER => false
  end.

(** [Game.update] *)
Definition update (g : Game) : M Game :=
  if negb (playing (mode g)) then ret g
  else
    let g := update_timers g in
    frames <- lift (frames_per_move g);;
    let g := with_move_counter g (move_counter g + 1) in
    r <- (if frames <=? move_counter g then move_tick g else ret (Go g));;
    match r with
    | Return g => ret g
    | Go g => end_of_tick g
    end.

(** *** Input *)

Inductive Key : Set :=
  | K_1 | K_2 | K_3 | K_q | K_SPACE | K_r | K_ESCAPE
  | K_UP | K_w | K_DOWN | K_s | K_LEFT | K_a | K_RIGHT | K_d
  | K_other.

Inductive Event : Set :=
  | QUIT
  | KEYDOWN (key : Key)
  | OTHER.

Definition turn (g : Game) (d : Direction) : M (option Game) :=
  s <- lift (Snake.set_direction (snake g) d);;
  ret (Some (with_snake g s)).

Definition start (g : Game) (m : Mode) : M (option Game) :=
  g <- reset_game (with_mode g m);;
  ret (Some g).

(** The [KEYDOWN] branch of [handle_events]; [None] is [return False]. *)
Definition handle_key (g : Game) (key : Key) : M (option Game) :=
  match mode g with
  | MENU =>
      match key with
      | K_1 => start g CLASSIC
      | K_2 => start g TIME_ATTACK
      | K_3 => start g SURVIVAL
      | K_q => ret None
      | _ => ret (Some g)
      end
  | GAME_OVER =>
      match key with
      | K_SPACE => ret (Some (with_mode g MENU))
      | K_r =>
          g <- reset_game g;;
          match last_mode g with
          | Some m => ret (Some (with_mode g m))
          | None => lift (Raised AttributeError)
          end
      | _ => ret (Some g)
      end
  | _ =>
      match key with
      | K_ESCAPE => ret (Some (with_mode g MENU))
      | K_UP | K_w => turn g UP
      | K_DOWN | K_s => turn g DOWN
      | K_LEFT | K_a => turn g LEFT
      | K_RIGHT | K_d => turn g RIGHT
      | _ => ret (Some g)
      end
  end.

(** [Game.handle_events], over the events [pygame.event.get()] returned. *)
Fixpoint handle_events (events : list Event) (g : Game) : M (bool * Game) :=
  match events with
  | [] => ret (true, g)
  | QUIT :: _ => ret (false, g)
  | KEYDOWN key :: rest =>
      r <- handle_key g key;;
      match r with
      | None => ret (false, g)
      | Some g => handle_events rest g
      end
  | OTHER :: rest => handle_events rest g
  end.

(** [Game.__init__] *)
Definition init (d : Disk) : M Game :=
  let g :=
    mkGame MENU None Snake.reset 0 0 8 1%float [] [] (60 * FPS) 0 (0, 0) ∅ d in
  g <- reset_game g;;
  ret (with_high_scores g (load_high_scores d)).

(** *** What the screens read of the session *)

(** The test of [draw_game_over] for its line NEW HIGH SCORE!:
    [self.score == self.high_scores.get(mode_key, 0) and self.score > 0]
    with [mode_key = self.last_mode.lower()]. *)
Definition draw_game_over_new_best (g : Game) : outcome bool :=
  match last_mode g with
  | None => Raised AttributeError
  | Some m =>
      let mode_key := lower (mode_name m) in
      Done (bool_decide (score g = default 0 (high_scores g !! mode_key))
            && (0 <? score g))
  end.

(** The scores [draw_menu] prints under HIGH SCORES, in its order:
    [self.high_scores.get(mode, 0)] for each of the three keys. *)
Definition draw_menu_scores (g : Game) : list (string * Z) :=
  (λ mode, (mode, default 0 (high_scores g !! mode)))
    <$> ["classic"; "time_attack"; "survival"].

(** [Game.run] over the events of finitely many passes of its loop: each
    pass handles its events and updates once (drawing and the clock leave
    the session alone); the loop ends after the pass in which
    [handle_events] returned [False]. *)
Fixpoint run (frames : list (list Event)) (g : Game) : M Game :=
  match frames with
  | [] => ret g
  | events :: rest =>
      r <- handle_events events g;;
      g <- update r.2;;
      if r.1 then run rest g else ret g
  end.

(** The states of a run: [__init__], then [handle_events] and [update] in
    turn, whatever the events and the draws. *)
Inductive reachable : Game → Prop :=
  | reachable_init d rng g rng' :
      init d rng = Done (g, rng') → reachable g
  | reachable_events g events rng running g' rng' :
      reachable g →
      handle_events events g rng = Done (running, g', rng') →
      reachable g'
  | reachable_update g rng g' rng' :
      reachable g →
      update g rng = Done (g', rng') →
      reachable g'.

End Game.

(** ** The cadence as the specification words it *)

(** Python's [round] on a [float]: the nearest integer, a tie going to the
    even one. *)
Definition round_float (f : float) : outcome Z :=
  match Prim2SF f with
  | S754_zero _ => Done 0
  | S754_finite s m e =>
      let a :=
        if 0 <=? e then Z.shiftl (Z.pos m) e
        else
          let q := Z.shiftr (Z.pos m) (- e) in
          let r := Z.land (Z.pos m) (Z.ones (- e)) in
          let half := Z.shiftl 1 (- e - 1) in
          if r <? half then q
          else if half <? r then q + 1
          else if Z.even q then q else q + 1 in
      Done (if s then - a else a)
  | S754_infinity _ => Raised OverflowError
  | S754_nan => Raised ValueError
  end.

(** The specification's cadence, in its words:
    [ticks_per_move = max(1, round(fixed_frame_rate / effective_speed))],
    with the effective speed of the code. *)
Definition spec_ticks_per_move (g : Game) : outcome Z :=
  effective_speed <~ Game.current_speed g;;
  fixed_frame_rate <~ Game.float_of_Z FPS;;
  if PrimFloat.eqb effective_speed 0%float then Raised ZeroDivisionError
  else
    n <~ round_float (PrimFloat.div fixed_frame_rate effective_speed);;
    Done (Z.max 1 n).

(** [n] calls of [update] in a row. *)
Fixpoint updates (n : nat) (g : Game) : M Game :=
  match n with
  | O => ret g
  | S n => g <- Game.update g;; updates n g
  end.

(** A session right after [3] was pressed in the menu of a fresh process
    with no score file, the food on (0, 0). *)
Definition survival_start : Game :=
  mkGame SURVIVAL None Snake.reset 0 0 8 1%float [] [] (60 * FPS) 0 (0, 0)
    Game.default_high_scores (mkDisk None true).

(** Passes of the loop without input, and a key followed by the six
    passes that bring the snake to its next move. *)
Definition idle (n : nat) : list (list Game.Event) := replicate n [].
Definition press (key : Game.Key) : list (list Game.Event) := [Game.KEYDOWN key] :: idle 6.

(** Once around a square of four cells. *)
Definition lap : list (list Game.Event) :=
  press Game.K_DOWN ++ press Game.K_LEFT ++ press Game.K_UP ++ press Game.K_RIGHT.

(** A round of Survival: [3] in the menu, 21 laps (to tick 595), the
    Shield that spawns at tick 600 just ahead of the snake, and the run to
    the right wall; 727 ticks in all. The draws after [__init__]: the food
    of the reset on (0, 0), then the power-up on (22, 15) with the type of
    index 1, Shield. *)
Definition shield_frames : list (list Game.Event) :=
  press Game.K_3 ++ mjoin (replicate 21 lap) ++ idle 132.
Definition shield_draws : list Z := [0; 0; 22; 15; 1].

(** The session after those 727 ticks: the head on the last column,
    heading right, the move due at the next tick, Shield active. *)
Definition shield_state : Game :=
  mkGame SURVIVAL None
    (mkSnake [(39, 15); (38, 15); (37, 15)] RIGHT 0 {[SHIELD := 175]})
    0 6 8 1%float [] [] (60 * FPS) 127 (0, 0)
    Game.default_high_scores (mkDisk None true).

(** The session one tick later, the collision absorbed, and after the six
    ticks that follow, the next move due. *)
Definition shield_spent : Game :=
  mkGame SURVIVAL None
    (mkSnake [(39, 15); (38, 15); (37, 15)] RIGHT 0 ∅)
    0 0 8 1%float [] [] (60 * FPS) 128 (0, 0)
    Game.default_high_scores (mkDisk None true).
Definition second_collision : Game :=
  Game.with_powerup_spawn_counter (Game.with_move_counter shield_spent 6) 134.

(** The session [__init__] leaves when there is no score file and the
    food falls on (0, 0). *)
Definition menu_start : Game :=
  mkGame MENU None Snake.reset 0 0 8 1%float [] [] (60 * FPS) 0 (0, 0)
    Game.default_high_scores (mkDisk None true).

(** [survival_start] seven ticks later: the snake has advanced once. *)
Definition survival_moved : Game :=
  mkGame SURVIVAL None
    (mkSnake [(21, 15); (20, 15); (19, 15)] RIGHT 0 ∅)
    0 0 8 1%float [] [] (60 * FPS) 7 (0, 0)
    Game.default_high_scores (mkDisk None true).

(** A snake with its head on the last column, heading right. *)
Definition at_right_wall : Snake :=
  mkSnake [(39, 15); (38, 15); (37, 15)] RIGHT 0 ∅.

(** A snake coiled so that the cell right of its head is its fourth cell. *)
Definition coiled : Snake :=
  mkSnake [(5, 5); (5, 6); (6, 6); (6, 5); (7, 5)] RIGHT 0 ∅.

(** A snake with one unit of growth pending, and what a move makes of it. *)
Definition growing : Snake :=
  mkSnake [(20, 15); (19, 15); (18, 15)] RIGHT 1 ∅.
Definition grown : Snake :=
  mkSnake [(21, 15); (20, 15); (19, 15); (18, 15)] RIGHT 0 ∅.

(** A round of Survival that ends with 30 points. *)
Definition thirty_points : Game :=
  mkGame SURVIVAL None at_right_wall 30 0 8 1%float [] [] (60 * FPS) 0 (0, 0)
    Game.default_high_scores (mkDisk None true).

(** A field that is full, the spawn counter one tick before it fires. *)
Definition full_field : Game :=
  mkGame CLASSIC None Snake.reset 0 0 8 1%float
    [mkPowerUp GHOST (3, 3) 300; mkPowerUp SHIELD (4, 4) 300] []
    (60 * FPS) 599 (0, 0) Game.default_high_scores (mkDisk None true).

(** A round of Survival in which the snake eats twice: [3] in the menu
    with the food of the reset on (21, 15), right ahead, the next food on
    (22, 15), the third on (0, 0); at tick 21 the snake has five cells,
    and the first obstacle is put on (30, 10). *)
Definition veteran_frames : list (list Game.Event) := press Game.K_3 ++ idle 14.
Definition veteran_draws : list Z := [21; 15; 22; 15; 0; 0; 30; 10].
Definition veteran : Game :=
  mkGame SURVIVAL None
    (mkSnake [(23, 15); (22, 15); (21, 15); (20, 15); (19, 15)] RIGHT 0 ∅)
    20 0 8 1%float [] [mkObstacle (30, 10)] (60 * FPS) 21 (0, 0)
    Game.default_high_scores (mkDisk None true).

(** That round 119 ticks later, ended at the right wall with 20 points. *)
Definition veteran_over : Game :=
  mkGame GAME_OVER (Some SURVIVAL)
    (mkSnake [(39, 15); (38, 15); (37, 15); (36, 15); (35, 15)] RIGHT 0 ∅)
    20 0 8 1%float [] [mkObstacle (30, 10)] (60 * FPS) 139 (0, 0)
    (<["survival" := 20]> Game.default_high_scores)
    (mkDisk (Some (<["survival" := 20]> Game.default_high_scores)) true).

(** The same round after six ticks, the move onto the food due, and one
    tick later. *)
Definition hungry : Game :=
  mkGame SURVIVAL None Snake.reset 0 6 8 1%float [] [] (60 * FPS) 6 (21, 15)
    Game.default_high_scores (mkDisk None true).
Definition fed_once : Game :=
  mkGame SURVIVAL None
    (mkSnake [(21, 15); (20, 15); (19, 15)] RIGHT 1 ∅)
    10 0 8 1%float [] [] (60 * FPS) 7 (22, 15)
    Game.default_high_scores (mkDisk None true).

(** The round of [shield_frames] at tick 600: the Shield has just been
    put on (22, 15). *)
Definition shield_on_field_frames : list (list Game.Event) :=
  press Game.K_3 ++ mjoin (replicate 21 lap) ++ idle 5.
Definition shield_on_field : Game :=
  mkGame SURVIVAL None
    (mkSnake [(21, 15); (20, 15); (20, 16)] RIGHT 0 ∅)
    0 5 8 1%float [mkPowerUp SHIELD (22, 15) 300] [] (60 * FPS) 0 (0, 0)
    Game.default_high_scores (mkDisk None true).

(** A round of Time Attack right after [2] was pressed in the menu. *)
Definition racing : Game :=
  mkGame TIME_ATTACK None Snake.reset 0 0 8 1%float [] [] (60 * FPS) 0 (0, 0)
    Game.default_high_scores (mkDisk None true).

(** A session with the head on an obstacle, Shield active. *)
Definition on_rock : Game :=
  mkGame SURVIVAL None
    (mkSnake [(30, 10); (29, 10); (28, 10); (27, 10); (26, 10)] RIGHT 0
       {[SHIELD := 120]})
    20 0 8 1%float [] [mkObstacle (5, 5); mkObstacle (30, 10)] (60 * FPS) 40
    (0, 0) Game.default_high_scores (mkDisk None true).

(** A round of Time Attack that Shield cannot save: [2] in the menu, 125
    laps, then straight down from (21, 15). The power-ups of ticks 600
    and 1200 are put on the way, SpeedBoost on (21, 24) and Shield on
    (21, 25); the snake takes them at ticks 3570 and 3575 and, moving
    every fifth tick from then on, stands before the bottom wall when the
    last tick of the clock begins: [last_second], after 3599 ticks. *)
Definition last_second_frames : list (list Game.Event) :=
  press Game.K_2 ++ mjoin (replicate 125 lap) ++ press Game.K_DOWN ++ idle 85.
Definition last_second_draws : list Z := [0; 0; 21; 24; 0; 21; 25; 1].
Definition last_second : Game :=
  mkGame TIME_ATTACK None
    (mkSnake [(21, 29); (21, 28); (21, 27)] DOWN 0
       {[SHIELD := 276; SPEED_BOOST := 271]})
    0 4 8 1%float [] [] 1 599 (0, 0)
    Game.default_high_scores (mkDisk None true).

(** The session after that tick, when the draws put the power-up of tick
    3600, a Multiplier, on (5, 5). *)
Definition last_second_over : Game :=
  mkGame GAME_OVER (Some TIME_ATTACK)
    (mkSnake [(21, 29); (21, 28); (21, 27)] DOWN 0 {[SPEED_BOOST := 270]})
    0 0 8 1%float [mkPowerUp MULTIPLIER (5, 5) 300] [] 0 0 (0, 0)
    Game.default_high_scores (mkDisk None true).

(** ** The vocabulary of the properties *)

Section Vocabulary.

Import Snake Game.

(** A cell of the grid: [0 <= x < GRID_WIDTH] and [0 <= y < GRID_HEIGHT]. *)
Definition in_grid (c : Cell) : Prop :=
  0 ≤ c.1 < GRID_WIDTH ∧ 0 ≤ c.2 < GRID_HEIGHT.

(** The cell [move] tests and inserts: wrapped under Ghost, as computed
    otherwise. *)
Definition new_head (has_ghost : bool) (h : Cell) (d : Direction) : Cell :=
  if has_ghost then wrap (step_cell h d) else step_cell h d.

(** The cell that two successive raw draws [x], [y] make. *)
Definition cell_of_draws (x y : Z) : Cell := (x `mod` GRID_WIDTH, y `mod` GRID_HEIGHT).

(** The raw draws that a list of candidate cells takes, in order. *)
Definition draws_of (cells : list (Z * Z)) : list Z :=
  c ← cells; [c.1; c.2].

(** The key of the table for the mode that ends: [self.last_mode.lower()]. *)
Definition mode_key (g : Game) : string := lower (mode_name (mode g)).

(** [self.high_scores.get(mode_key, 0)] *)
Definition stored_best (g : Game) : Z := default 0 (high_scores g !! mode_key g).

(** What [move] returns on the snake of [g]: blocked, or the moved snake. *)
Definition move_blocked (has_ghost : bool) (g : Game) : Prop :=
  Snake.move (snake g) has_ghost = Done (false, snake g).

Definition move_to (has_ghost : bool) (g : Game) (s : Snake) : Prop :=
  Snake.move (snake g) has_ghost = Done (true, s).

(** The head of [g] is on an obstacle and the check applies: Survival,
    no Ghost at this tick's move. *)
Definition on_obstacle (has_ghost : bool) (g : Game) (h : Cell) : Prop :=
  mode g = SURVIVAL ∧ has_ghost = false
  ∧ Snake.get_head (snake g) = Done h ∧ h ∈ opos <$> obstacles g.

Definition clear_obstacle (g : Game) (h : Cell) : Game :=
  with_obstacles g (filter (λ o, opos o ≠ h) (obstacles g)).

Definition eat (g : Game) : Game :=
  let g := with_snake g (Snake.grow (snake g) 1) in
  with_score g (score g + 10 * (if active g MULTIPLIER then 2 else 1)).

(** The timers after the pick-up loop over [copy] with the head on [h]. *)
Fixpoint collected (h : Cell) (copy : list PowerUp) (act : gmap PowerUpType Z)
  : gmap PowerUpType Z :=
  match copy with
  | [] => act
  | p :: rest =>
      collected h rest
        (if bool_decide (h = pos p) then <[type p := duration p]> act else act)
  end.

Definition pick_up (g : Game) (h : Cell) : Game :=
  with_powerups
    (with_active_powerups g (collected h (powerups g) (active_powerups (snake g))))
    (filter (λ p, pos p ≠ h) (powerups g)).

(** The session after the timers and the increment of the frame counter. *)
Definition ticked (g : Game) : Game :=
  with_move_counter (update_timers g) (move_counter g + 1).

(** The session on which [move] is called when the cadence is reached. *)
Definition at_move (g : Game) : Game := with_move_counter (update_timers g) 0.

(** The frame counter reaches the cadence at this tick. *)
Definition move_due (g : Game) : Prop :=
  ∃ frames, frames_per_move (update_timers g) = Done frames
            ∧ frames ≤ move_counter g + 1.

(** What [update] does with the outcome of the move block. *)
Definition finish (r : flow) : M Game :=
  match r with
  | Return g => ret g
  | Go g => end_of_tick g
  end.

(** What holds of every state of a run. *)
Record sound (g : Game) : Prop := mk_sound {
  sound_speed : base_speed g = 8 ∧ speed_multiplier g = 1%float;
  sound_count : (length (powerups g) ≤ 2)%nat;
  sound_nodup : NoDup (body (snake g));
  sound_grid : Forall in_grid (body (snake g));
  sound_obstacles : ∀ p, p ∈ powerups g → pos p ∉ opos <$> obstacles g;
  sound_head : body (snake g) ≠ []
}.

(** No power-up and no food on the cells [cells]. *)
Definition settled_on (cells : list Cell) (g : Game) : Prop :=
  (∀ p, p ∈ powerups g → pos p ∉ cells) ∧ food_pos g ∉ cells.

(** Between ticks of a round nothing lies under the snake; inside a tick,
    between the move and the checks, nothing lies under the cells behind
    the head. *)
Definition settled (g : Game) : Prop := settled_on (body (snake g)) g.
Definition settled_behind (g : Game) : Prop :=
  settled_on (drop 1 (body (snake g))) g.

(** The part of a session that only the move block and the frame counter
    touch. *)
Definition same_track (g g2 : Game) : Prop :=
  body (snake g2) = body (snake g)
  ∧ direction (snake g2) = direction (snake g)
  ∧ move_counter g2 = move_counter g.

Definition flow_game (r : flow) : Game :=
  match r with Go g | Return g => g end.

(** The collisions of a tick: the move is blocked (a wall without Ghost, or
    the snake itself), or after the attempt the head is on an obstacle
    and the obstacle check applies. *)
Definition wall_or_self_collision (g : Game) : Prop :=
  move_blocked (active (at_move g) GHOST) (at_move g).

Definition obstacle_collision (g : Game) : Prop :=
  ∃ b s h,
    Snake.move (snake (at_move g)) (active (at_move g) GHOST) = Done (b, s)
    ∧ on_obstacle (active (at_move g) GHOST) (with_snake (at_move g) s) h.

Definition fatal_collision (g : Game) : Prop :=
  playing (mode g) = true ∧ move_due g
  ∧ (wall_or_self_collision g ∨ obstacle_collision g).

(** Shield is in [active_powerups] when the move is attempted. *)
Definition shielded (g : Game) : Prop := active (at_move g) SHIELD = true.

(** A stretch of a run in which the snake picks up no Shield power-up:
    input, and ticks after which the head is on none of the Shield
    power-ups that were on the field. *)
Inductive shieldless_run (g : Game) : Game → Prop :=
  | shieldless_refl : shieldless_run g g
  | shieldless_events g1 events rng running g2 rng' :
      shieldless_run g g1 →
      handle_events events g1 rng = Done (running, g2, rng') →
      shieldless_run g g2
  | shieldless_update g1 rng g2 rng' :
      shieldless_run g g1 →
      update g1 rng = Done (g2, rng') →
      (∀ p, p ∈ powerups g1 → type p = SHIELD →
            Snake.get_head (snake g2) ≠ Done (pos p)) →
      shieldless_run g g2.

(** Twenty times the effective speed of a session of a run, which is
    exact: the base speed 8 times the multiplier 1.0 is 160/20, times 1.5
    under SpeedBoost it is 240/20, and Classic adds 0.05 = 1/20 for each
    cell of the snake. *)
Definition speed_x20 (g : Game) : Z :=
  (if active g SPEED_BOOST then 240 else 160)
  + (if bool_decide (mode g = CLASSIC)
     then Z.of_nat (length (body (snake g))) else 0).

(** [max(1, floor(FPS / effective_speed))], in exact arithmetic. *)
Definition cadence (g : Game) : Z := Z.max 1 ((FPS * 20) `div` speed_x20 g).

(** The computation of [frames_per_move] in binary64 arithmetic, as a
    function of what it reads of a session with base speed 8 and
    multiplier 1.0. *)
Definition cadence_of (boost classic : bool) (n : nat) : outcome Z :=
  b <~ float_of_Z 8;;
  let speed := PrimFloat.mul b 1%float in
  let speed := if boost then PrimFloat.mul speed 1.5%float else speed in
  speed <~ (if classic
            then k <~ float_of_Z (Z.of_nat n);;
                 Done (PrimFloat.add speed (PrimFloat.mul k five_hundredths))
            else Done speed);;
  fps <~ float_of_Z FPS;;
  if PrimFloat.eqb speed 0%float then Raised ZeroDivisionError
  else
    n <~ int_of_float (PrimFloat.div fps speed);;
    Done (Z.max 1 n).

Definition cadence_floor (boost classic : bool) (n : nat) : Z :=
  Z.max 1 ((FPS * 20) `div` ((if boost then 240 else 160)
                             + (if classic then Z.of_nat n else 0))).

Definition cadence_agrees (boost classic : bool) (n : nat) : bool :=
  match cadence_of boost classic n with
  | Done z => z =? cadence_floor boost classic n
  | _ => false
  end.

(** All the cells of the grid. *)
Definition grid_cells : list Cell :=
  x ← seqZ 0 GRID_WIDTH; y ← seqZ 0 GRID_HEIGHT; [(x, y)].

(** Where the things of a session are, in every state of a run: on the
    grid, power-ups apart from each other and obstacles apart from each
    other, no obstacle under the food or beyond the count the length of
    the snake allows, timers between 1 and the duration of a power-up,
    the direction away from the neck, and the mode that ended known when
    the game is over. *)
Record placed (g : Game) : Prop := mk_placed {
  placed_food : in_grid (food_pos g);
  placed_powerups :
    Forall (λ p, in_grid (pos p) ∧ duration p = 300) (powerups g);
  placed_powerups_apart : NoDup (pos <$> powerups g);
  placed_obstacles : Forall (λ o, in_grid (opos o)) (obstacles g);
  placed_obstacles_apart : NoDup (opos <$> obstacles g);
  placed_food_clear : food_pos g ∉ opos <$> obstacles g;
  placed_count :
    Z.of_nat (length (obstacles g))
    ≤ Z.of_nat (length (body (snake g))) `div` 5;
  placed_survival :
    playing (mode g) = true → mode g ≠ SURVIVAL → obstacles g = [];
  placed_timers :
    ∀ t r, active_powerups (snake g) !! t = Some r → 0 < r ≤ 300;
  placed_facing :
    ∀ h neck rest, body (snake g) = h :: neck :: rest →
                   step_cell h (direction (snake g)) ≠ neck;
  placed_last_mode :
    mode g = GAME_OVER → ∃ m, last_mode g = Some m ∧ playing m = true
}.

(** The length the snake has or is still to grow to. *)
Definition due_length (g : Game) : Z :=
  Z.of_nat (length (body (snake g))) + grow_pending (snake g).

(** The spawn counter after its increment and its test. *)
Definition next_spawn (c : Z) : Z := if FPS * 10 <=? c + 1 then 0 else c + 1.

(** What the statements of a tick other than [game_over], the clock of
    Time Attack and the two counters make of a session [g], when the
    snake was moved at most [moves] times and ate [meals] times: the
    score is up by 10 or 20 for each meal, the length the snake is due
    to have by one for each meal, the body longer by at most one cell
    for each move. *)
Record course (moves meals : nat) (g g2 : Game) : Prop := mk_course {
  course_mode : mode g2 = mode g;
  course_last_mode : last_mode g2 = last_mode g;
  course_time : time_remaining g2 = time_remaining g;
  course_high_scores : high_scores g2 = high_scores g;
  course_disk : disk g2 = disk g;
  course_move_counter : move_counter g2 = move_counter g;
  course_spawn_counter : powerup_spawn_counter g2 = powerup_spawn_counter g;
  course_score :
    score g + 10 * Z.of_nat meals ≤ score g2 ≤ score g + 20 * Z.of_nat meals;
  course_tens : (10 | score g2 - score g);
  course_due : due_length g2 = due_length g + Z.of_nat meals;
  course_length :
    (length (body (snake g)) ≤ length (body (snake g2))
     ≤ length (body (snake g)) + moves)%nat;
  course_pending : 0 ≤ grow_pending (snake g) → 0 ≤ grow_pending (snake g2)
}.

(** The numbers of a session, in every state of a run: the snake has its
    three cells at least and nothing negative to grow, every cell it has
    or is due beyond the three brought 10 or 20 points, and the counters
    and the clock stay in their ranges. *)
Record tally (g : Game) : Prop := mk_tally {
  tally_length : (3 ≤ length (body (snake g)))%nat;
  tally_pending : 0 ≤ grow_pending (snake g);
  tally_score : 10 * (due_length g - 3) ≤ score g ≤ 20 * (due_length g - 3);
  tally_tens : (10 | score g);
  tally_spawn_counter : 0 ≤ powerup_spawn_counter g < FPS * 10;
  tally_move_counter : 0 ≤ move_counter g ≤ 6;
  tally_time : 0 ≤ time_remaining g ≤ 60 * FPS;
  tally_clock : playing (mode g) = true → 0 < time_remaining g;
  tally_no_clock :
    playing (mode g) = true → mode g ≠ TIME_ATTACK →
    time_remaining g = 60 * FPS
}.

(** Between the timers' pass and the pick-up, a tick only takes timers
    away (a Shield that absorbs a collision), and it leaves the power-ups
    on the field alone. *)
Definition timers_kept (g g2 : Game) : Prop :=
  powerups g2 = powerups g
  ∧ active_powerups (snake g2) ⊆ active_powerups (snake g).

End Vocabulary.

(** ** Properties of the snake *)

Section SnakeFacts.

Import Snake.

Lemma out_of_grid_true c :
  out_of_grid c = true ↔
  c.1 < 0 ∨ GRID_WIDTH ≤ c.1 ∨ c.2 < 0 ∨ GRID_HEIGHT ≤ c.2.
Proof. unfold out_of_grid. rewrite !orb_true_iff. lia. Qed.

Lemma out_of_grid_false c : out_of_grid c = false ↔ in_grid c.
Proof. unfold out_of_grid, in_grid. rewrite !orb_false_iff. lia. Qed.

Lemma wrap_in_grid c : in_grid (wrap c).
Proof.
  unfold in_grid, wrap; simpl.
  pose proof (Z.mod_pos_bound c.1 GRID_WIDTH eq_refl).
  pose proof (Z.mod_pos_bound c.2 GRID_HEIGHT eq_refl).
  lia.
Qed.

Lemma get_head_body s h : get_head s = Done h ↔ ∃ rest, body s = h :: rest.
Proof.
  unfold get_head. destruct (body s) as [|c rest]; split.
  - discriminate.
  - intros [? ?]; discriminate.
  - intros [= ->]; eauto.
  - intros [? [= -> _]]; reflexivity.
Qed.

Lemma advance_blocked s c s' :
  advance s c = (false, s') → s' = s ∧ c ∈ drop 1 (body s).
Proof.
  unfold advance. case_bool_decide as Hin.
  - intros [= <-]; done.
  - destruct (0 <? grow_pending s); discriminate.
Qed.

Lemma advance_self_collision s c :
  c ∈ drop 1 (body s) → advance s c = (false, s).
Proof. intros Hin. unfold advance. by rewrite bool_decide_eq_true_2. Qed.

Lemma removelast_cons {A} (x y : A) l : removelast (x :: y :: l) = x :: removelast (y :: l).
Proof. reflexivity. Qed.

Lemma advance_moved s c s' :
  body s ≠ [] →
  advance s c = (true, s') →
  (c ∉ drop 1 (body s))
  ∧ direction s' = direction s
  ∧ active_powerups s' = active_powerups s
  ∧ (if 0 <? grow_pending s
     then body s' = c :: body s ∧ grow_pending s' = grow_pending s - 1
     else body s' = c :: removelast (body s)
          ∧ grow_pending s' = grow_pending s).
Proof.
  intros Hne. unfold advance. case_bool_decide as Hin; [discriminate|].
  destruct (0 <? grow_pending s); intros [= <-]; simpl; split_and!; try done.
  destruct (body s); done.
Qed.

Lemma move_unfold s has_ghost h :
  get_head s = Done h →
  move s has_ghost =
    if negb has_ghost && out_of_grid (step_cell h (direction s))
    then Done (false, s)
    else Done (advance s (new_head has_ghost h (direction s))).
Proof.
  intros Hh. unfold move, new_head. rewrite Hh; simpl.
  destruct has_ghost; simpl; [done|].
  by destruct (out_of_grid _).
Qed.

Lemma move_blocked_same s has_ghost s' :
  move s has_ghost = Done (false, s') → s' = s.
Proof.
  unfold move. destruct (get_head s) as [h| |] eqn:Hh; simpl; try discriminate.
  destruct has_ghost; simpl.
  - intros [= H]. by apply advance_blocked in H as [-> _].
  - destruct (out_of_grid _).
    + by intros [= <-].
    + intros [= H]. by apply advance_blocked in H as [-> _].
Qed.

Lemma move_done_head s has_ghost r :
  move s has_ghost = Done r → ∃ h, get_head s = Done h.
Proof.
  unfold move. destruct (get_head s) as [h| |]; simpl; try discriminate. eauto.
Qed.

Lemma length_removelast_cons {A} (x : A) l :
  length (removelast (x :: l)) = length l.
Proof.
  revert x. induction l as [|y l IH]; intros x; [done|].
  rewrite removelast_cons.
  change (S (length (removelast (y :: l))) = S (length l)). by rewrite IH.
Qed.

(** C1. Without Ghost, a computed head outside the grid ([x < 0],
    [x >= GRID_WIDTH], [y < 0] or [y >= GRID_HEIGHT]) makes [move] return
    blocked ([False]) and leaves the snake as it was, and a move that
    succeeds puts the head on a cell of the grid. With Ghost, the computed
    head is reduced modulo the grid dimensions: the cell tested and
    inserted is the wrapped one, it lies in the grid, it is the head after
    a successful move, and a blocked move leaves the snake as it was. *)
Theorem move_wall_or_wrap (s : Snake) (h : Cell) :
  get_head s = Done h →
  let c := step_cell h (direction s) in
  ((c.1 < 0 ∨ GRID_WIDTH ≤ c.1 ∨ c.2 < 0 ∨ GRID_HEIGHT ≤ c.2) →
     move s false = Done (false, s))
  ∧ (∀ s', move s false = Done (true, s') →
       get_head s' = Done c ∧ in_grid c)
  ∧ move s true = Done (advance s (c.1 `mod` GRID_WIDTH, c.2 `mod` GRID_HEIGHT))
  ∧ in_grid (c.1 `mod` GRID_WIDTH, c.2 `mod` GRID_HEIGHT)
  ∧ (∀ s', move s true = Done (true, s') →
       get_head s' = Done (c.1 `mod` GRID_WIDTH, c.2 `mod` GRID_HEIGHT))
  ∧ (∀ s', move s true = Done (false, s') → body s' = body s ∧ s' = s).
Proof.
  intros Hh c.
  assert (Hne : body s ≠ []).
  { apply get_head_body in Hh as [rest ->]. done. }
  assert (Hadv : ∀ x s', advance s x = (true, s') → get_head s' = Done x).
  { intros x s' Hx. apply advance_moved in Hx as (_ & _ & _ & Hb); [|done].
    apply get_head_body. destruct (0 <? grow_pending s); destruct Hb as [-> _]; eauto. }
  split_and!.
  - intros Hout. rewrite (move_unfold _ _ _ Hh). simpl.
    apply out_of_grid_true in Hout. fold c. by rewrite Hout.
  - intros s'. rewrite (move_unfold _ _ _ Hh). simpl. fold c.
    destruct (out_of_grid c) eqn:Hout; [discriminate|].
    intros [= Hx]. split; [by apply Hadv | by apply out_of_grid_false].
  - by rewrite (move_unfold _ _ _ Hh).
  - apply (wrap_in_grid c).
  - intros s'. rewrite (move_unfold _ _ _ Hh). simpl. intros [= Hx]. by apply Hadv.
  - intros s' Hm. apply move_blocked_same in Hm. by subst.
Qed.

(** C2. Whether Ghost is active or not, when the new head (wrapped under
    Ghost) is a cell of [body[1:]], taken before the insertion, [move]
    returns blocked and the snake, its body included, is as it was. *)
Theorem move_self_collision (s : Snake) (has_ghost : bool) (h : Cell) :
  get_head s = Done h →
  new_head has_ghost h (direction s) ∈ drop 1 (body s) →
  move s has_ghost = Done (false, s).
Proof.
  intros Hh Hin. rewrite (move_unfold _ _ _ Hh).
  destruct (negb has_ghost && out_of_grid _); [done|].
  by rewrite advance_self_collision.
Qed.

(** C3. When [move] succeeds the new head is prepended. If [grow_pending]
    was 0 the last cell is removed and the length of the body is
    unchanged; if it was positive it goes down by exactly 1, no cell is
    removed and the body is longer by exactly 1. *)
Theorem move_success (s s' : Snake) (has_ghost : bool) :
  move s has_ghost = Done (true, s') →
  ∃ h, get_head s = Done h
  ∧ get_head s' = Done (new_head has_ghost h (direction s))
  ∧ (grow_pending s = 0 →
       body s' = new_head has_ghost h (direction s) :: removelast (body s)
       ∧ length (body s') = length (body s)
       ∧ grow_pending s' = 0)
  ∧ (0 < grow_pending s →
       body s' = new_head has_ghost h (direction s) :: body s
       ∧ length (body s') = S (length (body s))
       ∧ grow_pending s' = grow_pending s - 1).
Proof.
  intros Hm. destruct (move_done_head _ _ _ Hm) as [h Hh].
  exists h. split; [done|].
  rewrite (move_unfold _ _ _ Hh) in Hm.
  destruct (negb has_ghost && out_of_grid _); [discriminate|].
  injection Hm as Hm.
  assert (Hne : body s ≠ []).
  { apply get_head_body in Hh as [rest ->]. done. }
  apply advance_moved in Hm as (_ & _ & _ & Hb); [|done].
  split_and!.
  - apply get_head_body. destruct (0 <? grow_pending s); destruct Hb as [-> _]; eauto.
  - intros H0. rewrite H0 in Hb. simpl in Hb. destruct Hb as [Hb Hg].
    rewrite Hb, Hg. split_and!; try done.
    destruct (body s) as [|x l]; [done|].
    change (S (length (removelast (x :: l))) = S (length l)).
    by rewrite length_removelast_cons.
  - intros Hpos. apply Z.ltb_lt in Hpos. rewrite Hpos in Hb.
    destruct Hb as [-> ->]. done.
Qed.

(** C4. On a snake longer than one cell, [set_direction d] leaves the
    snake, and so the stored direction, as it is exactly when head plus
    the delta of [d] is the second segment (the neck), and in every other
    case the stored direction becomes [d]; on a snake of one cell it
    always becomes [d]. Body, pending growth and timers are never
    touched, and the direction afterwards is [d] or the one before. *)
Theorem set_direction_neck (s : Snake) (d : Direction) :
  (∀ h neck rest, body s = h :: neck :: rest →
     (step_cell h d = neck → set_direction s d = Done s)
     ∧ (step_cell h d ≠ neck →
        set_direction s d
        = Done (mkSnake (body s) d (grow_pending s) (active_powerups s))))
  ∧ (∀ h, body s = [h] →
       set_direction s d
       = Done (mkSnake (body s) d (grow_pending s) (active_powerups s)))
  ∧ (∀ s', set_direction s d = Done s' →
       body s' = body s ∧ grow_pending s' = grow_pending s
       ∧ active_powerups s' = active_powerups s
       ∧ (direction s' = d ∨ s' = s)).
Proof.
  split_and!.
  - intros h neck rest Hb. unfold set_direction, get_head. rewrite Hb. simpl.
    split; intros Hc.
    + by rewrite bool_decide_eq_false_2 by (intros Hn; by apply Hn).
    + rewrite bool_decide_eq_true_2 by done. unfold with_direction.
      by rewrite Hb.
  - intros h Hb. unfold set_direction, get_head. rewrite Hb. simpl.
    unfold with_direction. by rewrite Hb.
  - intros s'. unfold set_direction, get_head.
    destruct (body s) as [|h [|neck rest]] eqn:Hb; simpl; [done| |].
    + intros [= <-]. simpl. split_and!; [done..|by left].
    + case_bool_decide; intros [= <-]; simpl;
        (split_and!; [done..|]); [by left|by right].
Qed.

End SnakeFacts.

(** ** The monad *)

Lemma obind_Done {A B} (x : outcome A) (k : A → outcome B) b :
  obind x k = Done b ↔ ∃ a, x = Done a ∧ k a = Done b.
Proof.
  destruct x as [a| |]; simpl; split; try discriminate; eauto.
  - intros (a' & [= <-] & Hk). done.
  - intros (? & ? & _); discriminate.
  - intros (? & ? & _); discriminate.
Qed.

Lemma bind_Done {A B} (m : M A) (k : A → M B) rng b rng2 :
  bind m k rng = Done (b, rng2) ↔
  ∃ a rng1, m rng = Done (a, rng1) ∧ k a rng1 = Done (b, rng2).
Proof.
  unfold bind. rewrite obind_Done. split.
  - intros ([a rng1] & Hm & Hk). eauto.
  - intros (a & rng1 & Hm & Hk). exists (a, rng1). done.
Qed.

Lemma lift_Done {A} (x : outcome A) rng a rng1 :
  lift x rng = Done (a, rng1) ↔ x = Done a ∧ rng1 = rng.
Proof.
  unfold lift. destruct x; simpl; split; try (intros [? ?]; discriminate);
    try discriminate.
  - by intros [= -> ->].
  - by intros [[= ->] ->].
Qed.

Lemma ret_Done {A} (a a' : A) rng rng1 :
  ret a rng = Done (a', rng1) ↔ a' = a ∧ rng1 = rng.
Proof. unfold ret. split; [by intros [= -> ->] | by intros [-> ->]]. Qed.

(** ** Spawning *)

Section SpawnFacts.

Import Game.

Lemma random_cell_cons x y rng :
  random_cell (x :: y :: rng) = Done (cell_of_draws x y, rng).
Proof. reflexivity. Qed.

Lemma random_cell_Done rng c rng' :
  random_cell rng = Done (c, rng') →
  ∃ x y, rng = x :: y :: rng' ∧ c = cell_of_draws x y.
Proof.
  destruct rng as [|x [|y rng]]; try discriminate.
  rewrite random_cell_cons. intros [= <- <-]. eauto.
Qed.

Lemma random_cell_not_Raised rng e : random_cell rng ≠ Raised e.
Proof. by destruct rng as [|x [|y rng]]. Qed.

Lemma cell_of_draws_in_grid x y : in_grid (cell_of_draws x y).
Proof. apply (wrap_in_grid (x, y)). Qed.

Lemma sample_loop_Done fuel free rng c rng' :
  sample_loop fuel free rng = Done (c, rng') →
  free c = true ∧ in_grid c ∧ ∃ used, rng = used ++ rng'.
Proof.
  revert rng. induction fuel as [|n IH]; intros rng H; [discriminate|].
  simpl in H. apply bind_Done in H as (c1 & rng1 & Hc & H).
  apply random_cell_Done in Hc as (x & y & -> & ->).
  destruct (free (cell_of_draws x y)) eqn:Hfree.
  - apply ret_Done in H as [-> ->]. split_and!; [done|apply cell_of_draws_in_grid|].
    by exists [x; y].
  - apply IH in H as (? & ? & used & ->). split_and!; [done..|].
    by exists (x :: y :: used).
Qed.

Lemma sample_loop_not_Raised fuel free rng e :
  sample_loop fuel free rng ≠ Raised e.
Proof.
  revert rng. induction fuel as [|n IH]; intros rng; [done|].
  simpl. unfold bind.
  destruct (random_cell rng) as [[c rng1]| |] eqn:Hc; simpl; [| |done].
  - destruct (free c); [done|apply IH].
  - by apply random_cell_not_Raised in Hc.
Qed.

Lemma sample_loop_progress free rejected x y rest fuel :
  Forall (λ c, free (cell_of_draws c.1 c.2) = false) rejected →
  free (cell_of_draws x y) = true →
  (length rejected < fuel)%nat →
  sample_loop fuel free (draws_of rejected ++ x :: y :: rest)
  = Done (cell_of_draws x y, rest).
Proof.
  intros Hrej Hfree. revert fuel.
  induction Hrej as [|c rejected Hc _ IH]; intros fuel Hlen.
  - destruct fuel as [|n]; [simpl in Hlen; lia|].
    simpl. unfold bind. rewrite random_cell_cons. simpl. by rewrite Hfree.
  - destruct fuel as [|n]; [simpl in Hlen; lia|].
    change (draws_of (c :: rejected)) with (c.1 :: c.2 :: draws_of rejected).
    simpl. unfold bind. rewrite random_cell_cons. simpl. rewrite Hc.
    apply IH. simpl in Hlen. lia.
Qed.

Lemma length_draws_of cells : length (draws_of cells) = (2 * length cells)%nat.
Proof.
  induction cells as [|c cells IH]; [done|].
  change (draws_of (c :: cells)) with (c.1 :: c.2 :: draws_of cells).
  cbn [length]. lia.
Qed.

Lemma sample_progress free rejected x y rest :
  Forall (λ c, free (cell_of_draws c.1 c.2) = false) rejected →
  free (cell_of_draws x y) = true →
  sample free (draws_of rejected ++ x :: y :: rest)
  = Done (cell_of_draws x y, rest).
Proof.
  intros Hrej Hfree. unfold sample. apply sample_loop_progress; [done..|].
  rewrite length_app, length_draws_of. simpl. lia.
Qed.

Lemma food_free_true g c :
  food_free g c = true ↔ (c ∉ body (snake g)) ∧ c ∉ opos <$> obstacles g.
Proof.
  unfold food_free. by rewrite andb_true_iff, !bool_decide_eq_true.
Qed.

Lemma field_free_true g c :
  field_free g c = true ↔
  (c ∉ body (snake g)) ∧ c ≠ food_pos g
  ∧ (c ∉ pos <$> powerups g) ∧ c ∉ opos <$> obstacles g.
Proof.
  unfold field_free. rewrite !andb_true_iff, !bool_decide_eq_true. tauto.
Qed.

Lemma spawn_food_Done g rng c rng' :
  spawn_food g rng = Done (c, rng') →
  (c ∉ body (snake g)) ∧ (c ∉ opos <$> obstacles g) ∧ in_grid c.
Proof.
  intros H. apply sample_loop_Done in H as (Hf & Hg & _).
  apply food_free_true in Hf as [? ?]. done.
Qed.

(** C7. The cell that [spawn_food] returns is a cell of the grid that is
    none of the cells of the snake's body and none of the obstacles'
    cells, in whatever session state it is called. The call raises
    nothing, and it returns as soon as the draws offer such a cell: after
    any run of rejected candidates, the first free one is the result. *)
Theorem spawn_food_avoids (g : Game) :
  (∀ rng c rng', spawn_food g rng = Done (c, rng') →
     (c ∉ body (snake g)) ∧ (c ∉ opos <$> obstacles g) ∧ in_grid c)
  ∧ (∀ rng e, spawn_food g rng ≠ Raised e)
  ∧ (∀ rejected x y rest,
       Forall (λ c, cell_of_draws c.1 c.2 ∈ body (snake g)
                    ∨ cell_of_draws c.1 c.2 ∈ opos <$> obstacles g) rejected →
       cell_of_draws x y ∉ body (snake g) →
       cell_of_draws x y ∉ opos <$> obstacles g →
       spawn_food g (draws_of rejected ++ x :: y :: rest)
       = Done (cell_of_draws x y, rest)).
Proof.
  split_and!.
  - intros rng c rng'. apply spawn_food_Done.
  - intros rng e. apply sample_loop_not_Raised.
  - intros rejected x y rest Hrej Hb Ho. apply sample_progress.
    + eapply Forall_impl; [exact Hrej|]. intros c Hc. simpl in Hc.
      destruct (food_free g (cell_of_draws c.1 c.2)) eqn:Hf; [|done].
      apply food_free_true in Hf as [? ?]. tauto.
    + by apply food_free_true.
Qed.

End SpawnFacts.

(** ** High scores *)

Section ScoreFacts.

Import Game.

Lemma mode_game_over g : mode (game_over g) = GAME_OVER.
Proof.
  unfold game_over, save_high_scores.
  destruct (_ <? _); simpl; [destruct (writable (disk g))|]; done.
Qed.

(** The key of a mode in the table is its name in lower case. *)
Lemma mode_key_name g :
  mode_key g
  = match mode g with
    | MENU => "menu"
    | CLASSIC => "classic"
    | TIME_ATTACK => "time_attack"
    | SURVIVAL => "survival"
    | GAME_OVER => "game_over"
    end.
Proof. unfold mode_key. by destruct (mode g). Qed.


End ScoreFacts.

(** ** The phases of a tick *)

Section TickFacts.

Import Game.

Lemma with_snake_same g : with_snake g (snake g) = g.
Proof. by destruct g. Qed.

Lemma active_true g t : active g t = true ↔ is_Some (active_powerups (snake g) !! t).
Proof. unfold active. apply bool_decide_eq_true. Qed.

Lemma active_drop_shield g t :
  active (drop_shield g) t = if decide (t = SHIELD) then false else active g t.
Proof.
  unfold active, drop_shield. simpl. case_decide as Ht.
  - subst. apply bool_decide_eq_false. rewrite lookup_delete_eq.
    by intros [? ?].
  - by rewrite lookup_delete_ne.
Qed.

(** Timers only expire: nothing becomes active by the passing of time. *)
Lemma active_update_timers g t :
  active (update_timers g) t = true → active g t = true.
Proof.
  rewrite !active_true. unfold update_timers. simpl.
  rewrite lookup_omap. destruct (active_powerups (snake g) !! t); [eauto|].
  simpl. by intros [? ?].
Qed.

(** *** The move *)

Lemma move_snake_cases has_ghost g r :
  move_snake has_ghost g = Done r →
  (∃ s, move_to has_ghost g s ∧ r = Go (with_snake g s))
  ∨ (move_blocked has_ghost g ∧ active g SHIELD = true ∧ r = Go (drop_shield g))
  ∨ (move_blocked has_ghost g ∧ active g SHIELD = false
     ∧ r = Return (game_over g)).
Proof.
  unfold move_snake, move_blocked, move_to. intros H.
  apply obind_Done in H as ([ok s] & Hm & H). simpl in H.
  destruct ok; simpl in H.
  - left. exists s. by injection H as <-.
  - right. pose proof (move_blocked_same _ _ _ Hm) as ->.
    rewrite with_snake_same in H.
    destruct (active g SHIELD); injection H as <-; [left|right]; done.
Qed.

Lemma move_snake_blocked_shield has_ghost g :
  move_blocked has_ghost g → active g SHIELD = true →
  move_snake has_ghost g = Done (Go (drop_shield g)).
Proof.
  unfold move_snake, move_blocked. intros -> Hs. simpl.
  by rewrite with_snake_same, Hs.
Qed.

Lemma move_snake_blocked_bare has_ghost g :
  move_blocked has_ghost g → active g SHIELD = false →
  move_snake has_ghost g = Done (Return (game_over g)).
Proof.
  unfold move_snake, move_blocked. intros -> Hs. simpl.
  by rewrite with_snake_same, Hs.
Qed.

Lemma move_snake_moved has_ghost g s :
  move_to has_ghost g s →
  move_snake has_ghost g = Done (Go (with_snake g s)).
Proof. unfold move_snake, move_to. by intros ->. Qed.

(** *** The obstacle under the head *)

Lemma check_obstacles_cases has_ghost g r :
  check_obstacles has_ghost g = Done r →
  ((∀ h, ¬ on_obstacle has_ghost g h) ∧ r = Go g)
  ∨ (∃ h, on_obstacle has_ghost g h ∧ active g SHIELD = true
          ∧ r = Go (clear_obstacle (drop_shield g) h))
  ∨ (∃ h, on_obstacle has_ghost g h ∧ active g SHIELD = false
          ∧ r = Return (game_over g)).
Proof.
  unfold check_obstacles, on_obstacle. intros H.
  destruct (bool_decide (mode g = SURVIVAL) && negb has_ghost) eqn:Hc.
  - apply andb_true_iff in Hc as [Hm Hg].
    apply bool_decide_eq_true in Hm. apply negb_true_iff in Hg.
    apply obind_Done in H as (h & Hh & H).
    case_bool_decide as Hin.
    + right. destruct (active g SHIELD); injection H as <-;
        [left|right]; exists h; done.
    + left. injection H as <-. split; [|done].
      intros h' (_ & _ & Hh' & Hin'). congruence.
  - left. injection H as <-. split; [|done].
    intros h (Hm & Hg & _). subst.
    rewrite bool_decide_eq_true_2 in Hc by done. done.
Qed.

Lemma check_obstacles_shield g h :
  on_obstacle false g h → active g SHIELD = true →
  check_obstacles false g = Done (Go (clear_obstacle (drop_shield g) h)).
Proof.
  intros (Hm & _ & Hh & Hin) Hs. unfold check_obstacles.
  rewrite bool_decide_eq_true_2 by done. simpl. rewrite Hh. simpl.
  rewrite bool_decide_eq_true_2 by done. by rewrite Hs.
Qed.

Lemma check_obstacles_bare g h :
  on_obstacle false g h → active g SHIELD = false →
  check_obstacles false g = Done (Return (game_over g)).
Proof.
  intros (Hm & _ & Hh & Hin) Hs. unfold check_obstacles.
  rewrite bool_decide_eq_true_2 by done. simpl. rewrite Hh. simpl.
  rewrite bool_decide_eq_true_2 by done. by rewrite Hs.
Qed.

(** *** Food *)

Lemma check_food_cases g rng g' rng' :
  check_food g rng = Done (g', rng') →
  (∃ h, Snake.get_head (snake g) = Done h ∧ h ≠ food_pos g
        ∧ g' = g ∧ rng' = rng)
  ∨ (Snake.get_head (snake g) = Done (food_pos g)
     ∧ ∃ c, spawn_food (eat g) rng = Done (c, rng')
            ∧ g' = with_food_pos (eat g) c).
Proof.
  unfold check_food. intros H.
  apply bind_Done in H as (h & rng1 & Hh & H).
  apply lift_Done in Hh as [Hh ->].
  case_bool_decide as Hf.
  - right. subst h. split; [done|].
    apply bind_Done in H as (c & rng2 & Hc & H).
    apply ret_Done in H as [-> ->]. by exists c.
  - left. apply ret_Done in H as [-> ->]. by exists h.
Qed.

(** *** Picking power-ups up *)

Lemma list_remove_app pre x rest :
  Forall (λ y, y ≠ x) pre →
  list_remove x (pre ++ x :: rest) = Done (pre ++ rest).
Proof.
  induction 1 as [|y pre Hy _ IH]; simpl.
  - by rewrite decide_True.
  - rewrite decide_False by done. by rewrite IH.
Qed.

Lemma collect_powerups_spec h copy : ∀ g pre,
  Snake.get_head (snake g) = Done h →
  powerups g = pre ++ copy →
  Forall (λ p, pos p ≠ h) pre →
  collect_powerups copy g
  = Done (with_powerups
            (with_active_powerups g (collected h copy (active_powerups (snake g))))
            (pre ++ filter (λ p, pos p ≠ h) copy)).
Proof.
  induction copy as [|p rest IH]; intros g pre Hh Hp Hpre.
  - simpl. rewrite app_nil_r in *. rewrite <- Hp. by destruct g as [? ? []].
  - simpl. rewrite Hh. simpl. case_bool_decide as Hpos.
    + rewrite Hp, list_remove_app.
      2:{ eapply Forall_impl; [exact Hpre|]. simpl. intros y Hy ->. done. }
      simpl. rewrite (IH _ pre); [|done..].
      rewrite filter_cons_False by (simpl; intros Hn; by apply Hn).
      reflexivity.
    + rewrite (IH _ (pre ++ [p])); [| done | by rewrite <- app_assoc
                                     | apply Forall_app; split; [done|]].
      * rewrite filter_cons_True by (simpl; congruence).
        by rewrite <- app_assoc.
      * apply Forall_singleton. congruence.
Qed.

Lemma check_powerups_spec g h :
  Snake.get_head (snake g) = Done h →
  check_powerups g = Done (pick_up g h).
Proof.
  intros Hh. unfold check_powerups.
  by rewrite (collect_powerups_spec h _ g []).
Qed.

Lemma collected_lookup h copy : ∀ act t,
  is_Some (collected h copy act !! t) ↔
  is_Some (act !! t) ∨ ∃ p, p ∈ copy ∧ pos p = h ∧ type p = t.
Proof.
  induction copy as [|p rest IH]; intros act t; simpl.
  - split; [by left|]. intros [?|(p & Hp & _)]; [done|].
    by apply elem_of_nil in Hp.
  - rewrite IH. case_bool_decide as Hpos.
    + rewrite lookup_insert. case_decide as Ht.
      * split; [|intros _; left; by eexists].
        intros _. right. exists p. split_and!; [left|done..].
      * split.
        -- intros [?|(q & Hq & ? & ?)]; [by left|].
           right. exists q. split_and!; [by right|done..].
        -- intros [?|(q & Hq & Hqp & Hqt)]; [by left|].
           apply elem_of_cons in Hq as [->|Hq]; [congruence|].
           right. exists q. done.
    + split.
      * intros [?|(q & Hq & ? & ?)]; [by left|].
        right. exists q. split_and!; [by right|done..].
      * intros [?|(q & Hq & Hqp & Hqt)]; [by left|].
        apply elem_of_cons in Hq as [->|Hq]; [congruence|].
        right. exists q. done.
Qed.

(** After the pick-up, a type is active when it was before or when a
    power-up of that type lay under the head. *)
Lemma active_pick_up g h t :
  active (pick_up g h) t = true ↔
  active g t = true ∨ ∃ p, p ∈ powerups g ∧ pos p = h ∧ type p = t.
Proof. rewrite !active_true. unfold pick_up. simpl. apply collected_lookup. Qed.

(** *** Spawning at the end of the tick *)

Lemma sample_Done free rng c rng' :
  sample free rng = Done (c, rng') → free c = true ∧ in_grid c.
Proof. intros H. apply sample_loop_Done in H as (? & ? & _). done. Qed.

Lemma spawn_powerup_cases g rng g' rng' :
  spawn_powerup g rng = Done (g', rng') →
  ((2 ≤ length (powerups g))%nat ∧ g' = g ∧ rng' = rng)
  ∨ ((length (powerups g) < 2)%nat
     ∧ ∃ c t, field_free g c = true
              ∧ g' = with_powerups g (powerups g ++ [mkPowerUp t c 300])).
Proof.
  unfold spawn_powerup. intros H.
  destruct (length (powerups g) <? 2)%nat eqn:Hlen.
  - right. apply Nat.ltb_lt in Hlen. split; [done|].
    apply bind_Done in H as (c & rng1 & Hc & H).
    apply bind_Done in H as (t & rng2 & Ht & H).
    apply ret_Done in H as [-> ->].
    apply sample_Done in Hc as [Hc _]. eauto.
  - left. apply Nat.ltb_ge in Hlen. apply ret_Done in H as [-> ->]. done.
Qed.

Lemma spawn_powerups_cases g rng g' rng' :
  spawn_powerups g rng = Done (g', rng') →
  (powerup_spawn_counter g + 1 < FPS * 10
   ∧ g' = with_powerup_spawn_counter g (powerup_spawn_counter g + 1)
   ∧ rng' = rng)
  ∨ (FPS * 10 ≤ powerup_spawn_counter g + 1
     ∧ spawn_powerup (with_powerup_spawn_counter g 0) rng = Done (g', rng')).
Proof.
  unfold spawn_powerups. simpl. intros H.
  destruct (FPS * 10 <=? powerup_spawn_counter g + 1) eqn:Hc.
  - right. apply Z.leb_le in Hc. done.
  - left. apply Z.leb_gt in Hc. apply ret_Done in H as [-> ->]. done.
Qed.

Lemma spawn_obstacles_cases g rng g' rng' :
  spawn_obstacles g rng = Done (g', rng') →
  (g' = g ∧ rng' = rng)
  ∨ (mode g = SURVIVAL
     ∧ ∃ c, field_free g c = true
            ∧ g' = with_obstacles g (obstacles g ++ [mkObstacle c])).
Proof.
  unfold spawn_obstacles, spawn_obstacle. intros H.
  destruct (bool_decide (mode g = SURVIVAL) && _ && _) eqn:Hc.
  - destruct (Z.of_nat (length (obstacles g)) <? _).
    + right. apply andb_true_iff in Hc as [Hc _].
      apply andb_true_iff in Hc as [Hc _]. apply bool_decide_eq_true in Hc.
      split; [done|].
      apply bind_Done in H as (c & rng1 & Hs & H).
      apply ret_Done in H as [-> ->].
      apply sample_Done in Hs as [Hs _]. eauto.
    + left. by apply ret_Done in H as [-> ->].
  - left. by apply ret_Done in H as [-> ->].
Qed.

Lemma time_attack_cases g :
  (mode g ≠ TIME_ATTACK ∧ time_attack g = g)
  ∨ (mode g = TIME_ATTACK ∧ 1 < time_remaining g
     ∧ time_attack g = with_time_remaining g (time_remaining g - 1))
  ∨ (mode g = TIME_ATTACK ∧ time_remaining g ≤ 1
     ∧ time_attack g = game_over (with_time_remaining g (time_remaining g - 1))).
Proof.
  unfold time_attack. case_bool_decide as Hm; [|by left].
  right. simpl. destruct (time_remaining g - 1 <=? 0) eqn:Ht.
  - right. apply Z.leb_le in Ht. split_and!; [done|lia|done].
  - left. apply Z.leb_gt in Ht. split_and!; [done|lia|done].
Qed.

(** *** How the phases follow each other *)

Lemma update_playing g rng :
  playing (mode g) = true →
  update g rng =
    obind (frames_per_move (update_timers g)) (λ frames,
      if frames <=? move_counter g + 1
      then bind (move_tick (ticked g)) finish rng
      else end_of_tick (ticked g) rng).
Proof.
  intros Hp. unfold update. rewrite Hp. simpl.
  unfold bind at 1, lift.
  destruct (frames_per_move (update_timers g)) as [frames| |]; simpl; [|done..].
  fold (ticked g). destruct (frames <=? move_counter g + 1); [done|].
  unfold bind, ret. simpl. by destruct (end_of_tick (ticked g) rng) as [[]| |].
Qed.

Lemma update_idle g rng : playing (mode g) = false → update g rng = Done (g, rng).
Proof. intros Hp. unfold update. by rewrite Hp. Qed.

Lemma update_move_due g rng :
  playing (mode g) = true → move_due g →
  update g rng = bind (move_tick (ticked g)) finish rng.
Proof.
  intros Hp (frames & Hf & Hle). rewrite update_playing by done.
  rewrite Hf. simpl. by rewrite (proj2 (Z.leb_le _ _) Hle).
Qed.

Lemma update_not_due g rng frames :
  playing (mode g) = true →
  frames_per_move (update_timers g) = Done frames →
  move_counter g + 1 < frames →
  update g rng = end_of_tick (ticked g) rng.
Proof.
  intros Hp Hf Hlt. rewrite update_playing by done.
  rewrite Hf. simpl. by rewrite (proj2 (Z.leb_gt _ _) Hlt).
Qed.

Lemma update_cases g rng g' rng' :
  playing (mode g) = true →
  update g rng = Done (g', rng') →
  (∃ frames, frames_per_move (update_timers g) = Done frames
             ∧ move_counter g + 1 < frames
             ∧ end_of_tick (ticked g) rng = Done (g', rng'))
  ∨ (move_due g
     ∧ ∃ r rng1, move_tick (ticked g) rng = Done (r, rng1)
                 ∧ finish r rng1 = Done (g', rng')).
Proof.
  intros Hp. rewrite update_playing by done. intros H.
  apply obind_Done in H as (frames & Hf & H).
  destruct (frames <=? move_counter g + 1) eqn:Hle.
  - right. apply Z.leb_le in Hle. split; [by exists frames|].
    apply bind_Done in H as (r & rng1 & Hm & H). eauto.
  - left. apply Z.leb_gt in Hle. eauto.
Qed.

(** The move block, once the move itself went on. *)
Lemma after_move_cases has_ghost g rng r rng1 :
  after_move has_ghost g rng = Done (r, rng1) →
  (∃ g2, check_obstacles has_ghost g = Done (Return g2)
         ∧ r = Return g2 ∧ rng1 = rng)
  ∨ (∃ g2 g3 h, check_obstacles has_ghost g = Done (Go g2)
                ∧ check_food g2 rng = Done (g3, rng1)
                ∧ Snake.get_head (snake g3) = Done h
                ∧ r = Go (pick_up g3 h)).
Proof.
  unfold after_move. intros H.
  apply bind_Done in H as (r1 & rng2 & Ho & H).
  apply lift_Done in Ho as [Ho ->].
  destruct r1 as [g2|g2].
  - right. apply bind_Done in H as (g3 & rng3 & Hf & H).
    apply bind_Done in H as (g4 & rng4 & Hp & H).
    apply ret_Done in H as [-> ->]. apply lift_Done in Hp as [Hp ->].
    assert (∃ h, Snake.get_head (snake g3) = Done h) as [h Hh].
    { apply check_food_cases in Hf as [(h & Hh & _ & -> & _)|(Hh & c & _ & ->)];
        eauto. }
    rewrite (check_powerups_spec _ _ Hh) in Hp. injection Hp as <-.
    exists g2, g3, h. done.
  - left. apply ret_Done in H as [-> ->]. eauto.
Qed.

Lemma move_tick_cases g rng r rng1 :
  move_tick g rng = Done (r, rng1) →
  (∃ g2, move_snake (active g GHOST) (with_move_counter g 0) = Done (Return g2)
         ∧ r = Return g2 ∧ rng1 = rng)
  ∨ (∃ g2, move_snake (active g GHOST) (with_move_counter g 0) = Done (Go g2)
           ∧ after_move (active g GHOST) g2 rng = Done (r, rng1)).
Proof.
  unfold move_tick. intros H.
  apply bind_Done in H as (r1 & rng2 & Hm & H).
  apply lift_Done in Hm as [Hm ->].
  change (active (with_move_counter g 0) GHOST) with (active g GHOST) in *.
  destruct r1 as [g2|g2].
  - right. eauto.
  - left. apply ret_Done in H as [-> ->]. eauto.
Qed.

Lemma end_of_tick_cases g rng g' rng' :
  end_of_tick g rng = Done (g', rng') →
  ∃ g1 rng1 g2, spawn_powerups g rng = Done (g1, rng1)
                ∧ spawn_obstacles g1 rng1 = Done (g2, rng')
                ∧ g' = time_attack g2.
Proof.
  unfold end_of_tick. intros H.
  apply bind_Done in H as (g1 & rng1 & H1 & H).
  apply bind_Done in H as (g2 & rng2 & H2 & H).
  apply ret_Done in H as [-> ->]. eauto 6.
Qed.

End TickFacts.

(** ** Invariants of a run *)

Section Invariants.

Import Game.

Lemma settled_on_weaken cells cells' g :
  (∀ c, c ∈ cells' → c ∈ cells) → settled_on cells g → settled_on cells' g.
Proof. intros Hsub [Hp Hf]. split; [intros p Hin Hc|intros Hc]; naive_solver. Qed.

Lemma settled_behind_of g : settled g → settled_behind g.
Proof.
  apply settled_on_weaken. intros c Hc.
  destruct (body (snake g)); [done|]. by right.
Qed.

Lemma removelast_sublist {A} (l : list A) : removelast l `sublist_of` l.
Proof.
  induction l as [|x [|y l] IH]; [done| |].
  - by apply sublist_cons.
  - rewrite removelast_cons. by apply sublist_skip.
Qed.

Lemma step_cell_neq h d : Snake.step_cell h d ≠ h.
Proof.
  destruct h as [x y]. unfold Snake.step_cell.
  destruct d; simpl; intros [= ? ?]; lia.
Qed.

Lemma wrap_step_cell_neq h d : in_grid h → Snake.wrap (Snake.step_cell h d) ≠ h.
Proof.
  destruct h as [x y]. unfold in_grid, Snake.wrap, Snake.step_cell.
  change GRID_WIDTH with 40. change GRID_HEIGHT with 30.
  destruct d; simpl; intros [? ?] [= Hx Hy]; revert Hx Hy;
    Z.div_mod_to_equations; lia.
Qed.

Lemma new_head_neq has_ghost h d : in_grid h → new_head has_ghost h d ≠ h.
Proof.
  intros Hg. unfold new_head.
  destruct has_ghost; [by apply wrap_step_cell_neq|apply step_cell_neq].
Qed.

(** The body after a successful move. *)
Lemma move_to_body has_ghost g s :
  move_to has_ghost g s →
  ∃ h rest, body (snake g) = h :: rest
    ∧ direction s = direction (snake g)
    ∧ active_powerups s = active_powerups (snake g)
    ∧ in_grid (new_head has_ghost h (direction (snake g)))
    ∧ (new_head has_ghost h (direction (snake g)) ∉ rest)
    ∧ ∃ kept, body s = new_head has_ghost h (direction (snake g)) :: kept
              ∧ kept `sublist_of` body (snake g).
Proof.
  unfold move_to. intros Hm.
  destruct (move_done_head _ _ _ Hm) as [h Hh].
  pose proof Hh as Hb. apply get_head_body in Hb as [rest Hb].
  exists h, rest. split; [done|].
  rewrite (move_unfold _ _ _ Hh) in Hm.
  destruct (negb has_ghost && Snake.out_of_grid _) eqn:Hout; [discriminate|].
  injection Hm as Hm.
  apply advance_moved in Hm as (Hnot & Hd & Ha & Hbody); [|by rewrite Hb].
  rewrite Hb in Hnot. simpl in Hnot. split_and!; [done..| |done|].
  - unfold new_head in *. destruct has_ghost; [apply wrap_in_grid|].
    simpl in Hout. by apply out_of_grid_false.
  - destruct (0 <? grow_pending (snake g)); destruct Hbody as [-> _].
    + by exists (body (snake g)).
    + exists (removelast (body (snake g))). split; [done|].
      apply removelast_sublist.
Qed.

Lemma sound_game_over g : sound g → sound (game_over g).
Proof.
  intros []. unfold game_over, save_high_scores.
  destruct (_ <? _); simpl; [destruct (writable (disk g))|]; by constructor.
Qed.

Lemma playing_game_over g : playing (mode (game_over g)) = false.
Proof.
  unfold game_over, save_high_scores.
  destruct (_ <? _); simpl; [destruct (writable (disk g))|]; done.
Qed.

Lemma sound_ticked g : sound g → sound (ticked g).
Proof. intros []. by constructor. Qed.

Lemma sound_move_snake has_ghost g r :
  sound g → settled g →
  move_snake has_ghost g = Done r →
  match r with
  | Return g2 => sound g2 ∧ playing (mode g2) = false
  | Go g2 => sound g2 ∧ settled_behind g2 ∧ mode g2 = mode g
  end.
Proof.
  intros Hs Hset Hm.
  apply move_snake_cases in Hm as [(s & Hm & ->)|[(_ & _ & ->)|(_ & _ & ->)]].
  - apply move_to_body in Hm
      as (h & rest & Hb & _ & _ & Hgrid & Hnot & kept & Hs' & Hsub).
    destruct Hs as [? ? Hnd Hg ?]. split_and!; [constructor; simpl; try done| |done].
    + rewrite Hs'. apply NoDup_cons. split.
      * intros Hin. apply (elem_of_sublist _ _ _ Hin) in Hsub.
        rewrite Hb in Hsub, Hg. apply elem_of_cons in Hsub as [Heq|?]; [|done].
        apply Forall_cons in Hg as [Hh _].
        by apply (new_head_neq has_ghost h (direction (snake g))) in Hh.
      * by eapply sublist_NoDup.
    + rewrite Hs'. apply Forall_cons. split; [done|].
      apply Forall_forall. intros c Hc.
      apply (elem_of_sublist _ _ _ Hc) in Hsub.
      by eapply Forall_forall in Hg.
    + by rewrite Hs'.
    + unfold settled_behind. simpl. rewrite Hs'. simpl.
      eapply settled_on_weaken; [|exact Hset].
      intros c Hc. by eapply elem_of_sublist.
  - split_and!; [by destruct Hs; constructor| |done].
    by apply settled_behind_of in Hset.
  - split; [by apply sound_game_over|apply playing_game_over].
Qed.

Lemma sound_check_obstacles has_ghost g r :
  sound g → settled_behind g →
  check_obstacles has_ghost g = Done r →
  match r with
  | Return g2 => sound g2 ∧ playing (mode g2) = false
  | Go g2 => sound g2 ∧ settled_behind g2 ∧ mode g2 = mode g
             ∧ body (snake g2) = body (snake g)
  end.
Proof.
  intros Hs Hset Ho.
  apply check_obstacles_cases in Ho
    as [(_ & ->)|[(h & _ & _ & ->)|(h & _ & _ & ->)]].
  - done.
  - split_and!; [|done..].
    destruct Hs as [? ? ? ? Hob]. constructor; simpl; try done.
    intros p Hp Hin. apply (Hob p Hp).
    apply list_elem_of_fmap in Hin as (o & -> & Ho).
    apply list_elem_of_filter in Ho as [_ Ho]. by apply list_elem_of_fmap_2.
  - split; [by apply sound_game_over|apply playing_game_over].
Qed.

Lemma sound_check_food g rng g3 rng1 :
  sound g → settled_behind g →
  check_food g rng = Done (g3, rng1) →
  sound g3 ∧ settled_behind g3 ∧ (food_pos g3 ∉ body (snake g3))
  ∧ mode g3 = mode g ∧ body (snake g3) = body (snake g)
  ∧ powerups g3 = powerups g.
Proof.
  intros Hs Hset Hf.
  apply check_food_cases in Hf as [(h & Hh & Hne & -> & ->)|(Hh & c & Hc & ->)].
  - split_and!; try done.
    apply get_head_body in Hh as [rest Hb]. destruct Hset as [_ Hfood].
    rewrite Hb in *. simpl in Hfood. intros [?|?]%elem_of_cons; done.
  - apply spawn_food_Done in Hc as (Hc & _ & _).
    simpl in Hc. split_and!; try done.
    + by destruct Hs; constructor.
    + destruct Hset as [Hp _]. split; [done|]. simpl.
      intros Hin. apply Hc.
      destruct (body (snake g)); [done|]. by right.
Qed.

Lemma sound_pick_up g h :
  sound g → settled_behind g → food_pos g ∉ body (snake g) →
  Snake.get_head (snake g) = Done h →
  sound (pick_up g h) ∧ settled (pick_up g h)
  ∧ mode (pick_up g h) = mode g.
Proof.
  intros [? Hc ? ? Hob] [Hp _] Hfood Hh. split_and!; [constructor; simpl; try done| |done].
  - etrans; [apply length_filter|done].
  - intros p Hin. apply list_elem_of_filter in Hin as [_ Hin]. by apply Hob.
  - split; [|done]. simpl. intros p Hin.
    apply list_elem_of_filter in Hin as [Hne Hin].
    apply get_head_body in Hh as [rest Hb]. specialize (Hp p Hin).
    rewrite Hb in *. simpl in Hp. intros [?|?]%elem_of_cons; done.
Qed.

Lemma sound_after_move has_ghost g rng r rng1 :
  sound g → settled_behind g →
  after_move has_ghost g rng = Done (r, rng1) →
  match r with
  | Return g2 => sound g2 ∧ playing (mode g2) = false
  | Go g2 => sound g2 ∧ settled g2 ∧ mode g2 = mode g
  end.
Proof.
  intros Hs Hset H.
  apply after_move_cases in H
    as [(g2 & Ho & -> & _)|(g2 & g3 & h & Ho & Hf & Hh & ->)].
  - by apply (sound_check_obstacles _ _ _ Hs Hset) in Ho.
  - apply (sound_check_obstacles _ _ _ Hs Hset) in Ho as (Hs2 & Hset2 & Hm2 & _).
    apply (sound_check_food _ _ _ _ Hs2 Hset2) in Hf
      as (Hs3 & Hset3 & Hfood & Hm3 & _ & _).
    destruct (sound_pick_up g3 h) as (? & ? & Hm4); [done..|].
    split_and!; [done..|]. congruence.
Qed.

Lemma sound_move_tick g rng r rng1 :
  sound g → settled g →
  move_tick g rng = Done (r, rng1) →
  match r with
  | Return g2 => sound g2 ∧ playing (mode g2) = false
  | Go g2 => sound g2 ∧ settled g2 ∧ mode g2 = mode g
  end.
Proof.
  intros Hs Hset H.
  assert (Hs0 : sound (with_move_counter g 0)) by (by destruct Hs; constructor).
  assert (Hset0 : settled (with_move_counter g 0)) by done.
  apply move_tick_cases in H as [(g2 & Hm & -> & _)|(g2 & Hm & Ha)].
  - by apply (sound_move_snake _ _ _ Hs0 Hset0) in Hm.
  - apply (sound_move_snake _ _ _ Hs0 Hset0) in Hm as (Hs2 & Hset2 & Hm2).
    apply (sound_after_move _ _ _ _ _ Hs2 Hset2) in Ha.
    destruct r; [|done]. destruct Ha as (? & ? & ->). done.
Qed.

Lemma sound_spawn_powerup g rng g' rng' :
  sound g → settled g →
  spawn_powerup g rng = Done (g', rng') →
  sound g' ∧ settled g' ∧ mode g' = mode g.
Proof.
  intros Hs Hset H.
  apply spawn_powerup_cases in H as [(_ & -> & _)|(Hlen & c & t & Hc & ->)];
    [done|].
  apply field_free_true in Hc as (Hb & Hf & Hp & Ho).
  destruct Hs as [? ? ? ? Hob]. destruct Hset as [Hsp Hsf].
  split_and!; [constructor; simpl; try done|split; [|done]|done].
  - rewrite length_app. simpl. lia.
  - intros p [Hin|Hin%list_elem_of_singleton]%elem_of_app; [by apply Hob|].
    by subst.
  - simpl. intros p [Hin|Hin%list_elem_of_singleton]%elem_of_app;
      [by apply Hsp|]. by subst.
Qed.

Lemma sound_spawn_powerups g rng g' rng' :
  sound g → settled g →
  spawn_powerups g rng = Done (g', rng') →
  sound g' ∧ settled g' ∧ mode g' = mode g.
Proof.
  intros Hs Hset H.
  apply spawn_powerups_cases in H as [(_ & -> & _)|(_ & H)].
  - split_and!; [by destruct Hs; constructor|done..].
  - apply sound_spawn_powerup in H; [done| |done].
    by destruct Hs; constructor.
Qed.

Lemma sound_spawn_obstacles g rng g' rng' :
  sound g → settled g →
  spawn_obstacles g rng = Done (g', rng') →
  sound g' ∧ settled g' ∧ mode g' = mode g.
Proof.
  intros Hs Hset H.
  apply spawn_obstacles_cases in H as [(-> & _)|(_ & c & Hc & ->)]; [done|].
  apply field_free_true in Hc as (Hb & Hf & Hp & Ho).
  destruct Hs as [? ? ? ? Hob].
  split_and!; [constructor; simpl; try done|done..].
  intros p Hin. rewrite fmap_app.
  intros [?|Heq%list_elem_of_singleton]%elem_of_app; [by eapply Hob|].
  apply Hp. simpl in Heq. rewrite <- Heq. by apply list_elem_of_fmap_2.
Qed.

Lemma sound_time_attack g :
  sound g → settled g →
  sound (time_attack g)
  ∧ (playing (mode (time_attack g)) = true → settled (time_attack g)).
Proof.
  intros Hs Hset.
  destruct (time_attack_cases g) as [(_ & ->)|[(_ & _ & ->)|(_ & _ & ->)]].
  - done.
  - split; [by destruct Hs; constructor|done].
  - split.
    + apply sound_game_over. by destruct Hs; constructor.
    + by rewrite playing_game_over.
Qed.

Lemma sound_end_of_tick g rng g' rng' :
  sound g → settled g →
  end_of_tick g rng = Done (g', rng') →
  sound g' ∧ (playing (mode g') = true → settled g').
Proof.
  intros Hs Hset H.
  apply end_of_tick_cases in H as (g1 & rng1 & g2 & H1 & H2 & ->).
  apply sound_spawn_powerups in H1 as (Hs1 & Hset1 & _); [|done..].
  apply sound_spawn_obstacles in H2 as (Hs2 & Hset2 & _); [|done..].
  by apply sound_time_attack.
Qed.

(** A tick keeps the invariants. *)
Lemma sound_update g rng g' rng' :
  sound g → (playing (mode g) = true → settled g) →
  update g rng = Done (g', rng') →
  sound g' ∧ (playing (mode g') = true → settled g').
Proof.
  intros Hs Hset H. destruct (playing (mode g)) eqn:Hp.
  2:{ rewrite update_idle in H by done. injection H as <- _.
      split; [done|]. by rewrite Hp. }
  specialize (Hset eq_refl).
  apply update_cases in H; [|done].
  destruct H as [(frames & _ & _ & H)|(_ & r & rng1 & Hm & H)].
  - apply sound_end_of_tick in H; [done|by apply sound_ticked|done].
  - apply sound_move_tick in Hm; [|by apply sound_ticked|done].
    destruct r as [g2|g2]; simpl in H.
    + destruct Hm as (? & ? & _). by apply sound_end_of_tick in H.
    + apply ret_Done in H as [-> ->]. destruct Hm as [? Hpl].
      split; [done|]. by rewrite Hpl.
Qed.

(** *** Input keeps the invariants *)

Lemma reset_in_grid : Forall in_grid (body Snake.reset).
Proof. repeat constructor; simpl; done. Qed.

Lemma reset_nodup : NoDup (body Snake.reset).
Proof. apply (bool_decide_unpack _). by vm_compute. Qed.

Lemma sound_reset_game g rng g' rng' :
  reset_game g rng = Done (g', rng') →
  sound g' ∧ settled g' ∧ mode g' = mode g ∧ last_mode g' = last_mode g.
Proof.
  unfold reset_game. intros H.
  apply bind_Done in H as (c & rng1 & Hc & H). apply ret_Done in H as [-> ->].
  apply spawn_food_Done in Hc as (Hc & _ & _).
  split_and!; [constructor; simpl| |done..].
  - done.
  - lia.
  - apply reset_nodup.
  - apply reset_in_grid.
  - intros p Hp. by apply elem_of_nil in Hp.
  - done.
  - split; [|done]. intros p Hp. by apply elem_of_nil in Hp.
Qed.

Lemma sound_with_mode g m :
  sound g → sound (with_mode g m).
Proof. intros []. by constructor. Qed.

Lemma set_direction_body s d s' :
  Snake.set_direction s d = Done s' →
  body s' = body s ∧ active_powerups s' = active_powerups s
  ∧ grow_pending s' = grow_pending s.
Proof.
  unfold Snake.set_direction. intros H.
  apply obind_Done in H as (h & _ & H).
  destruct (1 <? length (body s))%nat.
  - destruct (body s !! 1%nat); [|discriminate].
    case_bool_decide; by injection H as <-.
  - by injection H as <-.
Qed.

Lemma sound_handle_key g key rng g' rng' :
  sound g → (playing (mode g) = true → settled g) →
  handle_key g key rng = Done (Some g', rng') →
  sound g' ∧ (playing (mode g') = true → settled g').
Proof.
  intros Hs Hset H.
  assert (Hstart : ∀ m, start g m rng = Done (Some g', rng') →
            sound g' ∧ (playing (mode g') = true → settled g')).
  { intros m Hst. unfold start in Hst.
    apply bind_Done in Hst as (g1 & rng1 & Hr & Hst).
    apply ret_Done in Hst as [[= ->] ->].
    apply sound_reset_game in Hr as (? & ? & _). done. }
  assert (Hturn : ∀ d, playing (mode g) = true →
            turn g d rng = Done (Some g', rng') →
            sound g' ∧ (playing (mode g') = true → settled g')).
  { intros d Hp Ht. unfold turn in Ht.
    apply bind_Done in Ht as (s & rng1 & Hd & Ht).
    apply ret_Done in Ht as [[= ->] ->]. apply lift_Done in Hd as [Hd _].
    apply set_direction_body in Hd as (Hb & _ & _).
    destruct Hs as [? ? ? ? ?]. destruct (Hset Hp) as [? ?].
    split; [constructor; simpl; by rewrite ?Hb|].
    intros _. split; simpl; by rewrite Hb. }
  assert (Hsame : ret (Some g) rng = Done (Some g', rng') →
            sound g' ∧ (playing (mode g') = true → settled g')).
  { intros Hr. apply ret_Done in Hr as [[= ->] _]. done. }
  assert (Hmenu : ret (Some (with_mode g MENU)) rng = Done (Some g', rng') →
            sound g' ∧ (playing (mode g') = true → settled g')).
  { intros Hr. apply ret_Done in Hr as [[= ->] _].
    split; [by apply sound_with_mode|done]. }
  unfold handle_key in H.
  destruct (mode g) eqn:Hm; destruct key; simpl in H;
    try (by apply Hsame); try (by eapply Hstart); try (by apply Hmenu);
    try (by eapply Hturn); try (by apply ret_Done in H as [[=] _]).
  apply bind_Done in H as (g1 & rng1 & Hr & H).
  apply sound_reset_game in Hr as (Hs1 & Hset1 & _ & _).
  destruct (last_mode g1); [|by apply lift_Done in H as [[=] _]].
  apply ret_Done in H as [[= ->] _].
  split; [by apply sound_with_mode|done].
Qed.

Lemma sound_handle_events events : ∀ g rng running g' rng',
  sound g → (playing (mode g) = true → settled g) →
  handle_events events g rng = Done (running, g', rng') →
  sound g' ∧ (playing (mode g') = true → settled g').
Proof.
  induction events as [|e events IH]; intros g rng running g' rng' Hs Hset H.
  - apply ret_Done in H as [[= -> ->] _]. done.
  - destruct e as [|key|]; simpl in H.
    + apply ret_Done in H as [[= -> ->] _]. done.
    + apply bind_Done in H as (r & rng1 & Hk & H). destruct r as [g1|].
      * apply (sound_handle_key _ _ _ _ _ Hs Hset) in Hk as [? ?]. eauto.
      * apply ret_Done in H as [[= -> ->] _]. done.
    + eauto.
Qed.

Lemma sound_init d rng g rng' :
  init d rng = Done (g, rng') → sound g ∧ playing (mode g) = false.
Proof.
  unfold init. intros H.
  apply bind_Done in H as (g1 & rng1 & Hr & H). apply ret_Done in H as [-> ->].
  apply sound_reset_game in Hr as ([] & _ & Hm & _). simpl in Hm.
  split; [by constructor|]. simpl. by rewrite Hm.
Qed.

(** Every state of a run is sound, and in a round nothing lies under the
    snake between two ticks. *)
Lemma reachable_sound g :
  reachable g → sound g ∧ (playing (mode g) = true → settled g).
Proof.
  induction 1 as [d rng g rng' Hi|g events rng running g' rng' _ [Hs Hset] He
                  |g rng g' rng' _ [Hs Hset] Hu].
  - apply sound_init in Hi as [? Hp]. split; [done|]. by rewrite Hp.
  - by eapply sound_handle_events.
  - by eapply sound_update.
Qed.

End Invariants.

(** ** What the phases leave alone *)

Section Frames.

Import Game.

Lemma game_over_frame g :
  snake (game_over g) = snake g
  ∧ powerups (game_over g) = powerups g
  ∧ obstacles (game_over g) = obstacles g
  ∧ move_counter (game_over g) = move_counter g
  ∧ powerup_spawn_counter (game_over g) = powerup_spawn_counter g
  ∧ food_pos (game_over g) = food_pos g.
Proof.
  unfold game_over, save_high_scores.
  destruct (_ <? _); simpl; [destruct (writable (disk g))|]; done.
Qed.

Lemma same_track_trans g1 g2 g3 :
  same_track g1 g2 → same_track g2 g3 → same_track g1 g3.
Proof. unfold same_track. intros (? & ? & ?) (? & ? & ?). split_and!; congruence. Qed.

Lemma same_track_game_over g : same_track g (game_over g).
Proof.
  destruct (game_over_frame g) as (Hs & _ & _ & Hc & _).
  unfold same_track. by rewrite Hs, Hc.
Qed.

Lemma after_move_track has_ghost g rng r rng1 :
  after_move has_ghost g rng = Done (r, rng1) → same_track g (flow_game r).
Proof.
  intros H.
  apply after_move_cases in H
    as [(g2 & Ho & -> & _)|(g2 & g3 & h & Ho & Hf & Hh & ->)]; simpl.
  - apply check_obstacles_cases in Ho
      as [(_ & [=])|[(? & _ & _ & [=])|(? & _ & _ & [= ->])]].
    apply same_track_game_over.
  - assert (same_track g g2) as H2.
    { apply check_obstacles_cases in Ho
        as [(_ & [= ->])|[(? & _ & _ & [= ->])|(? & _ & _ & [=])]]; done. }
    assert (same_track g2 g3) as H3.
    { apply check_food_cases in Hf as [(? & _ & _ & -> & _)|(_ & c & _ & ->)];
        done. }
    eapply same_track_trans; [exact H2|].
    eapply same_track_trans; [exact H3|]. done.
Qed.

Lemma end_of_tick_track g rng g' rng' :
  end_of_tick g rng = Done (g', rng') →
  same_track g g' ∧ active_powerups (snake g') = active_powerups (snake g).
Proof.
  intros H. apply end_of_tick_cases in H as (g1 & rng1 & g2 & H1 & H2 & ->).
  assert (same_track g g1 ∧ active_powerups (snake g1) = active_powerups (snake g))
    as [T1 A1].
  { apply spawn_powerups_cases in H1 as [(_ & -> & _)|(_ & H1)]; [done|].
    apply spawn_powerup_cases in H1 as [(_ & -> & _)|(_ & c & t & _ & ->)]; done. }
  assert (same_track g1 g2 ∧ active_powerups (snake g2) = active_powerups (snake g1))
    as [T2 A2].
  { apply spawn_obstacles_cases in H2 as [(-> & _)|(_ & c & _ & ->)]; done. }
  assert (same_track g2 (time_attack g2)
          ∧ active_powerups (snake (time_attack g2)) = active_powerups (snake g2))
    as [T3 A3].
  { destruct (time_attack_cases g2) as [(_ & ->)|[(_ & _ & ->)|(_ & _ & ->)]];
      [done..|].
    split; [apply (same_track_game_over (with_time_remaining g2 _))|].
    pose proof (game_over_frame (with_time_remaining g2 (time_remaining g2 - 1)))
      as (Hs & _).
    by rewrite Hs. }
  split; [|congruence].
  eapply same_track_trans; [exact T1|]. eapply same_track_trans; [exact T2|]. done.
Qed.

(** The power-ups on the field through the move block: some are picked
    up, none is added, and the spawn counter stands. *)
Lemma move_tick_powerups g rng r rng1 :
  move_tick g rng = Done (r, rng1) →
  powerups (flow_game r) `sublist_of` powerups g
  ∧ powerup_spawn_counter (flow_game r) = powerup_spawn_counter g.
Proof.
  intros H.
  assert (Hmove : ∀ r1, move_snake (active g GHOST) (with_move_counter g 0) = Done r1 →
            powerups (flow_game r1) = powerups g
            ∧ powerup_spawn_counter (flow_game r1) = powerup_spawn_counter g).
  { intros r1 Hm.
    apply move_snake_cases in Hm as [(s & _ & ->)|[(_ & _ & ->)|(_ & _ & ->)]];
      simpl; [done..|].
    pose proof (game_over_frame (with_move_counter g 0))
      as (_ & Hp & _ & _ & Hc & _).
    by rewrite Hp, Hc. }
  assert (Hobs : ∀ g1 r1, check_obstacles (active g GHOST) g1 = Done r1 →
            powerups (flow_game r1) = powerups g1
            ∧ powerup_spawn_counter (flow_game r1) = powerup_spawn_counter g1).
  { intros g1 r1 Ho.
    apply check_obstacles_cases in Ho
      as [(_ & ->)|[(? & _ & _ & ->)|(? & _ & _ & ->)]]; simpl; [done..|].
    pose proof (game_over_frame g1) as (_ & Hp & _ & _ & Hc & _).
    by rewrite Hp, Hc. }
  apply move_tick_cases in H as [(g2 & Hm & -> & _)|(g2 & Hm & Ha)].
  - apply Hmove in Hm as [-> ->]. done.
  - apply Hmove in Hm as [Hp1 Hc1]. simpl in Hp1, Hc1.
    apply after_move_cases in Ha
      as [(g3 & Ho & -> & _)|(g3 & g4 & h & Ho & Hf & Hh & ->)].
    + apply Hobs in Ho as [-> ->]. by rewrite Hp1, Hc1.
    + apply Hobs in Ho as [Hp3 Hc3]. simpl in Hp3, Hc3.
      assert (powerups g4 = powerups g3
              ∧ powerup_spawn_counter g4 = powerup_spawn_counter g3) as [Hp4 Hc4].
      { apply check_food_cases in Hf as [(? & _ & _ & -> & _)|(_ & c & _ & ->)];
          done. }
      simpl. rewrite Hp4, Hp3, Hp1, Hc4, Hc3, Hc1. split; [|done].
      apply sublist_filter.
Qed.

End Frames.

(** ** Power-ups on the field *)

Section PowerUpFacts.

Import Game.

Lemma spawn_powerups_gates g rng g' rng' :
  spawn_powerups g rng = Done (g', rng') →
  (FPS * 10 ≤ powerup_spawn_counter g + 1 ∧ (length (powerups g) < 2)%nat
   ∧ powerup_spawn_counter g' = 0
   ∧ ∃ p, powerups g' = powerups g ++ [p] ∧ duration p = 300
          ∧ field_free g (pos p) = true)
  ∨ (FPS * 10 ≤ powerup_spawn_counter g + 1 ∧ (2 ≤ length (powerups g))%nat
     ∧ powerup_spawn_counter g' = 0 ∧ powerups g' = powerups g)
  ∨ (powerup_spawn_counter g + 1 < FPS * 10
     ∧ powerup_spawn_counter g' = powerup_spawn_counter g + 1
     ∧ powerups g' = powerups g).
Proof.
  intros H. apply spawn_powerups_cases in H as [(Hc & -> & _)|(Hc & H)].
  - right. right. done.
  - apply spawn_powerup_cases in H as [(Hlen & -> & _)|(Hlen & c & t & Hf & ->)].
    + right. left. done.
    + left. split_and!; [done..|]. by exists (mkPowerUp t c 300).
Qed.

Lemma end_of_tick_powerups g rng g' rng' :
  end_of_tick g rng = Done (g', rng') →
  powerups g' = powerups g
  ∨ ∃ p, powerups g' = powerups g ++ [p]
         ∧ FPS * 10 ≤ powerup_spawn_counter g + 1
         ∧ (length (powerups g) < 2)%nat.
Proof.
  intros H. apply end_of_tick_cases in H as (g1 & rng1 & g2 & H1 & H2 & ->).
  assert (powerups (time_attack g2) = powerups g1) as ->.
  { assert (powerups g2 = powerups g1) as <-.
    { apply spawn_obstacles_cases in H2 as [(-> & _)|(_ & c & _ & ->)]; done. }
    destruct (time_attack_cases g2) as [(_ & ->)|[(_ & _ & ->)|(_ & _ & ->)]];
      [done..|].
    pose proof (game_over_frame (with_time_remaining g2 (time_remaining g2 - 1)))
      as (_ & Hp & _). by rewrite Hp. }
  apply spawn_powerups_gates in H1
    as [(? & ? & _ & p & -> & _)|[(_ & _ & _ & ->)|(_ & _ & ->)]]; eauto.
Qed.

(** C9. A power-up is added to the field only at a tick on which both
    gates hold: the spawn counter has just reached ten seconds of frames
    ([FPS * 10]), and fewer than 2 power-ups are on the field then. The
    gates are separate: a counter that fires is reset to zero whether or
    not there is room, and room alone adds nothing. Over a whole tick the
    power-ups are those left after the pick-up plus at most one new one
    under both gates; and no state of a run has more than 2 power-ups on
    the field. *)
Theorem powerup_spawn_gates :
  (∀ g rng g' rng', spawn_powerups g rng = Done (g', rng') →
     (powerups g' = powerups g
      ∨ ∃ p, powerups g' = powerups g ++ [p]
             ∧ FPS * 10 ≤ powerup_spawn_counter g + 1
             ∧ (length (powerups g) < 2)%nat)
     ∧ (FPS * 10 ≤ powerup_spawn_counter g + 1 →
          powerup_spawn_counter g' = 0
          ∧ ((2 ≤ length (powerups g))%nat → powerups g' = powerups g)
          ∧ ((length (powerups g) < 2)%nat →
               ∃ p, powerups g' = powerups g ++ [p]))
     ∧ (powerup_spawn_counter g + 1 < FPS * 10 →
          powerup_spawn_counter g' = powerup_spawn_counter g + 1
          ∧ powerups g' = powerups g))
  ∧ (∀ g rng g' rng', playing (mode g) = true →
       update g rng = Done (g', rng') →
       ∃ kept, kept `sublist_of` powerups g
         ∧ (powerups g' = kept
            ∨ ∃ p, powerups g' = kept ++ [p]
                   ∧ FPS * 10 ≤ powerup_spawn_counter g + 1
                   ∧ (length kept < 2)%nat))
  ∧ (∀ g, reachable g → (length (powerups g) ≤ 2)%nat).
Proof.
  split_and!.
  - intros g rng g' rng' H.
    apply spawn_powerups_gates in H
      as [(Hc & Hl & Hz & p & Hp & _)|[(Hc & Hl & Hz & Hp)|(Hc & Hz & Hp)]].
    + split_and!; [right; eauto| |lia].
      intros _. split_and!; [done|lia|eauto].
    + split_and!; [by left| |lia].
      intros _. split_and!; [done..|lia].
    + split_and!; [by left|lia|done].
  - intros g rng g' rng' Hp H. apply update_cases in H; [|done].
    destruct H as [(frames & _ & _ & H)|(_ & r & rng1 & Hm & H)].
    + exists (powerups g). split; [done|].
      by apply end_of_tick_powerups in H.
    + apply move_tick_powerups in Hm as [Hsub Hc].
      exists (powerups (flow_game r)). split; [done|].
      destruct r as [g2|g2]; simpl in *.
      * apply end_of_tick_powerups in H. by rewrite Hc in H.
      * apply ret_Done in H as [-> _]. by left.
  - intros g Hr. by apply reachable_sound in Hr as [[] _].
Qed.

End PowerUpFacts.

(** ** The Shield *)

Section ShieldFacts.

Import Game.

Lemma end_of_tick_snake g rng g' rng' :
  end_of_tick g rng = Done (g', rng') →
  snake g' = snake g
  ∧ (mode g' = mode g
     ∨ mode g' = GAME_OVER ∧ mode g = TIME_ATTACK ∧ time_remaining g ≤ 1).
Proof.
  intros H. apply end_of_tick_cases in H as (g1 & rng1 & g2 & H1 & H2 & ->).
  assert (snake g1 = snake g ∧ mode g1 = mode g
          ∧ time_remaining g1 = time_remaining g) as (S1 & M1 & T1).
  { apply spawn_powerups_cases in H1 as [(_ & -> & _)|(_ & H1)]; [done|].
    apply spawn_powerup_cases in H1 as [(_ & -> & _)|(_ & c & t & _ & ->)]; done. }
  assert (snake g2 = snake g1 ∧ mode g2 = mode g1
          ∧ time_remaining g2 = time_remaining g1) as (S2 & M2 & T2).
  { apply spawn_obstacles_cases in H2 as [(-> & _)|(_ & c & _ & ->)]; done. }
  destruct (time_attack_cases g2) as [(_ & ->)|[(_ & _ & ->)|(Hm & Ht & ->)]].
  - split; [congruence|left; congruence].
  - simpl. split; [congruence|left; congruence].
  - pose proof (game_over_frame (with_time_remaining g2 (time_remaining g2 - 1)))
      as (Hs & _).
    pose proof (mode_game_over (with_time_remaining g2 (time_remaining g2 - 1)))
      as Hmode.
    rewrite Hs. simpl. split; [congruence|].
    right. split_and!; [done|congruence|lia].
Qed.

Lemma check_food_frame g rng g3 rng1 :
  check_food g rng = Done (g3, rng1) →
  active_powerups (snake g3) = active_powerups (snake g)
  ∧ body (snake g3) = body (snake g)
  ∧ direction (snake g3) = direction (snake g)
  ∧ powerups g3 = powerups g
  ∧ obstacles g3 = obstacles g
  ∧ mode g3 = mode g
  ∧ time_remaining g3 = time_remaining g
  ∧ (food_pos g ∉ body (snake g) → g3 = g ∧ rng1 = rng).
Proof.
  intros H.
  apply check_food_cases in H as [(h & _ & _ & -> & ->)|(Hh & c & _ & ->)].
  - done.
  - split_and!; try done. intros Hn. exfalso. apply Hn.
    apply get_head_body in Hh as [rest ->]. by left.
Qed.

Lemma get_head_same s s' : body s' = body s → Snake.get_head s' = Snake.get_head s.
Proof. unfold Snake.get_head. by intros ->. Qed.

Lemma active_same g g' t :
  active_powerups (snake g') = active_powerups (snake g) → active g' t = active g t.
Proof. unfold active. by intros ->. Qed.

(** A tick that starts without Shield ends with it only by a pick-up. *)
Lemma shield_needs_pickup g rng g' rng' :
  update g rng = Done (g', rng') →
  active g SHIELD = false → active g' SHIELD = true →
  ∃ p, p ∈ powerups g ∧ type p = SHIELD
       ∧ Snake.get_head (snake g') = Done (pos p).
Proof.
  intros H Hno Hyes. destruct (playing (mode g)) eqn:Hp.
  2:{ rewrite update_idle in H by done. injection H as <- _. congruence. }
  assert (Hno0 : active (update_timers g) SHIELD = false).
  { destruct (active (update_timers g) SHIELD) eqn:Ha; [|done].
    apply (active_update_timers g) in Ha. congruence. }
  apply update_cases in H; [|done].
  destruct H as [(frames & _ & _ & H)|(_ & r & rng1 & Hm & H)].
  - apply end_of_tick_snake in H as [Hs _].
    rewrite (active_same (ticked g) g') in Hyes by (by rewrite Hs).
    change (active (update_timers g) SHIELD = true) in Hyes. congruence.
  - assert (Hend : ∀ g2, finish (Go g2) rng1 = Done (g', rng') ∨ g' = g2 →
              active g2 SHIELD = false → False).
    { intros g2 [Hf| ->] Hn; [|congruence]. apply end_of_tick_snake in Hf as [Hs _].
      rewrite (active_same g2 g') in Hyes by (by rewrite Hs). congruence. }
    apply move_tick_cases in Hm as [(g2 & Hm & -> & ->)|(g2 & Hm & Ha)].
    + apply ret_Done in H as [-> _].
      apply move_snake_cases in Hm as [(? & _ & [=])|[(_ & _ & [=])|(_ & _ & [= ->])]].
      exfalso. apply (Hend (game_over (at_move g))); [by right|].
      pose proof (game_over_frame (at_move g)) as (Hs & _).
      rewrite <- Hno0. apply (active_same (at_move g)). by rewrite Hs.
    + assert (active g2 SHIELD = false ∧ powerups g2 = powerups g) as [Hn2 Hp2].
      { apply move_snake_cases in Hm as [(s & Hs & [= ->])|[(_ & _ & [= ->])|(_ & _ & [=])]].
        - apply move_to_body in Hs as (_ & _ & _ & _ & Hact & _).
          split; [|done]. rewrite <- Hno0.
          apply (active_same (at_move g)). exact Hact.
        - split; [|done]. rewrite active_drop_shield. by rewrite decide_True. }
      apply after_move_cases in Ha
        as [(g3 & Ho & -> & ->)|(g3 & g4 & h & Ho & Hf & Hh & ->)].
      * apply ret_Done in H as [-> _].
        apply check_obstacles_cases in Ho
          as [(_ & [=])|[(? & _ & _ & [=])|(? & _ & _ & [= ->])]].
        exfalso. apply (Hend (game_over g2)); [by right|].
        pose proof (game_over_frame g2) as (Hs & _).
        rewrite <- Hn2. apply active_same. by rewrite Hs.
      * assert (active g3 SHIELD = false ∧ powerups g3 = powerups g2) as [Hn3 Hp3].
        { apply check_obstacles_cases in Ho
            as [(_ & [= ->])|[(? & _ & _ & [= ->])|(? & _ & _ & [=])]]; [done|].
          split; [|done].
          change (active (drop_shield g2) SHIELD = false).
          rewrite active_drop_shield. by rewrite decide_True. }
        apply check_food_frame in Hf as (Ha4 & Hb4 & _ & Hp4 & _).
        simpl in H. apply end_of_tick_snake in H as [Hs _].
        rewrite (active_same (pick_up g4 h) g') in Hyes by (by rewrite Hs).
        apply active_pick_up in Hyes as [Hy|(p & Hin & Hpos & Hty)].
        -- rewrite (active_same g3 g4) in Hy by done. congruence.
        -- exists p. split_and!; [congruence|done|].
           rewrite Hs. simpl. rewrite Hpos.
           change (Snake.get_head (snake g4) = Done h). done.
Qed.

(** The end of a move tick once the obstacle check went on without
    Shield in the timers and with no power-up under the head. *)
Lemma tick_tail_without_shield g3 rng g4 rng1 h g' rng' :
  check_food g3 rng = Done (g4, rng1) →
  Snake.get_head (snake g4) = Done h →
  end_of_tick (pick_up g4 h) rng1 = Done (g', rng') →
  active g3 SHIELD = false →
  (∀ p, p ∈ powerups g3 → pos p ≠ h) →
  active g' SHIELD = false
  ∧ (mode g' = mode g3
     ∨ mode g' = GAME_OVER ∧ mode g3 = TIME_ATTACK ∧ time_remaining g3 ≤ 1).
Proof.
  intros Hf Hh He Hno Hfree.
  apply check_food_frame in Hf as (Ha4 & _ & _ & Hp4 & _ & Hm4 & Ht4 & _).
  apply end_of_tick_snake in He as [Hs Hm]. simpl in Hm.
  rewrite Hm4, Ht4 in Hm. split; [|done].
  rewrite (active_same (pick_up g4 h) g') by (by rewrite Hs).
  destruct (active (pick_up g4 h) SHIELD) eqn:Hy; [|done].
  apply active_pick_up in Hy as [Hy|(p & Hin & Hpos & _)].
  - rewrite (active_same g3 g4) in Hy by done. congruence.
  - rewrite Hp4 in Hin. by apply Hfree in Hin.
Qed.

(** The tick in which Shield absorbs a collision ends without Shield. A
    game over in that same tick comes only from a second collision (the
    unmoved head lies on an obstacle) or from the clock of Time Attack. *)
Lemma absorbing_tick g rng g' rng' :
  sound g → settled g → fatal_collision g → shielded g →
  update g rng = Done (g', rng') →
  active g' SHIELD = false
  ∧ (mode g' = GAME_OVER →
       wall_or_self_collision g ∧ obstacle_collision g
       ∨ mode g = TIME_ATTACK ∧ time_remaining g ≤ 1).
Proof.
  intros Hs Hset (Hp & Hdue & Hcol) Hsh H.
  assert (Hplay : mode g ≠ GAME_OVER) by (by destruct (mode g)).
  rewrite update_move_due in H by done.
  apply bind_Done in H as (r & rng1 & Hm & H).
  apply move_tick_cases in Hm as [(g2 & Hm & -> & ->)|(g2 & Hm & Ha)];
    change (with_move_counter (ticked g) 0) with (at_move g) in Hm;
    change (active (ticked g) GHOST) with (active (at_move g) GHOST) in *.
  { apply move_snake_cases in Hm as [(? & _ & [=])|[(_ & _ & [=])|(_ & Hno & _)]].
    unfold shielded in Hsh. congruence. }
  apply move_snake_cases in Hm as [(s & Hmv & [= ->])|[(Hb & _ & [= ->])|(_ & _ & [=])]].
  - (* the move succeeded: the collision is with an obstacle *)
    assert (∃ h, on_obstacle (active (at_move g) GHOST) (with_snake (at_move g) s) h)
      as [h Hon].
    { destruct Hcol as [Hb|(b & s' & h & Hmv' & Hon)].
      - unfold wall_or_self_collision, move_blocked, move_to in *. congruence.
      - unfold move_to in Hmv. rewrite Hmv in Hmv'. injection Hmv' as <- <-. eauto. }
    assert (Hact : active (with_snake (at_move g) s) SHIELD = true).
    { rewrite <- Hsh. apply active_same. simpl.
      by apply move_to_body in Hmv as (_ & _ & _ & _ & -> & _). }
    apply after_move_cases in Ha
      as [(g3 & Ho & -> & ->)|(g3 & g4 & h4 & Ho & Hf & Hh & ->)].
    + apply check_obstacles_cases in Ho
        as [(_ & [=])|[(? & _ & _ & [=])|(? & _ & Hno & _)]]. congruence.
    + apply check_obstacles_cases in Ho
        as [(Hnone & _)|[(h' & Hon' & _ & [= ->])|(? & _ & _ & [=])]];
        [by apply Hnone in Hon|].
      simpl in H.
      destruct (tick_tail_without_shield _ _ _ _ _ _ _ Hf Hh H) as [Hno Hmode].
      * change (active (drop_shield (with_snake (at_move g) s)) SHIELD = false).
        rewrite active_drop_shield. by rewrite decide_True.
      * simpl. intros p Hin Heq. subst h4.
        apply check_food_frame in Hf as (_ & Hb4 & _).
        rewrite (get_head_same _ _ Hb4) in Hh.
        destruct Hon' as (_ & _ & Hh' & Hobs).
        assert (Heq : Done h' = Done (pos p)) by (rewrite <- Hh'; exact Hh).
        injection Heq as ->.
        apply (sound_obstacles g Hs p Hin). exact Hobs.
      * split; [done|]. intros Hover. right.
        destruct Hmode as [Hm|(_ & Hm & Ht)]; simpl in *; [congruence|done].
  - (* the move was blocked and Shield absorbed it *)
    apply after_move_cases in Ha
      as [(g3 & Ho & -> & ->)|(g3 & g4 & h4 & Ho & Hf & Hh & ->)].
    + apply ret_Done in H as [-> _].
      apply check_obstacles_cases in Ho
        as [(_ & [=])|[(? & _ & _ & [=])|(h & Hon & _ & [= ->])]].
      pose proof (game_over_frame (drop_shield (at_move g))) as (Hsn & _).
      split.
      * rewrite (active_same (drop_shield (at_move g)) (game_over _))
          by (by rewrite Hsn).
        rewrite active_drop_shield. by rewrite decide_True.
      * intros _. left. split; [done|].
        exists false, (snake (at_move g)), h. split; [exact Hb|].
        rewrite with_snake_same. exact Hon.
    + apply check_obstacles_cases in Ho
        as [(_ & [= ->])|[(h & _ & Hyes & _)|(? & _ & _ & [=])]].
      2:{ rewrite active_drop_shield in Hyes. by rewrite decide_True in Hyes. }
      simpl in H.
      destruct (tick_tail_without_shield _ _ _ _ _ _ _ Hf Hh H) as [Hno Hmode].
      * rewrite active_drop_shield. by rewrite decide_True.
      * simpl. intros p Hin Heq. subst h4.
        apply check_food_frame in Hf as (_ & Hb4 & _).
        rewrite (get_head_same _ _ Hb4) in Hh.
        apply get_head_body in Hh as [rest Hbody].
        destruct Hset as [Hfree _]. apply (Hfree p Hin).
        change (body (snake g) = pos p :: rest) in Hbody.
        rewrite Hbody. by left.
      * split; [done|]. intros Hover. right.
        destruct Hmode as [Hm|(_ & Hm & Ht)]; simpl in *; [congruence|done].
Qed.

Lemma move_tick_eq g rng r1 :
  move_snake (active g GHOST) (with_move_counter g 0) = Done r1 →
  move_tick g rng =
    match r1 with
    | Return g2 => Done (Return g2, rng)
    | Go g2 => after_move (active g GHOST) g2 rng
    end.
Proof.
  intros H. unfold move_tick, bind, lift.
  change (active (with_move_counter g 0) GHOST) with (active g GHOST).
  rewrite H. simpl. by destruct r1.
Qed.

Lemma after_move_return has_ghost g g2 rng :
  check_obstacles has_ghost g = Done (Return g2) →
  after_move has_ghost g rng = Done (Return g2, rng).
Proof. intros H. unfold after_move, bind, lift. by rewrite H. Qed.

(** Without Shield a collision ends the round at once. *)
Lemma bare_collision g rng :
  fatal_collision g → active g SHIELD = false →
  ∃ g', update g rng = Done (g', rng) ∧ mode g' = GAME_OVER.
Proof.
  intros (Hp & Hdue & Hcol) Hno.
  assert (Hno0 : active (at_move g) SHIELD = false).
  { destruct (active (at_move g) SHIELD) eqn:Ha; [|done].
    apply (active_update_timers g) in Ha. congruence. }
  assert (Hblocked : move_blocked (active (at_move g) GHOST) (at_move g) →
            ∃ g', update g rng = Done (g', rng) ∧ mode g' = GAME_OVER).
  { intros Hb. rewrite update_move_due by done. unfold bind.
    rewrite (move_tick_eq _ _ (Return (game_over (at_move g)))).
    - simpl. eexists. split; [done|]. apply mode_game_over.
    - by apply move_snake_blocked_bare. }
  destruct Hcol as [Hb|(b & s & h & Hmv & Hon)]; [by apply Hblocked|].
  destruct b.
  - rewrite update_move_due by done. unfold bind.
    rewrite (move_tick_eq _ _ (Go (with_snake (at_move g) s)))
      by (by apply move_snake_moved).
    change (active (ticked g) GHOST) with (active (at_move g) GHOST).
    rewrite (after_move_return _ _ (game_over (with_snake (at_move g) s))).
    + simpl. eexists. split; [done|]. apply mode_game_over.
    + pose proof Hon as (_ & Hg & _). rewrite Hg in *.
      apply (check_obstacles_bare _ h Hon).
      rewrite <- Hno0. apply active_same. simpl.
      by apply move_to_body in Hmv as (_ & _ & _ & _ & -> & _).
  - pose proof (move_blocked_same _ _ _ Hmv) as ->. by apply Hblocked.
Qed.

Lemma reset_game_snake g rng g' rng' :
  reset_game g rng = Done (g', rng') → snake g' = Snake.reset.
Proof.
  unfold reset_game. intros H.
  apply bind_Done in H as (c & rng1 & _ & H). by apply ret_Done in H as [-> _].
Qed.

Lemma handle_key_shield g key rng g' rng' :
  handle_key g key rng = Done (Some g', rng') →
  active g SHIELD = false → active g' SHIELD = false.
Proof.
  intros H Hno.
  assert (Hstart : ∀ m, start g m rng = Done (Some g', rng') →
            active g' SHIELD = false).
  { intros m Hst. unfold start in Hst.
    apply bind_Done in Hst as (g1 & rng1 & Hr & Hst).
    apply ret_Done in Hst as [[= ->] ->].
    apply reset_game_snake in Hr. unfold active. by rewrite Hr. }
  assert (Hturn : ∀ d, turn g d rng = Done (Some g', rng') →
            active g' SHIELD = false).
  { intros d Ht. unfold turn in Ht.
    apply bind_Done in Ht as (s & rng1 & Hd & Ht).
    apply ret_Done in Ht as [[= ->] ->]. apply lift_Done in Hd as [Hd _].
    apply set_direction_body in Hd as (_ & Ha & _).
    rewrite <- Hno. by apply active_same. }
  assert (Hsame : ∀ m, ret (Some (with_mode g m)) rng = Done (Some g', rng') →
            active g' SHIELD = false).
  { intros m Hr. by apply ret_Done in Hr as [[= ->] _]. }
  unfold handle_key in H.
  destruct (mode g) eqn:Hm; destruct key; simpl in H;
    try (by apply ret_Done in H as [[= ->] _]); try (by eapply Hstart);
    try (by eapply Hsame); try (by eapply Hturn);
    try (by apply ret_Done in H as [[=] _]).
  apply bind_Done in H as (g1 & rng1 & Hr & H).
  apply reset_game_snake in Hr.
  destruct (last_mode g1); [|by apply lift_Done in H as [[=] _]].
  apply ret_Done in H as [[= ->] _]. unfold active. simpl. by rewrite Hr.
Qed.

Lemma handle_events_shield events : ∀ g rng running g' rng',
  handle_events events g rng = Done (running, g', rng') →
  active g SHIELD = false → active g' SHIELD = false.
Proof.
  induction events as [|e events IH]; intros g rng running g' rng' H Hno.
  - by apply ret_Done in H as [[= -> ->] _].
  - destruct e as [|key|]; simpl in H.
    + by apply ret_Done in H as [[= -> ->] _].
    + apply bind_Done in H as (r & rng1 & Hk & H). destruct r as [g1|].
      * apply handle_key_shield in Hk; eauto.
      * by apply ret_Done in H as [[= -> ->] _].
    + eauto.
Qed.

Lemma shieldless_run_shield g g' :
  shieldless_run g g' → active g SHIELD = false → active g' SHIELD = false.
Proof.
  induction 1 as [|g1 events rng running g2 rng' _ IH He
                  |g1 rng g2 rng' _ IH Hu Hnp]; intros Hno.
  - done.
  - eapply handle_events_shield; eauto.
  - destruct (active g2 SHIELD) eqn:Hy; [|done].
    destruct (shield_needs_pickup _ _ _ _ Hu (IH Hno) Hy) as (p & Hin & Ht & Hh).
    by destruct (Hnp p Hin Ht).
Qed.

End ShieldFacts.

(** ** The cadence *)

Section CadenceFacts.

Import Game.

Lemma frames_per_move_cadence_of g :
  base_speed g = 8 → speed_multiplier g = 1%float →
  frames_per_move g
  = cadence_of (active g SPEED_BOOST) (bool_decide (mode g = CLASSIC))
      (length (body (snake g))).
Proof.
  intros Hb Hm. unfold frames_per_move, current_speed, cadence_of.
  rewrite Hb, Hm.
  destruct (float_of_Z 8) as [b| |]; simpl; [|done..].
  destruct (active g SPEED_BOOST), (bool_decide (mode g = CLASSIC)); simpl;
    try done;
    by destruct (float_of_Z (Z.of_nat (length (body (snake g))))).
Qed.

(** On every length that fits the grid, and far beyond, the binary64
    computation gives the exact floor. *)
Lemma cadence_table :
  forallb (λ n, cadence_agrees false false n && cadence_agrees false true n
                && cadence_agrees true false n && cadence_agrees true true n)
    (seq 0 1201) = true.
Proof. vm_compute. reflexivity. Qed.

Lemma cadence_of_floor boost classic n :
  (n ≤ 1200)%nat → cadence_of boost classic n = Done (cadence_floor boost classic n).
Proof.
  intros Hn. pose proof cadence_table as Ht.
  rewrite forallb_forall in Ht. specialize (Ht n).
  rewrite !andb_true_iff in Ht. destruct Ht as [[[H00 H01] H10] H11].
  { apply in_seq. lia. }
  assert (∀ b c, cadence_agrees b c n = true →
            cadence_of b c n = Done (cadence_floor b c n)) as Hag.
  { intros b c. unfold cadence_agrees.
    destruct (cadence_of b c n) as [z| |]; try discriminate.
    intros Hz%Z.eqb_eq. by rewrite Hz. }
  destruct boost, classic; by apply Hag.
Qed.

Lemma in_grid_cells c : in_grid c → c ∈ grid_cells.
Proof.
  destruct c as [x y]. intros [Hx Hy]. simpl in Hx, Hy. unfold grid_cells.
  apply list_elem_of_bind. exists x. split.
  - apply list_elem_of_bind. exists y. split; [by left|].
    apply elem_of_seqZ. lia.
  - apply elem_of_seqZ. lia.
Qed.

Lemma length_grid_cells : length grid_cells = 1200%nat.
Proof. by vm_compute. Qed.

(** A sound snake fits the grid. *)
Lemma sound_length g : sound g → (length (body (snake g)) ≤ 1200)%nat.
Proof.
  intros [_ _ Hnd Hg _ _]. rewrite <- length_grid_cells.
  apply submseteq_length, NoDup_submseteq; [done|].
  intros c Hc. apply in_grid_cells. by eapply Forall_forall in Hg.
Qed.

Lemma frames_per_move_floor g :
  sound g → frames_per_move g = Done (cadence g).
Proof.
  intros Hs. pose proof (sound_length g Hs) as Hlen.
  destruct Hs as [[Hb Hm] _ _ _ _ _].
  rewrite frames_per_move_cadence_of by done.
  by rewrite cadence_of_floor.
Qed.

Lemma sound_update_timers g : sound g → sound (update_timers g).
Proof. intros []. by constructor. Qed.

End CadenceFacts.

(** ** A tick raises nothing *)

Section Totality.

Import Game.

Lemma bind_Raised {A B} (m : M A) (k : A → M B) rng e :
  bind m k rng = Raised e →
  m rng = Raised e ∨ ∃ a rng1, m rng = Done (a, rng1) ∧ k a rng1 = Raised e.
Proof.
  unfold bind. destruct (m rng) as [[a rng1]| |]; simpl; intros H;
    [right; eauto|left; by injection H as ->|done].
Qed.

Lemma choice_all_types rng e : choice all_types rng ≠ Raised e.
Proof.
  unfold choice. destruct rng as [|r rest]; [done|].
  pose proof (Z.mod_pos_bound r (Z.of_nat (length all_types)) eq_refl) as Hr.
  simpl in Hr.
  destruct (all_types !! Z.to_nat (r `mod` Z.of_nat (length all_types)))
    eqn:Hl; [done|].
  apply lookup_ge_None in Hl. simpl in Hl. lia.
Qed.

Lemma spawn_powerups_not_Raised g rng e : spawn_powerups g rng ≠ Raised e.
Proof.
  unfold spawn_powerups, spawn_powerup. simpl.
  destruct (FPS * 10 <=? _); [|done]. simpl.
  destruct (length (powerups g) <? 2)%nat; [|done].
  intros [H|(c & rng1 & _ & H)]%bind_Raised.
  - by apply sample_loop_not_Raised in H.
  - apply bind_Raised in H as [H|(? & ? & _ & H)]; [|done].
    by apply choice_all_types in H.
Qed.

Lemma spawn_obstacles_not_Raised g rng e : spawn_obstacles g rng ≠ Raised e.
Proof.
  unfold spawn_obstacles, spawn_obstacle.
  destruct (_ && _); [|done]. destruct (_ <? _); [|done].
  intros [H|(c & rng1 & _ & H)]%bind_Raised; [|done].
  by apply sample_loop_not_Raised in H.
Qed.

Lemma end_of_tick_not_Raised g rng e : end_of_tick g rng ≠ Raised e.
Proof.
  unfold end_of_tick.
  intros [H|(g1 & rng1 & _ & H)]%bind_Raised;
    [by apply spawn_powerups_not_Raised in H|].
  apply bind_Raised in H as [H|(? & ? & _ & H)]; [|done].
  by apply spawn_obstacles_not_Raised in H.
Qed.

Lemma get_head_total s : body s ≠ [] → ∃ h, Snake.get_head s = Done h.
Proof. unfold Snake.get_head. destruct (body s); [done|eauto]. Qed.

Lemma move_total s has_ghost :
  body s ≠ [] → ∃ b s', Snake.move s has_ghost = Done (b, s').
Proof.
  intros [h Hh]%get_head_total. rewrite (move_unfold _ _ _ Hh).
  destruct (negb has_ghost && _); [eauto|].
  destruct (Snake.advance s _) as [b s']. eauto.
Qed.

Lemma move_snake_total has_ghost g :
  body (snake g) ≠ [] → ∃ r, move_snake has_ghost g = Done r.
Proof.
  intros (b & s' & Hm)%(move_total _ has_ghost). unfold move_snake.
  rewrite Hm. simpl. destruct b; simpl; [eauto|].
  destruct (active _ SHIELD); eauto.
Qed.

Lemma check_obstacles_total has_ghost g :
  body (snake g) ≠ [] → ∃ r, check_obstacles has_ghost g = Done r.
Proof.
  intros [h Hh]%get_head_total. unfold check_obstacles.
  destruct (_ && _); [|eauto]. rewrite Hh. simpl.
  case_bool_decide; [|eauto]. destruct (active g SHIELD); eauto.
Qed.

Lemma after_move_not_Raised has_ghost g rng e :
  sound g → settled_behind g → after_move has_ghost g rng ≠ Raised e.
Proof.
  intros Hs Hset H.
  destruct (check_obstacles_total has_ghost g (sound_head g Hs)) as [r Ho].
  pose proof (sound_check_obstacles _ _ _ Hs Hset Ho) as Hr.
  unfold after_move, bind at 1, lift in H. rewrite Ho in H. simpl in H.
  destruct r as [g2|g2]; [|done]. destruct Hr as (Hs2 & Hset2 & _).
  apply bind_Raised in H as [H|(g3 & rng3 & Hf & H)].
  - unfold check_food in H.
    destruct (get_head_total _ (sound_head g2 Hs2)) as [h Hh].
    unfold bind at 1, lift in H. rewrite Hh in H. simpl in H.
    case_bool_decide; [|done].
    apply bind_Raised in H as [H|(? & ? & _ & H)]; [|done].
    by apply sample_loop_not_Raised in H.
  - pose proof (sound_check_food _ _ _ _ Hs2 Hset2 Hf) as (Hs3 & _).
    destruct (get_head_total _ (sound_head g3 Hs3)) as [h Hh].
    unfold bind, lift in H. by rewrite (check_powerups_spec _ _ Hh) in H.
Qed.

Lemma move_tick_not_Raised g rng e :
  sound g → settled g → move_tick g rng ≠ Raised e.
Proof.
  intros Hs Hset H.
  assert (Hs0 : sound (with_move_counter g 0)) by (by destruct Hs; constructor).
  destruct (move_snake_total (active g GHOST) _ (sound_head _ Hs0)) as [r Hm].
  rewrite (move_tick_eq _ _ _ Hm) in H.
  pose proof (sound_move_snake _ _ _ Hs0 Hset Hm) as Hr.
  destruct r as [g2|g2]; [|done]. destruct Hr as (Hs2 & Hset2 & _).
  by apply after_move_not_Raised in H.
Qed.

(** In a run [update] never raises: it returns, or it is still drawing
    candidates when the draws end. *)
Lemma update_never_raises g rng e : reachable g → update g rng ≠ Raised e.
Proof.
  intros [Hs Hset]%reachable_sound H.
  destruct (playing (mode g)) eqn:Hp; [|by rewrite update_idle in H].
  specialize (Hset eq_refl). rewrite update_playing in H by done.
  rewrite (frames_per_move_floor _ (sound_update_timers _ Hs)) in H.
  simpl in H. destruct (_ <=? _).
  - apply bind_Raised in H as [H|(r & rng1 & Hm & H)].
    + by apply move_tick_not_Raised in H; [|apply sound_ticked|].
    + destruct r as [g2|g2]; [|done]. by apply end_of_tick_not_Raised in H.
  - by apply end_of_tick_not_Raised in H.
Qed.

End Totality.

(** ** The tick as a whole *)

Section TickTheorems.

Import Game.

Lemma run_reachable frames : ∀ g rng g' rng',
  reachable g → run frames g rng = Done (g', rng') → reachable g'.
Proof.
  induction frames as [|events frames IH]; intros g rng g' rng' Hr H.
  - by apply ret_Done in H as [-> _].
  - simpl in H. apply bind_Done in H as ([running g1] & rng1 & He & H).
    apply bind_Done in H as (g2 & rng2 & Hu & H). simpl in Hu, H.
    assert (reachable g2) as Hr2.
    { eapply reachable_update; [|exact Hu]. eapply reachable_events; eauto. }
    destruct running; [eauto|]. by apply ret_Done in H as [-> _].
Qed.

Lemma shieldless_run_trans g1 g2 g3 :
  shieldless_run g1 g2 → shieldless_run g2 g3 → shieldless_run g1 g3.
Proof.
  intros H12 H23. induction H23; [done| |].
  - eapply shieldless_events; eauto.
  - eapply shieldless_update; eauto.
Qed.

(** Ticks with no power-up on the field pick nothing up. *)
Lemma updates_shieldless n : ∀ g rng g' rng',
  updates n g rng = Done (g', rng') →
  (∀ k g1 rng1, (k < n)%nat → updates k g rng = Done (g1, rng1) →
                powerups g1 = []) →
  shieldless_run g g'.
Proof.
  induction n as [|n IH]; intros g rng g' rng' H Hempty.
  - apply ret_Done in H as [-> _]. constructor.
  - simpl in H. apply bind_Done in H as (g1 & rng1 & Hu & H).
    eapply shieldless_run_trans.
    + eapply shieldless_update; [constructor|exact Hu|].
      intros p Hin. rewrite (Hempty 0%nat g rng) in Hin; [|lia|done].
      by apply elem_of_nil in Hin.
    + eapply IH; [exact H|]. intros k g2 rng2 Hk Hk2.
      apply (Hempty (S k) g2 rng2); [lia|]. simpl. unfold bind. by rewrite Hu.
Qed.


(** C5. Take a state of a run in which a tick meets a collision that
    would end the round (the move is blocked by a wall or by the snake
    itself, or the head comes onto an obstacle while the obstacle check
    applies) with Shield in [active_powerups]. At the collision Shield is
    deleted and [update] goes on instead of calling [game_over]; at the
    end of that tick Shield is absent, and the round can only have ended
    in it through a second collision of the same tick (an obstacle under
    the unmoved head) or through the clock of Time Attack. From then on,
    over any stretch of input and ticks in which the snake picks up no
    Shield power-up, Shield stays absent, and every tick that meets a
    collision returns with the mode [GAME_OVER]. *)
Theorem shield_single_use (g : Game) (rng : list Z) (g1 : Game) (rng1 : list Z) :
  reachable g → fatal_collision g → shielded g →
  update g rng = Done (g1, rng1) →
  (wall_or_self_collision g →
     move_snake (active (at_move g) GHOST) (at_move g)
     = Done (Go (drop_shield (at_move g))))
  ∧ (∀ s h, move_to (active (at_move g) GHOST) (at_move g) s →
       on_obstacle (active (at_move g) GHOST) (with_snake (at_move g) s) h →
       check_obstacles (active (at_move g) GHOST) (with_snake (at_move g) s)
       = Done (Go (clear_obstacle (drop_shield (with_snake (at_move g) s)) h)))
  ∧ active_powerups (snake (drop_shield (at_move g))) !! SHIELD = None
  ∧ active g1 SHIELD = false
  ∧ (mode g1 = GAME_OVER →
       wall_or_self_collision g ∧ obstacle_collision g
       ∨ mode g = TIME_ATTACK ∧ time_remaining g ≤ 1)
  ∧ (∀ g2, shieldless_run g1 g2 →
       active g2 SHIELD = false
       ∧ (fatal_collision g2 →
            ∀ rng2, ∃ g3, update g2 rng2 = Done (g3, rng2)
                          ∧ mode g3 = GAME_OVER)).
Proof.
  intros Hr Hcol Hsh Hu.
  pose proof Hcol as (Hp & _ & _).
  apply reachable_sound in Hr as [Hs Hset]. specialize (Hset Hp).
  destruct (absorbing_tick _ _ _ _ Hs Hset Hcol Hsh Hu) as [Hno Hover].
  split_and!; [| | |done..|].
  - intros Hb. by apply move_snake_blocked_shield.
  - intros s h Hmv Hon. pose proof Hon as (_ & Hg & _). rewrite Hg in *.
    apply check_obstacles_shield; [done|].
    rewrite <- Hsh. apply active_same. simpl.
    by apply move_to_body in Hmv as (_ & _ & _ & _ & -> & _).
  - simpl. apply lookup_delete_eq.
  - intros g2 Hrun.
    pose proof (shieldless_run_shield _ _ Hrun Hno) as Hno2.
    split; [done|]. intros Hcol2 rng2. by apply bare_collision.
Qed.

(** C6, as the code has it. In every state of a run the cadence is
    [max(1, floor(FPS / effective_speed))]: [int] truncates, it does not
    round. The effective speed is the base speed 8 times the
    multiplier 1.0, times 1.5 when SpeedBoost is active (after this
    tick's timers), plus, in Classic only, 0.05 for each cell of the
    snake; [speed_x20] is twenty times it. On a tick of a round the frame
    counter goes up by one; when it reaches the cadence it is put back to
    zero and [move] is called exactly once, the body at the end of the
    tick being the one that call left; otherwise the body stays. *)
Theorem cadence_truncates (g : Game) (rng : list Z) (g' : Game) (rng' : list Z) :
  reachable g → playing (mode g) = true →
  update g rng = Done (g', rng') →
  frames_per_move (update_timers g) = Done (cadence (update_timers g))
  ∧ cadence (update_timers g)
    = Z.max 1 ((FPS * 20)
               `div` ((if active (update_timers g) SPEED_BOOST then 240 else 160)
                      + (if bool_decide (mode g = CLASSIC)
                         then Z.of_nat (length (body (snake g))) else 0)))
  ∧ (move_counter g + 1 < cadence (update_timers g) →
       move_counter g' = move_counter g + 1
       ∧ body (snake g') = body (snake g))
  ∧ (cadence (update_timers g) ≤ move_counter g + 1 →
       move_counter g' = 0
       ∧ ∃ b s, Snake.move (snake (at_move g)) (active (at_move g) GHOST)
                = Done (b, s)
                ∧ body (snake g') = body s).
Proof.
  intros Hr Hp Hu. apply reachable_sound in Hr as [Hs _].
  pose proof (frames_per_move_floor _ (sound_update_timers _ Hs)) as Hf.
  split_and!; [done|done| |].
  - intros Hlt. rewrite (update_not_due _ _ _ Hp Hf Hlt) in Hu.
    apply end_of_tick_track in Hu as [(Hb & _ & Hc) _]. done.
  - intros Hle.
    rewrite update_move_due in Hu by (done || by eexists).
    apply bind_Done in Hu as (r & rng1 & Hm & Hu).
    assert (same_track (flow_game r) g') as (Hb' & _ & Hc').
    { destruct r as [g2|g2]; simpl in Hu.
      - by apply end_of_tick_track in Hu as [? _].
      - by apply ret_Done in Hu as [-> _]. }
    apply move_tick_cases in Hm as [(g2 & Hm & -> & _)|(g2 & Hm & Ha)];
      change (with_move_counter (ticked g) 0) with (at_move g) in Hm;
      change (active (ticked g) GHOST) with (active (at_move g) GHOST) in *.
    + apply move_snake_cases in Hm
        as [(? & _ & [=])|[(_ & _ & [=])|(Hb & _ & [= ->])]].
      destruct (same_track_game_over (at_move g)) as (Hb2 & _ & Hc2).
      simpl in Hb', Hc'. split; [by rewrite Hc', Hc2|].
      exists false, (snake (at_move g)). split; [done|]. by rewrite Hb', Hb2.
    + apply after_move_track in Ha as (Hb2 & _ & Hc2).
      apply move_snake_cases in Hm
        as [(s & Hmv & [= ->])|[(Hb & _ & [= ->])|(_ & _ & [=])]].
      * split; [by rewrite Hc', Hc2|].
        exists true, s. split; [done|]. by rewrite Hb', Hb2.
      * split; [by rewrite Hc', Hc2|].
        exists false, (snake (at_move g)). split; [done|]. by rewrite Hb', Hb2.
Qed.


End TickTheorems.

(** ** The theorems at work *)

Section Examples.

Import Game.

Lemma move_wall_or_wrap_witness :
  Snake.get_head at_right_wall = Done (39, 15)
  ∧ Snake.move at_right_wall false = Done (false, at_right_wall)
  ∧ in_grid (0, 15)
  ∧ Snake.move at_right_wall true
    = Done (true, mkSnake [(0, 15); (39, 15); (38, 15)] RIGHT 0 ∅).
Proof.
  split; [reflexivity|].
  pose proof (move_wall_or_wrap at_right_wall (39, 15) eq_refl)
    as (Hwall & _ & Hwrap & Hgrid & _).
  split_and!.
  - apply Hwall. right. left. vm_compute. discriminate.
  - exact Hgrid.
  - rewrite Hwrap. reflexivity.
Defined.

Lemma move_self_collision_witness :
  Snake.get_head coiled = Done (5, 5)
  ∧ (6, 5) ∈ drop 1 (body coiled)
  ∧ Snake.move coiled false = Done (false, coiled)
  ∧ Snake.move coiled true = Done (false, coiled).
Proof.
  assert (Hin : (6, 5) ∈ drop 1 (body coiled)).
  { simpl. do 2 right. left. }
  split_and!; [reflexivity|exact Hin| |].
  - exact (move_self_collision coiled false (5, 5) eq_refl Hin).
  - exact (move_self_collision coiled true (5, 5) eq_refl Hin).
Defined.

Lemma move_success_witness :
  Snake.move growing false = Done (true, grown)
  ∧ length (body grown) = S (length (body growing))
  ∧ grow_pending grown = grow_pending growing - 1.
Proof.
  split; [reflexivity|].
  destruct (move_success growing grown false eq_refl) as (h & _ & _ & _ & Hgrow).
  destruct Hgrow as (_ & Hlen & Hpending); [reflexivity|].
  split; [exact Hlen|exact Hpending].
Defined.

Lemma menu_start_reachable : reachable menu_start.
Proof.
  apply (reachable_init (mkDisk None true) [0; 0] menu_start []).
  vm_compute. reflexivity.
Qed.

Lemma survival_start_reachable : reachable survival_start.
Proof.
  apply (reachable_events menu_start [KEYDOWN K_3] [0; 0] true survival_start []).
  - apply menu_start_reachable.
  - vm_compute. reflexivity.
Qed.

Lemma shield_state_reachable : reachable shield_state.
Proof.
  apply (run_reachable shield_frames menu_start shield_draws shield_state []).
  - apply menu_start_reachable.
  - vm_compute. reflexivity.
Qed.

Lemma shield_state_collision : fatal_collision shield_state ∧ shielded shield_state.
Proof.
  split; [split_and!|].
  - reflexivity.
  - exists 7. split; [vm_compute; reflexivity|]. vm_compute. discriminate.
  - left. unfold wall_or_self_collision, move_blocked. vm_compute. reflexivity.
  - unfold shielded. vm_compute. reflexivity.
Qed.

Lemma second_collision_fatal : fatal_collision second_collision.
Proof.
  split_and!.
  - reflexivity.
  - exists 7. split; [vm_compute; reflexivity|]. vm_compute. discriminate.
  - left. unfold wall_or_self_collision, move_blocked. vm_compute. reflexivity.
Qed.

Lemma shield_spent_quiet : shieldless_run shield_spent second_collision.
Proof.
  apply (updates_shieldless 6 shield_spent [] second_collision []).
  - vm_compute. reflexivity.
  - intros k g1 rng1 Hk Hu.
    do 6 (destruct k as [|k];
          [vm_compute in Hu; by injection Hu as <- _|]).
    lia.
Qed.

Lemma shield_single_use_witness :
  reachable shield_state
  ∧ fatal_collision shield_state ∧ shielded shield_state
  ∧ update shield_state [] = Done (shield_spent, [])
  ∧ mode shield_spent = SURVIVAL
  ∧ active shield_spent SHIELD = false
  ∧ shieldless_run shield_spent second_collision
  ∧ ∃ g3, update second_collision [] = Done (g3, []) ∧ mode g3 = GAME_OVER.
Proof.
  pose proof shield_state_reachable as Hr.
  pose proof shield_state_collision as [Hcol Hsh].
  assert (Hu : update shield_state [] = Done (shield_spent, []))
    by (vm_compute; reflexivity).
  destruct (shield_single_use shield_state [] shield_spent [] Hr Hcol Hsh Hu)
    as (_ & _ & _ & Hno & _ & Hlater).
  destruct (Hlater second_collision shield_spent_quiet) as [_ Hover].
  split_and!; [done|done|done|done|reflexivity|done| |].
  - apply shield_spent_quiet.
  - apply Hover, second_collision_fatal.
Defined.

(** C6 with [round] fails: in the first round of [survival_start] the
    effective speed is 8.0 and 60 / 8.0 = 7.5; the cadence in the words
    of the specification, [max(1, round(7.5))], is 8, the cadence of the
    code, [max(1, int(7.5))], is 7, and the snake has advanced after 7
    ticks, the counter back on zero. *)
Lemma cadence_not_rounded :
  reachable survival_start
  ∧ spec_ticks_per_move (update_timers survival_start) = Done 8
  ∧ frames_per_move (update_timers survival_start) = Done 7
  ∧ frames_per_move (update_timers survival_start)
    ≠ spec_ticks_per_move (update_timers survival_start)
  ∧ updates 7 survival_start [] = Done (survival_moved, [])
  ∧ Snake.get_head (snake survival_start) = Done (20, 15)
  ∧ Snake.get_head (snake survival_moved) = Done (21, 15).
Proof.
  split_and!; try (vm_compute; reflexivity).
  - apply survival_start_reachable.
  - vm_compute. discriminate.
Qed.

Lemma cadence_truncates_witness :
  reachable survival_start
  ∧ playing (mode survival_start) = true
  ∧ update survival_start [] = Done (with_powerup_spawn_counter
                                       (with_move_counter survival_start 1) 1, [])
  ∧ frames_per_move (update_timers survival_start) = Done 7
  ∧ cadence (update_timers survival_start) = 7.
Proof.
  pose proof survival_start_reachable as Hr.
  assert (Hu : update survival_start []
               = Done (with_powerup_spawn_counter
                         (with_move_counter survival_start 1) 1, []))
    by (vm_compute; reflexivity).
  destruct (cadence_truncates survival_start [] _ [] Hr eq_refl Hu)
    as (Hf & _ & _ & _).
  split_and!; [done|reflexivity|done| |reflexivity].
  rewrite Hf. reflexivity.
Defined.


Lemma set_direction_neck_witness :
  body Snake.reset = [(20, 15); (19, 15); (18, 15)]
  ∧ direction Snake.reset = RIGHT
  ∧ Snake.set_direction Snake.reset LEFT = Done Snake.reset
  ∧ Snake.set_direction Snake.reset UP
    = Done (mkSnake [(20, 15); (19, 15); (18, 15)] UP 0 ∅).
Proof.
  destruct (set_direction_neck Snake.reset LEFT) as (Hleft & _).
  destruct (Hleft (20, 15) (19, 15) [(18, 15)] eq_refl) as [Hback _].
  destruct (set_direction_neck Snake.reset UP) as (Hup & _).
  destruct (Hup (20, 15) (19, 15) [(18, 15)] eq_refl) as [_ Hturn].
  split_and!; [reflexivity|reflexivity| |].
  - apply Hback. reflexivity.
  - apply Hturn. discriminate.
Defined.


Lemma last_second_reachable : reachable last_second.
Proof.
  apply (run_reachable last_second_frames menu_start last_second_draws
           last_second []).
  - apply menu_start_reachable.
  - vm_compute. reflexivity.
Qed.

(** C5 fails where it says that no GameOver transition occurs in the tick
    of the absorbed collision. In [last_second], a state of a run, the
    move of the next tick is due and blocked by the bottom wall, with
    Shield in [active_powerups] before the tick and at the move. Shield
    absorbs the collision and is gone afterwards, and the same tick, the
    last of the clock of Time Attack, ends the round all the same. *)
Lemma shield_tick_ends_round :
  reachable last_second
  ∧ fatal_collision last_second
  ∧ wall_or_self_collision last_second
  ∧ active last_second SHIELD = true
  ∧ shielded last_second
  ∧ move_snake (active (at_move last_second) GHOST) (at_move last_second)
    = Done (Go (drop_shield (at_move last_second)))
  ∧ update last_second [5; 5; 2] = Done (last_second_over, [])
  ∧ active last_second_over SHIELD = false
  ∧ mode last_second_over = GAME_OVER
  ∧ last_mode last_second_over = Some TIME_ATTACK.
Proof.
  assert (Hwall : wall_or_self_collision last_second).
  { unfold wall_or_self_collision, move_blocked. vm_compute. reflexivity. }
  assert (Hcol : fatal_collision last_second).
  { split; [reflexivity|]. split; [|by left].
    exists 5. split; [vm_compute; reflexivity|]. vm_compute. discriminate. }
  split; [apply last_second_reachable|].
  split; [exact Hcol|]. split; [exact Hwall|].
  split; [vm_compute; reflexivity|].
  split; [unfold shielded; vm_compute; reflexivity|].
  split; [vm_compute; reflexivity|].
  split; [vm_compute; reflexivity|].
  split; [vm_compute; reflexivity|].
  split; reflexivity.
Qed.

(** A reversal is ignored, a turn is taken. *)
Example set_direction_at_start :
  Snake.set_direction Snake.reset LEFT = Done Snake.reset
  ∧ Snake.set_direction Snake.reset UP
    = Done (mkSnake [(20, 15); (19, 15); (18, 15)] UP 0 ∅).
Proof. split; reflexivity. Qed.

(** The first candidate, (20, 15), is under the snake; the second is free. *)
Example spawn_food_rejects :
  spawn_food survival_start [20; 15; 7; 7; 1] = Done ((7, 7), [1]).
Proof. vm_compute. reflexivity. Qed.

(** A new best is stored and written; a score that is no new best leaves
    the table and the file alone. *)
Example game_over_new_best :
  high_scores (game_over thirty_points) !! "survival" = Some 30
  ∧ file (disk (game_over thirty_points))
    = Some (<["survival" := 30]> default_high_scores)
  ∧ high_scores (game_over survival_start) = default_high_scores
  ∧ disk (game_over survival_start) = mkDisk None true.
Proof. split_and!; vm_compute; reflexivity. Qed.

(** The counter fires on a full field: it goes back to zero, nothing is
    added, no draw is read. *)
Example spawn_on_full_field :
  spawn_powerups full_field [9; 9; 0]
  = Done (with_powerup_spawn_counter full_field 0, [9; 9; 0]).
Proof. vm_compute. reflexivity. Qed.

End Examples.

(** ** More of the snake *)

Section SnakeMore.

Import Snake.

(** X1. [move] returns [False] in two cases and in no other: without
    Ghost the cell ahead is off the grid, or the cell it would enter
    (wrapped under Ghost) is one of the snake's own behind the head. *)
Theorem move_blocked_iff (s : Snake) (has_ghost : bool) (h : Cell) :
  get_head s = Done h →
  (∃ s', move s has_ghost = Done (false, s')) ↔
  (has_ghost = false ∧ ¬ in_grid (step_cell h (direction s)))
  ∨ new_head has_ghost h (direction s) ∈ drop 1 (body s).
Proof.
  intros Hh. rewrite (move_unfold _ _ _ Hh).
  destruct has_ghost; simpl.
  - split.
    + intros [s' [= H]]. right. by apply advance_blocked in H as [_ ?].
    + intros [[? _]|Hin]; [done|]. exists s. by rewrite advance_self_collision.
  - destruct (out_of_grid (step_cell h (direction s))) eqn:Hout.
    + split; [|by eauto]. intros _. left. split; [done|].
      intros Hg%out_of_grid_false. congruence.
    + split.
      * intros [s' [= H]]. right. by apply advance_blocked in H as [_ ?].
      * intros [[_ Hn]|Hin].
        -- by apply out_of_grid_false in Hout.
        -- exists s. by rewrite advance_self_collision.
Qed.

Lemma move_blocked_iff_witness :
  get_head at_right_wall = Done (39, 15)
  ∧ ((∃ s', move at_right_wall false = Done (false, s')) ↔
     (false = false
      ∧ ¬ in_grid (step_cell (39, 15) (direction at_right_wall)))
     ∨ new_head false (39, 15) (direction at_right_wall)
       ∈ drop 1 (body at_right_wall))
  ∧ ¬ in_grid (step_cell (39, 15) (direction at_right_wall)).
Proof.
  split; [reflexivity|].
  split; [exact (move_blocked_iff at_right_wall false (39, 15) eq_refl)|].
  intros [[_ Hx] _]. vm_compute in Hx. discriminate Hx.
Defined.

(** X2. The guard of [set_direction] compares cells as they are, not
    modulo the grid: after the head has wrapped from the last column to the
    first (or back), the turn onto the neck is stored, and the move
    under Ghost that follows is blocked by the neck. *)
Theorem reversal_through_wrap (y : Z) (rest : list Cell) (d : Direction)
    (pending : Z) (timers : gmap PowerUpType Z) :
  0 ≤ y < GRID_HEIGHT →
  (set_direction (mkSnake ((0, y) :: (GRID_WIDTH - 1, y) :: rest) d pending timers) LEFT
   = Done (mkSnake ((0, y) :: (GRID_WIDTH - 1, y) :: rest) LEFT pending timers)
   ∧ move (mkSnake ((0, y) :: (GRID_WIDTH - 1, y) :: rest) LEFT pending timers) true
     = Done (false, mkSnake ((0, y) :: (GRID_WIDTH - 1, y) :: rest) LEFT pending timers))
  ∧ (set_direction (mkSnake ((GRID_WIDTH - 1, y) :: (0, y) :: rest) d pending timers) RIGHT
     = Done (mkSnake ((GRID_WIDTH - 1, y) :: (0, y) :: rest) RIGHT pending timers)
     ∧ move (mkSnake ((GRID_WIDTH - 1, y) :: (0, y) :: rest) RIGHT pending timers) true
       = Done (false, mkSnake ((GRID_WIDTH - 1, y) :: (0, y) :: rest) RIGHT pending timers)).
Proof.
  intros Hy.
  assert (Hmod : y `mod` GRID_HEIGHT = y) by (by apply Z.mod_small).
  split; split.
  - unfold set_direction. simpl. reflexivity.
  - erewrite move_unfold by reflexivity. simpl.
    rewrite advance_self_collision; [done|].
    unfold new_head, wrap, step_cell. simpl. rewrite Z.add_0_r, Hmod. by left.
  - unfold set_direction. simpl. reflexivity.
  - erewrite move_unfold by reflexivity. simpl.
    rewrite advance_self_collision; [done|].
    unfold new_head, wrap, step_cell. simpl. rewrite Z.add_0_r, Hmod. by left.
Qed.

Lemma reversal_through_wrap_witness :
  set_direction
    (mkSnake [(0, 15); (39, 15); (38, 15)] RIGHT 0 {[GHOST := 100]}) LEFT
  = Done (mkSnake [(0, 15); (39, 15); (38, 15)] LEFT 0 {[GHOST := 100]})
  ∧ move (mkSnake [(0, 15); (39, 15); (38, 15)] LEFT 0 {[GHOST := 100]}) true
    = Done (false,
            mkSnake [(0, 15); (39, 15); (38, 15)] LEFT 0 {[GHOST := 100]}).
Proof.
  refine (proj1 (reversal_through_wrap 15 [(38, 15)] RIGHT 0 {[GHOST := 100]} _)).
  by vm_compute.
Defined.

End SnakeMore.

(** ** Where things are in a run *)

Section Placement.

Import Game.

Lemma sublist_fmap_2 {A B} (f : A → B) (l k : list A) :
  l `sublist_of` k → f <$> l `sublist_of` f <$> k.
Proof. induction 1; simpl; by constructor. Qed.

Lemma step_twice_neq has_ghost h d :
  in_grid h → Snake.step_cell (new_head has_ghost h d) d ≠ h.
Proof.
  destruct h as [x y]. unfold in_grid, new_head, Snake.wrap, Snake.step_cell.
  change GRID_WIDTH with 40. change GRID_HEIGHT with 30.
  destruct has_ghost, d; simpl; intros [? ?] [= Hx Hy]; revert Hx Hy;
    Z.div_mod_to_equations; lia.
Qed.

(** The snake after a successful move, cell by cell. *)
Lemma move_to_shape has_ghost g s :
  move_to has_ghost g s →
  ∃ h rest, body (snake g) = h :: rest
    ∧ direction s = direction (snake g)
    ∧ active_powerups s = active_powerups (snake g)
    ∧ (0 < grow_pending (snake g)
       ∧ body s = new_head has_ghost h (direction (snake g)) :: h :: rest
       ∧ grow_pending s = grow_pending (snake g) - 1
       ∨ grow_pending (snake g) ≤ 0
         ∧ body s = new_head has_ghost h (direction (snake g))
                    :: removelast (h :: rest)
         ∧ grow_pending s = grow_pending (snake g)).
Proof.
  unfold move_to. intros Hm.
  destruct (move_done_head _ _ _ Hm) as [h Hh].
  pose proof Hh as Hb. apply get_head_body in Hb as [rest Hb].
  exists h, rest. split; [done|].
  rewrite (move_unfold _ _ _ Hh) in Hm.
  destruct (negb has_ghost && Snake.out_of_grid _); [discriminate|].
  injection Hm as Hm.
  apply advance_moved in Hm as (_ & Hd & Ha & Hbody); [|by rewrite Hb].
  split_and!; [done..|].
  destruct (0 <? grow_pending (snake g)) eqn:Hg; destruct Hbody as [Hbs Hgs].
  - left. apply Z.ltb_lt in Hg. by rewrite Hbs, Hb.
  - right. apply Z.ltb_ge in Hg. by rewrite Hbs, Hb.
Qed.

Lemma set_direction_cases s d s' :
  Snake.set_direction s d = Done s' →
  s' = s
  ∨ s' = Snake.with_direction s d
    ∧ ∀ h neck rest, body s = h :: neck :: rest → Snake.step_cell h d ≠ neck.
Proof.
  unfold Snake.set_direction, Snake.get_head. intros H.
  destruct (body s) as [|h [|neck rest]] eqn:Hb; simpl in H; [done| |].
  - injection H as <-. right. split; [done|]. intros ? ? ? [=].
  - case_bool_decide as Hn; injection H as <-; [|by left].
    right. split; [done|]. by intros ? ? ? [= <- <- _].
Qed.

Lemma collected_lookup_Some h copy : ∀ act t r,
  collected h copy act !! t = Some r →
  act !! t = Some r ∨ ∃ p, p ∈ copy ∧ duration p = r.
Proof.
  induction copy as [|p copy IH]; intros act t r H; simpl in H; [by left|].
  apply IH in H as [H|(q & Hq & Hr)].
  - case_bool_decide; [|by left].
    rewrite lookup_insert in H. case_decide; [|by left].
    injection H as <-. right. exists p. split; [by left|done].
  - right. exists q. split; [by right|done].
Qed.

Lemma placed_game_over g :
  playing (mode g) = true → placed g → placed (game_over g).
Proof.
  intros Hp []. unfold game_over, save_high_scores.
  destruct (_ <? _); simpl; [destruct (writable (disk g))|];
    constructor; simpl; try done; eauto.
Qed.

Lemma placed_update_timers g : placed g → placed (update_timers g).
Proof.
  intros []. constructor; simpl; try done.
  intros t r. rewrite lookup_omap.
  destruct (active_powerups (snake g) !! t) as [r0|] eqn:Hl; simpl; [|done].
  unfold tick_timer. destruct (r0 - 1 <=? 0) eqn:Hr; [done|].
  intros [= <-]. apply Z.leb_gt in Hr.
  pose proof (placed_timers0 _ _ Hl). lia.
Qed.

Lemma placed_with_move_counter g n : placed g → placed (with_move_counter g n).
Proof. intros []. by constructor. Qed.

Lemma placed_drop_shield g : placed g → placed (drop_shield g).
Proof.
  intros []. constructor; simpl; try done.
  intros t r [_ Hl]%lookup_delete_Some. eauto.
Qed.

Lemma placed_move_snake has_ghost g r :
  sound g → placed g → playing (mode g) = true →
  move_snake has_ghost g = Done r →
  placed (flow_game r)
  ∧ match r with Go g2 => mode g2 = mode g | Return _ => True end.
Proof.
  intros Hs Hpl Hp Hm.
  apply move_snake_cases in Hm as [(s & Hm & ->)|[(_ & _ & ->)|(_ & _ & ->)]];
    simpl.
  - split; [|done].
    apply move_to_shape in Hm as (h & rest & Hb & Hd & Ha & Hshape).
    assert (Hgrid : in_grid h).
    { pose proof (sound_grid g Hs) as Hg. rewrite Hb in Hg.
      by apply Forall_cons in Hg as [? _]. }
    destruct Hpl. constructor; simpl; try done.
    + rewrite Hb in placed_count0.
      destruct Hshape as [(_ & -> & _)|(_ & -> & _)].
      * etrans; [exact placed_count0|].
        apply Z.div_le_mono; [lia|]. simpl length. lia.
      * change (length (new_head has_ghost h (direction (snake g))
                        :: removelast (h :: rest)))
          with (S (length (removelast (h :: rest)))).
        rewrite length_removelast_cons.
        etrans; [exact placed_count0|]. apply Z.div_le_mono; [lia|].
        simpl length. lia.
    + by rewrite Ha.
    + intros c neck rest' Hbs. rewrite Hd.
      destruct Hshape as [(_ & Hbs' & _)|(_ & Hbs' & _)]; rewrite Hbs' in Hbs.
      * injection Hbs as <- <- _. by apply step_twice_neq.
      * destruct rest as [|x rest]; [by injection Hbs|].
        rewrite removelast_cons in Hbs. injection Hbs as <- <- _.
        by apply step_twice_neq.
  - split; [|done]. by apply placed_drop_shield.
  - split; [|done]. by apply placed_game_over.
Qed.

Lemma placed_clear_obstacle g h : placed g → placed (clear_obstacle g h).
Proof.
  intros [].
  assert (Hsub : filter (λ o, opos o ≠ h) (obstacles g) `sublist_of` obstacles g)
    by apply sublist_filter.
  constructor; simpl; try done.
  - apply Forall_forall. intros o Ho.
    apply (elem_of_sublist _ _ _ Ho) in Hsub.
    by eapply Forall_forall in placed_obstacles0.
  - eapply sublist_NoDup; [exact placed_obstacles_apart0|apply sublist_fmap_2, Hsub].
  - intros (o & Heq & Ho)%list_elem_of_fmap. apply placed_food_clear0.
    apply list_elem_of_fmap. exists o. split; [done|].
    by eapply elem_of_sublist.
  - etrans; [|exact placed_count0].
    apply Nat2Z.inj_le, length_filter.
  - intros Hp Hm. by rewrite (placed_survival0 Hp Hm).
Qed.

Lemma placed_check_obstacles has_ghost g r :
  placed g → playing (mode g) = true →
  check_obstacles has_ghost g = Done r →
  placed (flow_game r)
  ∧ match r with Go g2 => mode g2 = mode g | Return _ => True end.
Proof.
  intros Hpl Hp Ho.
  apply check_obstacles_cases in Ho
    as [(_ & ->)|[(h & _ & _ & ->)|(h & _ & _ & ->)]]; simpl.
  - done.
  - split; [|done]. by apply placed_clear_obstacle, placed_drop_shield.
  - split; [|done]. by apply placed_game_over.
Qed.

Lemma placed_check_food g rng g3 rng1 :
  placed g → check_food g rng = Done (g3, rng1) →
  placed g3 ∧ mode g3 = mode g.
Proof.
  intros Hpl Hf.
  apply check_food_cases in Hf as [(h & _ & _ & -> & _)|(_ & c & Hc & ->)];
    [done|].
  apply spawn_food_Done in Hc as (_ & Hob & Hg). simpl in Hob.
  split; [|done]. destruct Hpl. by constructor.
Qed.

Lemma placed_pick_up g h : placed g → placed (pick_up g h).
Proof.
  intros [].
  assert (Hsub : filter (λ p, pos p ≠ h) (powerups g) `sublist_of` powerups g)
    by apply sublist_filter.
  constructor; simpl; try done.
  - apply Forall_forall. intros p Hp.
    apply (elem_of_sublist _ _ _ Hp) in Hsub.
    by eapply Forall_forall in placed_powerups0.
  - eapply sublist_NoDup; [exact placed_powerups_apart0|apply sublist_fmap_2, Hsub].
  - intros t r [Hl|(p & Hp & <-)]%collected_lookup_Some; [eauto|].
    eapply Forall_forall in placed_powerups0 as [_ ->]; [lia|done].
Qed.

Lemma placed_move_tick g rng r rng1 :
  sound g → settled g → placed g → playing (mode g) = true →
  move_tick g rng = Done (r, rng1) →
  placed (flow_game r)
  ∧ match r with Go g2 => mode g2 = mode g | Return _ => True end.
Proof.
  intros Hs Hset Hpl Hp H.
  assert (Hs0 : sound (with_move_counter g 0)) by (by destruct Hs; constructor).
  assert (Hpl0 : placed (with_move_counter g 0))
    by (by apply placed_with_move_counter).
  apply move_tick_cases in H as [(g2 & Hm & -> & _)|(g2 & Hm & Ha)].
  - by apply (placed_move_snake _ _ _ Hs0 Hpl0 Hp) in Hm as [? _].
  - apply (placed_move_snake _ _ _ Hs0 Hpl0 Hp) in Hm as [Hpl2 Hm2].
    simpl in Hpl2, Hm2.
    apply after_move_cases in Ha
      as [(g3 & Ho & -> & _)|(g3 & g4 & h & Ho & Hf & Hh & ->)].
    + apply placed_check_obstacles in Ho as [? _]; [done|done|congruence].
    + apply placed_check_obstacles in Ho as [Hpl3 Hm3];
        [|done|congruence]. simpl in Hpl3, Hm3.
      apply (placed_check_food _ _ _ _ Hpl3) in Hf as [Hpl4 Hm4].
      simpl. split; [by apply placed_pick_up|congruence].
Qed.

Lemma spawn_powerup_cell g rng g' rng' :
  spawn_powerup g rng = Done (g', rng') →
  g' = g
  ∨ ∃ c t, field_free g c = true ∧ in_grid c
           ∧ g' = with_powerups g (powerups g ++ [mkPowerUp t c 300]).
Proof.
  unfold spawn_powerup. intros H.
  destruct (length (powerups g) <? 2)%nat.
  - right. apply bind_Done in H as (c & rng1 & Hc & H).
    apply bind_Done in H as (t & rng2 & Ht & H).
    apply ret_Done in H as [-> ->].
    apply sample_Done in Hc as [Hc Hg]. eauto.
  - left. by apply ret_Done in H as [-> ->].
Qed.

Lemma spawn_obstacles_cell g rng g' rng' :
  spawn_obstacles g rng = Done (g', rng') →
  g' = g
  ∨ (mode g = SURVIVAL
     ∧ Z.of_nat (length (obstacles g))
       < Z.of_nat (length (body (snake g))) `div` 5
     ∧ ∃ c, field_free g c = true ∧ in_grid c
            ∧ g' = with_obstacles g (obstacles g ++ [mkObstacle c])).
Proof.
  unfold spawn_obstacles, spawn_obstacle. intros H.
  destruct (bool_decide (mode g = SURVIVAL) && _ && _) eqn:Hc.
  - destruct (Z.of_nat (length (obstacles g)) <? _) eqn:Hlt.
    + right. apply andb_true_iff in Hc as [Hc _].
      apply andb_true_iff in Hc as [Hc _]. apply bool_decide_eq_true in Hc.
      apply Z.ltb_lt in Hlt. split_and!; [done..|].
      apply bind_Done in H as (c & rng1 & Hs & H).
      apply ret_Done in H as [-> ->].
      apply sample_Done in Hs as [Hs Hg]. eauto.
    + left. by apply ret_Done in H as [-> ->].
  - left. by apply ret_Done in H as [-> ->].
Qed.

Lemma placed_spawn_powerups g rng g' rng' :
  placed g → spawn_powerups g rng = Done (g', rng') →
  placed g' ∧ mode g' = mode g.
Proof.
  intros Hpl H.
  assert (Hc : ∀ n, placed (with_powerup_spawn_counter g n))
    by (by intros n; destruct Hpl; constructor).
  apply spawn_powerups_cases in H as [(_ & -> & _)|(_ & H)]; [done|].
  apply spawn_powerup_cell in H as [->|(c & t & Hf & Hg & ->)]; [done|].
  apply field_free_true in Hf as (_ & _ & Hp & _). simpl in Hp.
  split; [|done]. destruct (Hc 0) as []. simpl in *.
  constructor; simpl; try done.
  - apply Forall_app. split; [done|]. by apply Forall_singleton.
  - rewrite fmap_app. apply NoDup_app. split_and!; [done| |].
    + intros x Hx ->%list_elem_of_singleton. done.
    + apply NoDup_singleton.
Qed.

Lemma placed_spawn_obstacles g rng g' rng' :
  placed g → spawn_obstacles g rng = Done (g', rng') →
  placed g' ∧ mode g' = mode g.
Proof.
  intros Hpl H.
  apply spawn_obstacles_cell in H as [->|(Hm & Hlt & c & Hf & Hg & ->)];
    [done|].
  apply field_free_true in Hf as (_ & Hfood & _ & Ho).
  split; [|done]. destruct Hpl. constructor; simpl; try done.
  - apply Forall_app. split; [done|]. by apply Forall_singleton.
  - rewrite fmap_app. apply NoDup_app. split_and!; [done| |].
    + intros x Hx ->%list_elem_of_singleton. done.
    + apply NoDup_singleton.
  - rewrite fmap_app.
    intros [?|Heq%list_elem_of_singleton]%elem_of_app; [done|].
    by apply Hfood.
  - rewrite length_app. simpl. lia.
Qed.

Lemma placed_time_attack g :
  placed g → playing (mode g) = true → placed (time_attack g).
Proof.
  intros Hpl Hp.
  destruct (time_attack_cases g) as [(_ & ->)|[(_ & _ & ->)|(_ & _ & ->)]].
  - done.
  - by destruct Hpl; constructor.
  - apply placed_game_over; [done|]. by destruct Hpl; constructor.
Qed.

Lemma placed_end_of_tick g rng g' rng' :
  placed g → playing (mode g) = true →
  end_of_tick g rng = Done (g', rng') → placed g'.
Proof.
  intros Hpl Hp H.
  apply end_of_tick_cases in H as (g1 & rng1 & g2 & H1 & H2 & ->).
  apply (placed_spawn_powerups _ _ _ _ Hpl) in H1 as [Hpl1 Hm1].
  apply (placed_spawn_obstacles _ _ _ _ Hpl1) in H2 as [Hpl2 Hm2].
  apply placed_time_attack; [done|congruence].
Qed.

(** A tick keeps things in place. *)
Lemma placed_update g rng g' rng' :
  sound g → (playing (mode g) = true → settled g) → placed g →
  update g rng = Done (g', rng') → placed g'.
Proof.
  intros Hs Hset Hpl H. destruct (playing (mode g)) eqn:Hp.
  2:{ rewrite update_idle in H by done. by injection H as <- _. }
  specialize (Hset eq_refl).
  assert (Hplt : placed (ticked g))
    by (by apply placed_with_move_counter, placed_update_timers).
  apply update_cases in H; [|done].
  destruct H as [(frames & _ & _ & H)|(_ & r & rng1 & Hm & H)].
  - by apply placed_end_of_tick in H.
  - apply placed_move_tick in Hm; [|by apply sound_ticked|done..].
    destruct r as [g2|g2]; simpl in H, Hm.
    + destruct Hm as [Hpl2 Hm2]. apply placed_end_of_tick in H; [done..|].
      by rewrite Hm2.
    + apply ret_Done in H as [-> ->]. by destruct Hm.
Qed.

Lemma placed_reset_game g rng g' rng' :
  (mode g = GAME_OVER → ∃ m, last_mode g = Some m ∧ playing m = true) →
  reset_game g rng = Done (g', rng') →
  placed g' ∧ obstacles g' = [].
Proof.
  unfold reset_game. intros Hlast H.
  apply bind_Done in H as (c & rng1 & Hc & H). apply ret_Done in H as [-> ->].
  apply spawn_food_Done in Hc as (_ & _ & Hg).
  split; [|done]. constructor; simpl; try done.
  - constructor.
  - constructor.
  - intros Hin. by apply elem_of_nil in Hin.
  - intros h neck rest [= <- <- _]. done.
Qed.

Lemma placed_with_mode g m :
  placed g → m ≠ GAME_OVER → (playing m = true → obstacles g = []) →
  placed (with_mode g m).
Proof.
  intros [] Hm Ho. constructor; simpl; try done. intros Hp _. by apply Ho.
Qed.

Lemma placed_handle_key g key rng g' rng' :
  placed g → handle_key g key rng = Done (Some g', rng') → placed g'.
Proof.
  intros Hpl H.
  assert (Hstart : ∀ m, m ≠ GAME_OVER →
            start g m rng = Done (Some g', rng') → placed g').
  { intros m Hne Hst. unfold start in Hst.
    apply bind_Done in Hst as (g1 & rng1 & Hr & Hst).
    apply ret_Done in Hst as [[= ->] ->].
    by apply placed_reset_game in Hr as [? _]. }
  assert (Hturn : ∀ d, turn g d rng = Done (Some g', rng') → placed g').
  { intros d Ht. unfold turn in Ht.
    apply bind_Done in Ht as (s & rng1 & Hd & Ht).
    apply ret_Done in Ht as [[= ->] ->]. apply lift_Done in Hd as [Hd _].
    apply set_direction_cases in Hd as [->|[-> Hface]].
    - by destruct Hpl; constructor.
    - destruct Hpl. by constructor. }
  assert (Hsame : ret (Some g) rng = Done (Some g', rng') → placed g').
  { intros Hr. by apply ret_Done in Hr as [[= ->] _]. }
  assert (Hmenu : ret (Some (with_mode g MENU)) rng = Done (Some g', rng') →
            placed g').
  { intros Hr. apply ret_Done in Hr as [[= ->] _].
    by apply placed_with_mode. }
  unfold handle_key in H.
  destruct (mode g) eqn:Hm; destruct key; simpl in H;
    try (by apply Hsame); try (by eapply Hstart; [|exact H]);
    try (by apply Hmenu);
    try (by eapply Hturn); try (by apply ret_Done in H as [[=] _]).
  apply bind_Done in H as (g1 & rng1 & Hr & H).
  pose proof (placed_last_mode g Hpl Hm) as (m & Hl & Hp).
  pose proof Hr as Hr'. apply sound_reset_game in Hr' as (_ & _ & _ & Hl1).
  apply placed_reset_game in Hr as [Hpl1 Ho1]; [|by eauto].
  rewrite Hl1, Hl in H. apply ret_Done in H as [[= ->] _].
  apply placed_with_mode; [done|by intros ->|done].
Qed.

Lemma placed_handle_events events : ∀ g rng running g' rng',
  placed g → handle_events events g rng = Done (running, g', rng') →
  placed g'.
Proof.
  induction events as [|e events IH]; intros g rng running g' rng' Hpl H.
  - by apply ret_Done in H as [[= -> ->] _].
  - destruct e as [|key|]; simpl in H.
    + by apply ret_Done in H as [[= -> ->] _].
    + apply bind_Done in H as (r & rng1 & Hk & H). destruct r as [g1|].
      * apply (placed_handle_key _ _ _ _ _ Hpl) in Hk. eauto.
      * by apply ret_Done in H as [[= -> ->] _].
    + eauto.
Qed.

Lemma placed_init d rng g rng' : init d rng = Done (g, rng') → placed g.
Proof.
  unfold init. intros H.
  apply bind_Done in H as (g1 & rng1 & Hr & H). apply ret_Done in H as [-> ->].
  pose proof Hr as Hr'. apply sound_reset_game in Hr' as (_ & _ & Hm & _).
  apply placed_reset_game in Hr as [[] _]; [|done].
  by constructor.
Qed.

(** In every state of a run things are in place. *)
Lemma reachable_placed g : reachable g → placed g.
Proof.
  induction 1 as [d rng g rng' Hi|g events rng running g' rng' _ Hpl He
                  |g rng g' rng' Hr Hpl Hu].
  - by eapply placed_init.
  - by eapply placed_handle_events.
  - apply reachable_sound in Hr as [Hs Hset]. by eapply placed_update.
Qed.

End Placement.

(** ** The course of a tick *)

Section Course.

Import Game.

Lemma course_refl g : course 0 0 g g.
Proof.
  constructor; try done; try lia.
  rewrite Z.sub_diag. apply Z.divide_0_r.
Qed.

Lemma course_trans m1 n1 m2 n2 g g1 g2 :
  course m1 n1 g g1 → course m2 n2 g1 g2 → course (m1 + m2) (n1 + n2) g g2.
Proof.
  intros [] []. constructor; try congruence; try lia.
  replace (score g2 - score g)
    with ((score g2 - score g1) + (score g1 - score g)) by lia.
  by apply Z.divide_add_r.
Qed.

Lemma course_more m n m' g g2 : course m n g g2 → (m ≤ m')%nat → course m' n g g2.
Proof. intros [] Hm. constructor; try done. lia. Qed.

(** A statement that leaves all of this alone. *)
Lemma course_still g g2 :
  mode g2 = mode g → last_mode g2 = last_mode g →
  time_remaining g2 = time_remaining g → high_scores g2 = high_scores g →
  disk g2 = disk g → move_counter g2 = move_counter g →
  powerup_spawn_counter g2 = powerup_spawn_counter g →
  score g2 = score g → body (snake g2) = body (snake g) →
  grow_pending (snake g2) = grow_pending (snake g) →
  course 0 0 g g2.
Proof.
  intros ? ? ? ? ? ? ? Hsc Hb Hg. constructor; try done.
  - rewrite Hsc. lia.
  - rewrite Hsc, Z.sub_diag. apply Z.divide_0_r.
  - unfold due_length. rewrite Hb, Hg. lia.
  - rewrite Hb. lia.
  - by rewrite Hg.
Qed.

Lemma course_with_counters m n g g2 mc c :
  course m n g g2 →
  course m n (with_powerup_spawn_counter (with_move_counter g mc) c)
    (with_powerup_spawn_counter (with_move_counter g2 mc) c).
Proof. intros []. by constructor. Qed.

Lemma course_moved has_ghost g s :
  move_to has_ghost g s → course 1 0 g (with_snake g s).
Proof.
  intros (h & rest & Hb & _ & _ & Hshape)%move_to_shape.
  assert (Hlen : length (removelast (h :: rest)) = length rest)
    by apply length_removelast_cons.
  constructor; simpl; try done; try lia.
  - rewrite Z.sub_diag. apply Z.divide_0_r.
  - unfold due_length. simpl. rewrite Hb.
    destruct Hshape as [(_ & -> & ->)|(_ & -> & ->)];
      rewrite !length_cons, ?Hlen; lia.
  - rewrite Hb. destruct Hshape as [(_ & -> & _)|(_ & -> & _)];
      rewrite !length_cons, ?Hlen; lia.
Qed.

Lemma course_still_l m n g g1 g2 :
  course 0 0 g g1 → course m n g1 g2 → course m n g g2.
Proof. intros H1 H2. exact (course_trans 0 0 m n _ _ _ H1 H2). Qed.

Lemma course_still_r m n g g1 g2 :
  course m n g g1 → course 0 0 g1 g2 → course m n g g2.
Proof.
  intros H1 H2. pose proof (course_trans _ _ _ _ _ _ _ H1 H2) as H.
  by rewrite !Nat.add_0_r in H.
Qed.

Lemma course_move_snake has_ghost g r :
  move_snake has_ghost g = Done r →
  match r with
  | Go g2 => course 1 0 g g2
  | Return g2 => g2 = game_over g
  end.
Proof.
  intros [(s & Hm & ->)|[(_ & _ & ->)|(_ & _ & ->)]]%move_snake_cases.
  - by eapply course_moved.
  - apply (course_more 0); [|lia]. by apply course_still.
  - done.
Qed.

Lemma course_check_obstacles has_ghost g r :
  check_obstacles has_ghost g = Done r →
  match r with
  | Go g2 => course 0 0 g g2
  | Return g2 => g2 = game_over g
  end.
Proof.
  intros [(_ & ->)|[(h & _ & _ & ->)|(h & _ & _ & ->)]]%check_obstacles_cases.
  - apply course_refl.
  - by apply course_still.
  - done.
Qed.

Lemma course_check_food g rng g3 rng1 :
  check_food g rng = Done (g3, rng1) →
  ∃ meals, (meals ≤ 1)%nat ∧ course 0 meals g g3.
Proof.
  intros [(h & _ & _ & -> & _)|(_ & c & _ & ->)]%check_food_cases.
  - exists 0%nat. split; [lia|apply course_refl].
  - exists 1%nat. split; [lia|]. unfold eat.
    constructor; simpl; try done; try lia.
    + destruct (active _ MULTIPLIER); lia.
    + destruct (active _ MULTIPLIER); [exists 2|exists 1]; lia.
    + unfold due_length. simpl. lia.
Qed.

Lemma course_after_move has_ghost g rng r rng1 :
  after_move has_ghost g rng = Done (r, rng1) →
  match r with
  | Go g2 => ∃ meals, (meals ≤ 1)%nat ∧ course 0 meals g g2
  | Return g2 => g2 = game_over g
  end.
Proof.
  intros [(g2 & Ho & -> & _)|(g2 & g3 & h & Ho & Hf & Hh & ->)]%after_move_cases.
  - by apply course_check_obstacles in Ho.
  - apply course_check_obstacles in Ho.
    apply course_check_food in Hf as (meals & Hle & Hf).
    exists meals. split; [done|].
    eapply course_still_l; [exact Ho|].
    eapply course_still_r; [exact Hf|]. by apply course_still.
Qed.

Lemma course_move_tick g rng r rng1 :
  move_tick g rng = Done (r, rng1) →
  ∃ meals g2,
    (meals ≤ 1)%nat ∧ course 1 meals (with_move_counter g 0) g2
    ∧ (r = Return (game_over g2) ∧ meals = 0%nat ∨ r = Go g2).
Proof.
  intros [(g2 & Hm & -> & _)|(g2 & Hm & Ha)]%move_tick_cases.
  - apply course_move_snake in Hm. simpl in Hm.
    exists 0%nat, (with_move_counter g 0). split_and!; [lia| |left; by rewrite Hm].
    apply (course_more 0); [apply course_refl|lia].
  - apply course_move_snake in Hm. apply course_after_move in Ha.
    simpl in Hm. destruct r as [g3|g3].
    + destruct Ha as (meals & Hle & Ha). exists meals, g3.
      split_and!; [done| |by right].
      exact (course_trans 1 0 0 meals _ _ _ Hm Ha).
    + exists 0%nat, g2. split_and!; [lia|done|left; by rewrite Ha].
Qed.

Lemma course_spawn_powerups g rng g1 rng1 :
  spawn_powerups g rng = Done (g1, rng1) →
  course 0 0
    (with_powerup_spawn_counter g (next_spawn (powerup_spawn_counter g))) g1.
Proof.
  unfold next_spawn.
  intros [(Hlt & -> & _)|(Hle & H)]%spawn_powerups_cases.
  - rewrite (proj2 (Z.leb_gt _ _) Hlt). apply course_refl.
  - rewrite (proj2 (Z.leb_le _ _) Hle).
    apply spawn_powerup_cell in H as [->|(c & t & _ & _ & ->)];
      [apply course_refl|by apply course_still].
Qed.

Lemma course_spawn_obstacles g rng g1 rng1 :
  spawn_obstacles g rng = Done (g1, rng1) → course 0 0 g g1.
Proof.
  intros [->|(_ & _ & c & _ & _ & ->)]%spawn_obstacles_cell;
    [apply course_refl|by apply course_still].
Qed.

Lemma course_end_of_tick g rng g' rng' :
  end_of_tick g rng = Done (g', rng') →
  ∃ g2,
    course 0 0
      (with_powerup_spawn_counter g (next_spawn (powerup_spawn_counter g))) g2
    ∧ g' = time_attack g2.
Proof.
  intros (g1 & rng1 & g2 & H1 & H2 & ->)%end_of_tick_cases.
  exists g2. split; [|done].
  apply course_spawn_powerups in H1. apply course_spawn_obstacles in H2.
  exact (course_trans 0 0 0 0 _ _ _ H1 H2).
Qed.

Lemma course_with_spawn_counter m n g g2 c :
  course m n g g2 →
  course m n (with_powerup_spawn_counter g c) (with_powerup_spawn_counter g2 c).
Proof. intros []. by constructor. Qed.

(** A tick of a round, in outline: the frame counter [n] and the spawn
    counter [c] are set, the move block (when the move is due) and the
    spawns take their course to a session [g2], and the tick ends with
    [game_over] after a collision, or with the clock of Time Attack. *)
Lemma update_outline g rng g' rng' :
  playing (mode g) = true → update g rng = Done (g', rng') →
  ∃ moves meals n c g2,
    (meals ≤ moves ≤ 1)%nat
    ∧ course moves meals
        (with_powerup_spawn_counter (with_move_counter g n) c) g2
    ∧ (n = 0
       ∨ moves = 0%nat ∧ n = move_counter g + 1
         ∧ ∃ frames, frames_per_move (update_timers g) = Done frames
                     ∧ n < frames)
    ∧ (g' = game_over g2 ∧ meals = 0%nat
       ∧ c = powerup_spawn_counter g ∧ n = 0
       ∨ g' = time_attack g2 ∧ c = next_spawn (powerup_spawn_counter g)).
Proof.
  intros Hp H. apply update_cases in H; [|done].
  destruct H as [(frames & Hf & Hlt & H)|(_ & r & rng1 & Hm & H)].
  - apply course_end_of_tick in H as (g2 & Hc & ->).
    exists 0%nat, 0%nat, (move_counter g + 1),
      (next_spawn (powerup_spawn_counter g)), g2.
    split_and!; [lia|lia| |right; eauto|right; done].
    eapply course_still_l; [|exact Hc]. by apply course_still.
  - apply course_move_tick in Hm as (meals & g2 & Hle & Hc & Hr).
    destruct Hr as [[-> ->]| ->]; simpl in H.
    + apply ret_Done in H as [-> _].
      exists 1%nat, 0%nat, 0, (powerup_spawn_counter g), g2.
      split_and!; [lia|lia| |by left|left; done].
      eapply course_still_l; [|exact Hc]. by apply course_still.
    + apply course_end_of_tick in H as (g3 & Hc3 & ->).
      exists 1%nat, meals, 0, (next_spawn (powerup_spawn_counter g)), g3.
      split_and!; [done|lia| |by left|by right].
      assert (Hpsc : powerup_spawn_counter g2 = powerup_spawn_counter g)
        by (by destruct Hc).
      rewrite Hpsc in Hc3.
      eapply course_still_r; [|exact Hc3].
      eapply course_still_l;
        [|exact (course_with_spawn_counter _ _ _ _ _ Hc)].
      by apply course_still.
Qed.

End Course.

(** ** The numbers of a run *)

Section Tally.

Import Game.

Lemma cadence_le g : cadence g ≤ 7.
Proof.
  unfold cadence, speed_x20. change (FPS * 20) with 1200.
  apply Z.max_lub; [lia|].
  assert (Hx : 160 ≤ (if active g SPEED_BOOST then 240 else 160)
               + (if bool_decide (mode g = CLASSIC)
                  then Z.of_nat (length (body (snake g))) else 0)).
  { destruct (active g SPEED_BOOST), (bool_decide (mode g = CLASSIC)); lia. }
  etrans; [apply (Z.div_le_compat_l 1200 160); lia|]. done.
Qed.

Lemma with_time_remaining_same g : with_time_remaining g (time_remaining g) = g.
Proof. by destruct g. Qed.

Lemma tally_course m n g g2 : tally g → course m n g g2 → tally g2.
Proof.
  intros Ht Hc.
  pose proof (course_mode _ _ _ _ Hc) as Hm.
  pose proof (course_time _ _ _ _ Hc) as Htime.
  destruct Ht, Hc. constructor; try lia; try (by auto).
  - replace (score g2) with ((score g2 - score g) + score g) by lia.
    by apply Z.divide_add_r.
  - rewrite Hm, Htime. done.
  - rewrite Hm, Htime. done.
Qed.

Lemma tally_with_counters g n c :
  tally g → 0 ≤ n ≤ 6 → 0 ≤ c < FPS * 10 →
  tally (with_powerup_spawn_counter (with_move_counter g n) c).
Proof. intros [] ? ?. by constructor. Qed.

Lemma tally_game_over g t :
  tally g → 0 ≤ t ≤ 60 * FPS → tally (game_over (with_time_remaining g t)).
Proof.
  intros [] Ht. unfold game_over, save_high_scores.
  destruct (_ <? _); simpl; [destruct (writable (disk g))|];
    by constructor.
Qed.

Lemma tally_time_attack g :
  tally g → playing (mode g) = true → tally (time_attack g).
Proof.
  intros Ht Hp. pose proof (tally_clock g Ht Hp) as Hc.
  pose proof (tally_time g Ht) as Hr.
  destruct (time_attack_cases g) as [(_ & ->)|[(Hm & ? & ->)|(_ & ? & ->)]].
  - done.
  - destruct Ht. constructor; simpl; try done; lia.
  - apply tally_game_over; [done|lia].
Qed.

(** A tick keeps the numbers. *)
Lemma tally_update g rng g' rng' :
  sound g → tally g → update g rng = Done (g', rng') → tally g'.
Proof.
  intros Hs Ht H. destruct (playing (mode g)) eqn:Hp.
  2:{ rewrite update_idle in H by done. by injection H as <- _. }
  apply update_outline in H as (moves & meals & n & c & g2 & _ & Hc & Hn & H);
    [|done].
  assert (Hn6 : 0 ≤ n ≤ 6).
  { pose proof (tally_move_counter g Ht).
    destruct Hn as [->|(_ & -> & frames & Hf & Hlt)]; [lia|].
    rewrite (frames_per_move_floor _ (sound_update_timers _ Hs)) in Hf.
    injection Hf as <-. pose proof (cadence_le (update_timers g)). lia. }
  assert (Hc600 : 0 ≤ c < FPS * 10).
  { pose proof (tally_spawn_counter g Ht).
    destruct H as [(_ & _ & -> & _)|[_ ->]]; [done|].
    unfold next_spawn. destruct (FPS * 10 <=? _) eqn:Hle; [done|].
    apply Z.leb_gt in Hle. lia. }
  pose proof (tally_course _ _ _ _ (tally_with_counters _ _ _ Ht Hn6 Hc600) Hc)
    as Ht2.
  destruct H as [(-> & _)|[-> _]].
  - rewrite <- (with_time_remaining_same g2).
    apply tally_game_over; [done|]. by destruct Ht2.
  - apply tally_time_attack; [done|]. by rewrite (course_mode _ _ _ _ Hc).
Qed.

Lemma tally_reset_game g rng g' rng' :
  reset_game g rng = Done (g', rng') →
  tally g' ∧ time_remaining g' = 60 * FPS.
Proof.
  unfold reset_game. intros H.
  apply bind_Done in H as (c & rng1 & _ & H). apply ret_Done in H as [-> ->].
  split; [|done]. constructor; simpl; try done.
  exists 0. lia.
Qed.

Lemma tally_with_mode g m :
  tally g → (playing m = true → time_remaining g = 60 * FPS) →
  tally (with_mode g m).
Proof.
  intros [] Hm. constructor; simpl; try done.
  - intros Hp. rewrite (Hm Hp). done.
  - intros Hp _. by apply Hm.
Qed.

Lemma tally_handle_key g key rng g' rng' :
  tally g → handle_key g key rng = Done (Some g', rng') → tally g'.
Proof.
  intros Ht H.
  assert (Hstart : ∀ m, start g m rng = Done (Some g', rng') → tally g').
  { intros m Hst. unfold start in Hst.
    apply bind_Done in Hst as (g1 & rng1 & Hr & Hst).
    apply ret_Done in Hst as [[= ->] ->].
    by apply tally_reset_game in Hr as [? _]. }
  assert (Hturn : ∀ d, turn g d rng = Done (Some g', rng') → tally g').
  { intros d Hd. unfold turn in Hd.
    apply bind_Done in Hd as (s & rng1 & Hd & Hr).
    apply ret_Done in Hr as [[= ->] ->]. apply lift_Done in Hd as [Hd _].
    apply set_direction_body in Hd as (Hb & _ & Hg).
    destruct Ht. unfold due_length in *.
    constructor; unfold due_length; simpl; rewrite ?Hb, ?Hg; done. }
  assert (Hsame : ret (Some g) rng = Done (Some g', rng') → tally g').
  { intros Hr. by apply ret_Done in Hr as [[= ->] _]. }
  assert (Hmenu : ret (Some (with_mode g MENU)) rng = Done (Some g', rng') →
            tally g').
  { intros Hr. apply ret_Done in Hr as [[= ->] _].
    by apply tally_with_mode. }
  unfold handle_key in H.
  destruct (mode g) eqn:Hm; destruct key; simpl in H;
    try (by apply Hsame); try (by eapply Hstart); try (by apply Hmenu);
    try (by eapply Hturn); try (by apply ret_Done in H as [[=] _]).
  apply bind_Done in H as (g1 & rng1 & Hr & H).
  apply tally_reset_game in Hr as [Ht1 Htime].
  destruct (last_mode g1); [|by apply lift_Done in H as [[=] _]].
  apply ret_Done in H as [[= ->] _]. by apply tally_with_mode.
Qed.

Lemma tally_handle_events events : ∀ g rng running g' rng',
  tally g → handle_events events g rng = Done (running, g', rng') → tally g'.
Proof.
  induction events as [|e events IH]; intros g rng running g' rng' Ht H.
  - by apply ret_Done in H as [[= -> ->] _].
  - destruct e as [|key|]; simpl in H.
    + by apply ret_Done in H as [[= -> ->] _].
    + apply bind_Done in H as (r & rng1 & Hk & H). destruct r as [g1|].
      * apply (tally_handle_key _ _ _ _ _ Ht) in Hk. eauto.
      * by apply ret_Done in H as [[= -> ->] _].
    + eauto.
Qed.

Lemma tally_init d rng g rng' : init d rng = Done (g, rng') → tally g.
Proof.
  unfold init. intros H.
  apply bind_Done in H as (g1 & rng1 & Hr & H). apply ret_Done in H as [-> ->].
  apply tally_reset_game in Hr as [[] _]. by constructor.
Qed.

(** In every state of a run the numbers are in their ranges. *)
Lemma reachable_tally g : reachable g → tally g.
Proof.
  induction 1 as [d rng g rng' Hi|g events rng running g' rng' _ Ht He
                  |g rng g' rng' Hr Ht Hu].
  - by eapply tally_init.
  - by eapply tally_handle_events.
  - apply reachable_sound in Hr as [Hs _]. by eapply tally_update.
Qed.

End Tally.

(** ** A run raises nothing *)

Section Safe.

Import Game.

Lemma reset_game_not_Raised g rng e : reset_game g rng ≠ Raised e.
Proof.
  unfold reset_game. intros [H|(c & rng1 & _ & H)]%bind_Raised; [|done].
  by apply sample_loop_not_Raised in H.
Qed.

Lemma set_direction_total s d :
  body s ≠ [] → ∃ s', Snake.set_direction s d = Done s'.
Proof.
  unfold Snake.set_direction, Snake.get_head.
  destruct (body s) as [|h [|neck rest]]; [done| |]; intros _; simpl; [eauto|].
  case_bool_decide; eauto.
Qed.

Lemma handle_key_not_Raised g key rng e :
  sound g → placed g → handle_key g key rng ≠ Raised e.
Proof.
  intros Hs Hpl H.
  assert (Hstart : ∀ m, start g m rng ≠ Raised e).
  { intros m [Hr|(g1 & rng1 & _ & Hr)]%bind_Raised; [|done].
    by apply reset_game_not_Raised in Hr. }
  assert (Hturn : ∀ d, turn g d rng ≠ Raised e).
  { intros d. unfold turn, bind, lift.
    destruct (set_direction_total (snake g) d (sound_head g Hs)) as [s ->].
    done. }
  unfold handle_key in H.
  destruct (mode g) eqn:Hm; destruct key; simpl in H;
    try done; try (by eapply Hstart); try (by eapply Hturn).
  apply bind_Raised in H as [H|(g1 & rng1 & Hr & H)];
    [by apply reset_game_not_Raised in H|].
  apply sound_reset_game in Hr as (_ & _ & _ & Hl).
  destruct (placed_last_mode g Hpl Hm) as (m & Hlm & _).
  by rewrite Hl, Hlm in H.
Qed.

Lemma handle_events_not_Raised events : ∀ g rng e,
  sound g → (playing (mode g) = true → settled g) → placed g →
  handle_events events g rng ≠ Raised e.
Proof.
  induction events as [|ev events IH]; intros g rng e Hs Hset Hpl H; [done|].
  destruct ev as [|key|]; simpl in H; [done| |by eapply IH].
  apply bind_Raised in H as [H|(r & rng1 & Hk & H)];
    [by apply handle_key_not_Raised in H|].
  destruct r as [g1|]; [|done].
  pose proof (sound_handle_key _ _ _ _ _ Hs Hset Hk) as [Hs1 Hset1].
  pose proof (placed_handle_key _ _ _ _ _ Hpl Hk) as Hpl1.
  by eapply IH.
Qed.

Lemma run_not_Raised frames : ∀ g rng e,
  reachable g → run frames g rng ≠ Raised e.
Proof.
  induction frames as [|events frames IH]; intros g rng e Hr H; [done|].
  simpl in H.
  apply bind_Raised in H as [H|([running g1] & rng1 & He & H)].
  { pose proof (reachable_sound g Hr) as [Hs Hset].
    by apply handle_events_not_Raised in H; [| | |apply reachable_placed]. }
  assert (Hr1 : reachable g1) by (by eapply reachable_events).
  simpl in H.
  apply bind_Raised in H as [H|(g2 & rng2 & Hu & H)];
    [by apply update_never_raises in H|].
  assert (Hr2 : reachable g2) by (by eapply reachable_update).
  destruct running; [by eapply IH|done].
Qed.

End Safe.

(** ** What holds in every state of a run *)

Section RunTheorems.

Import Game.

Lemma veteran_reachable : reachable veteran.
Proof.
  apply (run_reachable veteran_frames menu_start veteran_draws veteran []).
  - apply menu_start_reachable.
  - vm_compute. reflexivity.
Qed.

Lemma veteran_over_reachable : reachable veteran_over.
Proof.
  apply (run_reachable (idle 119) veteran [] veteran_over []).
  - apply veteran_reachable.
  - vm_compute. reflexivity.
Qed.

Lemma shield_on_field_reachable : reachable shield_on_field.
Proof.
  apply (run_reachable shield_on_field_frames menu_start shield_draws
           shield_on_field []).
  - apply menu_start_reachable.
  - vm_compute. reflexivity.
Qed.

Lemma racing_reachable : reachable racing.
Proof.
  apply (reachable_events menu_start [KEYDOWN K_2] [0; 0] true racing []).
  - apply menu_start_reachable.
  - vm_compute. reflexivity.
Qed.

(** X3. In every state of a run the snake has between 3 and 1200 cells,
    all of them cells of the grid and no two the same, and the growth
    it is still due is not negative. *)
Theorem snake_well_formed (g : Game) :
  reachable g →
  (3 ≤ length (body (snake g)) ≤ 1200)%nat
  ∧ NoDup (body (snake g))
  ∧ Forall in_grid (body (snake g))
  ∧ 0 ≤ grow_pending (snake g).
Proof.
  intros Hr. pose proof (reachable_sound g Hr) as [Hs _].
  pose proof (reachable_tally g Hr) as Ht.
  split_and!.
  - apply Ht.
  - by apply sound_length.
  - apply Hs.
  - apply Hs.
  - apply Ht.
Qed.

Lemma snake_well_formed_witness :
  reachable veteran
  ∧ (3 ≤ length (body (snake veteran)) ≤ 1200)%nat
  ∧ NoDup (body (snake veteran))
  ∧ Forall in_grid (body (snake veteran))
  ∧ 0 ≤ grow_pending (snake veteran).
Proof.
  split; [exact veteran_reachable|].
  exact (snake_well_formed veteran veteran_reachable).
Defined.

(** X4. In every state of a run the food is on a cell of the grid that
    holds no obstacle, and between the ticks of a round it is not under
    the snake. *)
Theorem food_placed (g : Game) :
  reachable g →
  in_grid (food_pos g)
  ∧ (food_pos g ∉ opos <$> obstacles g)
  ∧ (playing (mode g) = true → food_pos g ∉ body (snake g)).
Proof.
  intros Hr. pose proof (reachable_placed g Hr) as Hpl.
  pose proof (reachable_sound g Hr) as [_ Hset].
  split_and!; [apply Hpl..|].
  intros Hp. by destruct (Hset Hp).
Qed.

Lemma food_placed_witness :
  reachable veteran
  ∧ in_grid (food_pos veteran)
  ∧ (food_pos veteran ∉ opos <$> obstacles veteran)
  ∧ (playing (mode veteran) = true → food_pos veteran ∉ body (snake veteran)).
Proof.
  split; [exact veteran_reachable|].
  exact (food_placed veteran veteran_reachable).
Defined.

(** X5. In every state of a run the obstacles are on cells of the grid,
    no two on the same cell, at most one for every five cells of the
    snake, and a round of Classic or Time Attack has none. *)
Theorem obstacles_placed (g : Game) :
  reachable g →
  Forall (λ o, in_grid (opos o)) (obstacles g)
  ∧ NoDup (opos <$> obstacles g)
  ∧ Z.of_nat (length (obstacles g))
    ≤ Z.of_nat (length (body (snake g))) `div` 5
  ∧ (length (obstacles g) ≤ 240)%nat
  ∧ (playing (mode g) = true → mode g ≠ SURVIVAL → obstacles g = []).
Proof.
  intros Hr. pose proof (reachable_placed g Hr) as Hpl.
  pose proof (reachable_sound g Hr) as [Hs _].
  pose proof (sound_length g Hs) as Hlen.
  pose proof (placed_count g Hpl) as Hc.
  split_and!; [apply Hpl..| |apply Hpl].
  assert (Z.of_nat (length (body (snake g))) `div` 5 ≤ 1200 `div` 5)
    by (apply Z.div_le_mono; lia).
  change (1200 `div` 5) with 240 in *. lia.
Qed.

Lemma obstacles_placed_witness :
  reachable veteran
  ∧ obstacles veteran = [mkObstacle (30, 10)]
  ∧ Z.of_nat (length (obstacles veteran))
    ≤ Z.of_nat (length (body (snake veteran))) `div` 5.
Proof.
  split; [exact veteran_reachable|]. split; [reflexivity|].
  exact (proj1 (proj2 (proj2 (obstacles_placed veteran veteran_reachable)))).
Defined.

(** X6. In every state of a run the power-ups on the field are on cells
    of the grid, no two on the same cell, none on an obstacle, each with
    the duration 300; between the ticks of a round none is under the
    snake. *)
Theorem powerups_placed (g : Game) :
  reachable g →
  Forall (λ p, in_grid (pos p) ∧ duration p = 300) (powerups g)
  ∧ NoDup (pos <$> powerups g)
  ∧ (∀ p, p ∈ powerups g → pos p ∉ opos <$> obstacles g)
  ∧ (playing (mode g) = true →
     ∀ p, p ∈ powerups g → pos p ∉ body (snake g)).
Proof.
  intros Hr. pose proof (reachable_placed g Hr) as Hpl.
  pose proof (reachable_sound g Hr) as [Hs Hset].
  split_and!; [apply Hpl..|apply Hs|].
  intros Hp. by destruct (Hset Hp).
Qed.

Lemma powerups_placed_witness :
  reachable shield_on_field
  ∧ powerups shield_on_field = [mkPowerUp SHIELD (22, 15) 300]
  ∧ Forall (λ p, in_grid (pos p) ∧ duration p = 300) (powerups shield_on_field)
  ∧ (playing (mode shield_on_field) = true →
     ∀ p, p ∈ powerups shield_on_field → pos p ∉ body (snake shield_on_field)).
Proof.
  split; [exact shield_on_field_reachable|]. split; [reflexivity|].
  pose proof (powerups_placed shield_on_field shield_on_field_reachable)
    as (Hf & _ & _ & Hb).
  split; [exact Hf|exact Hb].
Defined.

(** X7. In every state of a run a timer in [active_powerups] is between
    1 and 300. *)
Theorem timers_bounded (g : Game) (t : PowerUpType) (r : Z) :
  reachable g → active_powerups (snake g) !! t = Some r → 0 < r ≤ 300.
Proof. intros Hr Hl. exact (placed_timers g (reachable_placed g Hr) t r Hl). Qed.

Lemma timers_bounded_witness :
  reachable shield_state
  ∧ active_powerups (snake shield_state) !! SHIELD = Some 175
  ∧ 0 < 175 ≤ 300.
Proof.
  split; [exact shield_state_reachable|]. split; [reflexivity|].
  exact (timers_bounded shield_state SHIELD 175 shield_state_reachable eq_refl).
Defined.

(** X8. In every state of a run the snake has a head and a neck, and its
    direction does not point from the head to the neck: whatever keys
    were pressed between two moves, a move without Ghost is blocked only
    by a wall or by a cell of the snake behind the neck. *)
Theorem never_facing_neck (g : Game) :
  reachable g →
  ∃ h neck rest,
    body (snake g) = h :: neck :: rest
    ∧ Snake.step_cell h (direction (snake g)) ≠ neck
    ∧ (∀ s', Snake.move (snake g) false = Done (false, s') →
         ¬ in_grid (Snake.step_cell h (direction (snake g)))
         ∨ Snake.step_cell h (direction (snake g)) ∈ rest).
Proof.
  intros Hr. pose proof (reachable_placed g Hr) as Hpl.
  pose proof (tally_length g (reachable_tally g Hr)) as Hlen.
  destruct (body (snake g)) as [|h [|neck rest]] eqn:Hb;
    [simpl in Hlen; lia..|].
  exists h, neck, rest.
  pose proof (placed_facing g Hpl h neck rest Hb) as Hface.
  split_and!; [done..|].
  intros s' Hm.
  assert (Hh : Snake.get_head (snake g) = Done h)
    by (apply get_head_body; eauto).
  rewrite (move_unfold _ _ _ Hh) in Hm. simpl in Hm.
  destruct (Snake.out_of_grid _) eqn:Hout.
  - left. intros Hg%out_of_grid_false. congruence.
  - right. injection Hm as Hm. apply advance_blocked in Hm as [_ Hin].
    rewrite Hb in Hin. simpl in Hin.
    apply elem_of_cons in Hin as [Heq|Hin]; [done|done].
Qed.

Lemma never_facing_neck_witness :
  reachable veteran
  ∧ ∃ h neck rest,
      body (snake veteran) = h :: neck :: rest
      ∧ Snake.step_cell h (direction (snake veteran)) ≠ neck
      ∧ (∀ s', Snake.move (snake veteran) false = Done (false, s') →
           ¬ in_grid (Snake.step_cell h (direction (snake veteran)))
           ∨ Snake.step_cell h (direction (snake veteran)) ∈ rest).
Proof.
  split; [exact veteran_reachable|].
  exact (never_facing_neck veteran veteran_reachable).
Defined.

Lemma move_due_at_six g :
  sound g → playing (mode g) = true → move_counter g = 6 → move_due g.
Proof.
  intros Hs Hp Hmc. exists (cadence (update_timers g)). split.
  - apply frames_per_move_floor, sound_update_timers, Hs.
  - pose proof (cadence_le (update_timers g)). lia.
Qed.

(** X9. In every state of a run the spawn counter is between 0 and 599,
    the frame counter between 0 and 6, and the clock between 0 and 3600;
    in a round the clock is positive, and it stands at 3600 outside Time
    Attack. A round in which the frame counter stands at 6 moves the
    snake at its next tick. *)
Theorem counters_bounded (g : Game) :
  reachable g →
  0 ≤ powerup_spawn_counter g < 600
  ∧ 0 ≤ move_counter g ≤ 6
  ∧ 0 ≤ time_remaining g ≤ 3600
  ∧ (playing (mode g) = true → 0 < time_remaining g)
  ∧ (playing (mode g) = true → mode g ≠ TIME_ATTACK → time_remaining g = 3600)
  ∧ (playing (mode g) = true → move_counter g = 6 → move_due g).
Proof.
  intros Hr. pose proof (reachable_tally g Hr) as Ht.
  pose proof (reachable_sound g Hr) as [Hs _].
  split_and!; [apply Ht..|].
  by apply move_due_at_six.
Qed.

Lemma counters_bounded_witness :
  reachable shield_state
  ∧ powerup_spawn_counter shield_state = 127
  ∧ move_counter shield_state = 6
  ∧ move_due shield_state.
Proof.
  split; [exact shield_state_reachable|]. split; [reflexivity|].
  split; [reflexivity|].
  destruct (counters_bounded shield_state shield_state_reachable)
    as (_ & _ & _ & _ & _ & Hdue).
  exact (Hdue eq_refl eq_refl).
Defined.

(** X10. In every state of a run the score is a multiple of 10, and
    every cell the snake has or is still due beyond its first three
    brought 10 or 20 points: with [n] such cells the score is between
    [10 * n] and [20 * n]. *)
Theorem score_bounds (g : Game) :
  reachable g →
  (10 | score g)
  ∧ 10 * (due_length g - 3) ≤ score g ≤ 20 * (due_length g - 3)
  ∧ 0 ≤ score g.
Proof.
  intros Hr. pose proof (reachable_tally g Hr) as Ht.
  split_and!; [apply Ht..|].
  pose proof (tally_score g Ht). pose proof (tally_length g Ht).
  pose proof (tally_pending g Ht). unfold due_length in *. lia.
Qed.

Lemma score_bounds_witness :
  reachable veteran
  ∧ score veteran = 20 ∧ due_length veteran = 5
  ∧ 10 * (due_length veteran - 3) ≤ score veteran
    ≤ 20 * (due_length veteran - 3).
Proof.
  split; [exact veteran_reachable|]. split; [reflexivity|].
  split; [reflexivity|].
  exact (proj1 (proj2 (score_bounds veteran veteran_reachable))).
Defined.

(** X11. A run raises no exception, whatever the events and the draws,
    on a score file that is missing, unreadable or a table of integers:
    not in [__init__], not in [handle_events], not in [update]. (The
    [AttributeError] of [last_mode], the [ValueError] of [list.remove],
    the [IndexError] of an empty body and the division by a zero speed
    are out of reach; a call returns, or it is still drawing candidates
    when the draws end.) *)
Theorem run_never_raises (d : Disk) (frames : list (list Event))
    (rng : list Z) (e : exn) :
  bind (init d) (run frames) rng ≠ Raised e.
Proof.
  intros [H|(g & rng1 & Hi & H)]%bind_Raised.
  - unfold init in H.
    apply bind_Raised in H as [H|(g1 & rng1 & _ & H)]; [|done].
    by apply reset_game_not_Raised in H.
  - apply run_not_Raised in H; [done|]. by eapply reachable_init.
Qed.

End RunTheorems.

(** ** What a tick changes *)

Section TickSteps.

Import Game.

Lemma game_over_board g :
  score (game_over g) = score g
  ∧ time_remaining (game_over g) = time_remaining g
  ∧ last_mode (game_over g) = Some (mode g)
  ∧ snake (game_over g) = snake g.
Proof.
  unfold game_over, save_high_scores.
  destruct (_ <? _); simpl; [destruct (writable (disk g))|]; done.
Qed.

Lemma time_attack_board g :
  score (time_attack g) = score g ∧ snake (time_attack g) = snake g.
Proof.
  destruct (time_attack_cases g) as [(_ & ->)|[(_ & _ & ->)|(_ & _ & ->)]];
    [done..|].
  by destruct (game_over_board (with_time_remaining g (time_remaining g - 1)))
    as (-> & _ & _ & ->).
Qed.

Lemma game_over_best g k :
  default 0 (high_scores g !! k) ≤ default 0 (high_scores (game_over g) !! k).
Proof.
  unfold game_over. simpl.
  destruct (default 0 (high_scores g !! lower (mode_name (mode g))) <? score g)
    eqn:Hlt; [|done].
  apply Z.ltb_lt in Hlt.
  assert (Hk : default 0 (high_scores g !! k)
               ≤ default 0 (<[lower (mode_name (mode g)) := score g]>
                              (high_scores g) !! k)).
  { destruct (decide (k = lower (mode_name (mode g)))) as [->|Hne].
    - rewrite lookup_insert_eq. simpl. lia.
    - by rewrite lookup_insert_ne. }
  unfold save_high_scores. simpl. by destruct (writable (disk g)).
Qed.

(** What the end of a tick makes of the session on which the course of
    the tick ended. *)
Lemma update_end g rng g' rng' :
  playing (mode g) = true → update g rng = Done (g', rng') →
  ∃ moves meals g2,
    (meals ≤ moves ≤ 1)%nat
    ∧ mode g2 = mode g ∧ last_mode g2 = last_mode g
    ∧ time_remaining g2 = time_remaining g
    ∧ high_scores g2 = high_scores g ∧ disk g2 = disk g
    ∧ score g + 10 * Z.of_nat meals ≤ score g2 ≤ score g + 20 * Z.of_nat meals
    ∧ (10 | score g2 - score g)
    ∧ due_length g2 = due_length g + Z.of_nat meals
    ∧ (length (body (snake g)) ≤ length (body (snake g2))
       ≤ length (body (snake g)) + moves)%nat
    ∧ (g' = game_over g2 ∧ meals = 0%nat ∨ g' = time_attack g2).
Proof.
  intros Hp H.
  apply update_outline in H as (moves & meals & n & c & g2 & Hle & Hc & _ & H);
    [|done].
  exists moves, meals, g2. destruct Hc, Hle. simpl in *.
  split_and!; try done; try lia.
  destruct H as [(-> & -> & _)|[-> _]]; [by left|by right].
Qed.

(** X12. A tick leaves the score as it is, or adds 10 or 20 to it; in
    the second case, and only then, the length the snake has or is still
    to grow to is up by one. *)
Theorem score_step (g : Game) (rng : list Z) (g' : Game) (rng' : list Z) :
  update g rng = Done (g', rng') →
  (score g' = score g ∧ due_length g' = due_length g)
  ∨ ((score g' = score g + 10 ∨ score g' = score g + 20)
     ∧ due_length g' = due_length g + 1).
Proof.
  intros H. destruct (playing (mode g)) eqn:Hp.
  2:{ rewrite update_idle in H by done. injection H as <- _. by left. }
  apply update_end in H
    as (moves & meals & g2 & Hle & _ & _ & _ & _ & _ & Hsc & [k Hk] & Hdue
        & _ & Hend); [|done].
  assert (Hsame : score g' = score g2 ∧ due_length g' = due_length g2).
  { unfold due_length. destruct Hend as [[-> _]| ->].
    - by destruct (game_over_board g2) as (-> & _ & _ & ->).
    - by destruct (time_attack_board g2) as (-> & ->). }
  destruct Hsame as [-> ->].
  destruct meals as [|[|meals]]; [left|right|]; lia.
Qed.

Lemma score_step_witness :
  update hungry [22; 15] = Done (fed_once, [])
  ∧ score hungry = 0 ∧ score fed_once = 10
  ∧ ((score fed_once = score hungry ∧ due_length fed_once = due_length hungry)
     ∨ ((score fed_once = score hungry + 10 ∨ score fed_once = score hungry + 20)
        ∧ due_length fed_once = due_length hungry + 1)).
Proof.
  assert (Hu : update hungry [22; 15] = Done (fed_once, []))
    by (vm_compute; reflexivity).
  split_and!; [exact Hu|reflexivity|reflexivity|].
  exact (score_step hungry [22; 15] fed_once [] Hu).
Defined.

(** X13. A tick never shortens the snake and never adds more than one
    cell to it. *)
Theorem length_step (g : Game) (rng : list Z) (g' : Game) (rng' : list Z) :
  update g rng = Done (g', rng') →
  length (body (snake g')) = length (body (snake g))
  ∨ length (body (snake g')) = S (length (body (snake g))).
Proof.
  intros H. destruct (playing (mode g)) eqn:Hp.
  2:{ rewrite update_idle in H by done. injection H as <- _. by left. }
  apply update_end in H
    as (moves & meals & g2 & Hle & _ & _ & _ & _ & _ & _ & _ & _
        & Hlen & Hend); [|done].
  assert (Hsame : snake g' = snake g2).
  { destruct Hend as [[-> _]| ->].
    - by destruct (game_over_board g2) as (_ & _ & _ & ->).
    - by destruct (time_attack_board g2) as (_ & ->). }
  rewrite Hsame. lia.
Qed.

Lemma length_step_witness :
  update (with_powerup_spawn_counter (with_move_counter fed_once 6) 13) [0; 0]
  = Done (mkGame SURVIVAL None
            (mkSnake [(22, 15); (21, 15); (20, 15); (19, 15)] RIGHT 1 ∅)
            20 0 8 1%float [] [] (60 * FPS) 14 (0, 0)
            default_high_scores (mkDisk None true), [])
  ∧ length (body (snake fed_once)) = 3%nat
  ∧ (4 = length (body (snake (with_powerup_spawn_counter
                                (with_move_counter fed_once 6) 13)))
     ∨ 4 = S (length (body (snake (with_powerup_spawn_counter
                                     (with_move_counter fed_once 6) 13)))))%nat.
Proof.
  assert (Hu : update (with_powerup_spawn_counter
                         (with_move_counter fed_once 6) 13) [0; 0]
               = Done (mkGame SURVIVAL None
                         (mkSnake [(22, 15); (21, 15); (20, 15); (19, 15)]
                            RIGHT 1 ∅)
                         20 0 8 1%float [] [] (60 * FPS) 14 (0, 0)
                         default_high_scores (mkDisk None true), []))
    by (vm_compute; reflexivity).
  split_and!; [exact Hu|reflexivity|].
  exact (length_step _ [0; 0] _ [] Hu).
Defined.

(** X14. A tick of a round either leaves the mode as it is, and then
    the clock is one less in Time Attack (where more than one tick was
    left) and untouched in Classic and Survival; or it ends the round,
    [last_mode] holding the mode that ended, the clock untouched by a
    collision and on zero when it ran out. *)
Theorem clock_step (g : Game) (rng : list Z) (g' : Game)
    (rng' : list Z) :
  playing (mode g) = true → update g rng = Done (g', rng') →
  (mode g' = mode g
   ∧ time_remaining g'
     = (if bool_decide (mode g = TIME_ATTACK)
        then time_remaining g - 1 else time_remaining g)
   ∧ (mode g = TIME_ATTACK → 1 < time_remaining g))
  ∨ (mode g' = GAME_OVER ∧ last_mode g' = Some (mode g)
     ∧ (time_remaining g' = time_remaining g
        ∨ mode g = TIME_ATTACK ∧ time_remaining g ≤ 1
          ∧ time_remaining g' = time_remaining g - 1)).
Proof.
  intros Hp H.
  apply update_end in H
    as (moves & meals & g2 & _ & Hm & _ & Ht & _ & _ & _ & _ & _ & _ & Hend);
    [|done].
  destruct Hend as [[-> _]| ->].
  - right. destruct (game_over_board g2) as (_ & -> & -> & _).
    rewrite mode_game_over, Hm, Ht. split_and!; [done..|by left].
  - destruct (time_attack_cases g2)
      as [(Hn & ->)|[(Hta & Hlt & ->)|(Hta & Hle & ->)]].
    + left. rewrite Hm in *. rewrite bool_decide_eq_false_2 by done. done.
    + left. rewrite Hm, Ht in *. rewrite bool_decide_eq_true_2 by done.
      simpl. done.
    + right.
      destruct (game_over_board (with_time_remaining g2 (time_remaining g2 - 1)))
        as (_ & -> & -> & _).
      rewrite mode_game_over. simpl. rewrite Hm, Ht in *.
      split_and!; [done..|]. right. done.
Qed.

Lemma clock_step_witness :
  playing (mode racing) = true
  ∧ update racing []
    = Done (with_time_remaining
              (with_powerup_spawn_counter (with_move_counter racing 1) 1)
              3599, [])
  ∧ time_remaining racing = 3600
  ∧ 1 < time_remaining racing.
Proof.
  assert (Hu : update racing []
               = Done (with_time_remaining
                         (with_powerup_spawn_counter
                            (with_move_counter racing 1) 1) 3599, []))
    by (vm_compute; reflexivity).
  split_and!; [reflexivity|exact Hu|reflexivity|].
  destruct (clock_step racing [] _ [] eq_refl Hu)
    as [(_ & _ & Hlt)|(Hm & _)].
  - exact (Hlt eq_refl).
  - discriminate Hm.
Defined.

Lemma time_attack_tick g rng g' rng' :
  mode g = TIME_ATTACK → update g rng = Done (g', rng') →
  (mode g' = TIME_ATTACK ∧ time_remaining g' = time_remaining g - 1
   ∧ 1 < time_remaining g)
  ∨ (mode g' = GAME_OVER ∧ last_mode g' = Some TIME_ATTACK).
Proof.
  intros Hta H.
  apply update_end in H
    as (moves & meals & g2 & _ & Hm & _ & Ht & _ & _ & _ & _ & _ & _ & Hend);
    [|by rewrite Hta].
  rewrite Hta in Hm.
  destruct Hend as [[-> _]| ->].
  - right. destruct (game_over_board g2) as (_ & _ & -> & _).
    by rewrite mode_game_over, Hm.
  - destruct (time_attack_cases g2)
      as [(Hn & ->)|[(_ & Hlt & ->)|(_ & Hle & ->)]]; [done| |].
    + left. simpl. rewrite Hm, Ht in *. done.
    + right.
      destruct (game_over_board (with_time_remaining g2 (time_remaining g2 - 1)))
        as (_ & _ & -> & _).
      rewrite mode_game_over. simpl. by rewrite Hm.
Qed.

Lemma time_attack_runs_out n : ∀ g rng g' rng',
  (mode g = GAME_OVER ∧ last_mode g = Some TIME_ATTACK)
  ∨ (mode g = TIME_ATTACK ∧ 0 < time_remaining g ≤ Z.of_nat n) →
  updates n g rng = Done (g', rng') →
  mode g' = GAME_OVER ∧ last_mode g' = Some TIME_ATTACK.
Proof.
  induction n as [|n IH]; intros g rng g' rng' Hg H.
  - apply ret_Done in H as [-> _]. destruct Hg as [?|[_ ?]]; [done|lia].
  - simpl in H. apply bind_Done in H as (g1 & rng1 & Hu & H).
    apply (IH _ _ _ _) in H; [done|].
    destruct Hg as [[Hm Hl]|[Hm Ht]].
    + rewrite update_idle in Hu by (by rewrite Hm).
      injection Hu as <- _. by left.
    + apply (time_attack_tick _ _ _ _ Hm) in Hu as [(? & ? & ?)|?];
        [right; split; [done|lia]|by left].
Qed.

(** X15. A round of Time Attack is over when as many ticks have gone by
    as its clock showed, whatever the draws: left alone for that long,
    the session is in [GAME_OVER] with [last_mode] Time Attack. *)
Theorem time_attack_ends (g : Game) (rng : list Z) (g' : Game)
    (rng' : list Z) :
  mode g = TIME_ATTACK → 0 < time_remaining g →
  updates (Z.to_nat (time_remaining g)) g rng = Done (g', rng') →
  mode g' = GAME_OVER ∧ last_mode g' = Some TIME_ATTACK.
Proof.
  intros Hm Ht H. eapply time_attack_runs_out; [|exact H].
  right. split; [done|lia].
Qed.

Lemma time_attack_ends_witness :
  mode (with_time_remaining racing 2) = TIME_ATTACK
  ∧ time_remaining (with_time_remaining racing 2) = 2
  ∧ updates 2 (with_time_remaining racing 2) []
    = Done (game_over
              (with_time_remaining
                 (with_powerup_spawn_counter (with_move_counter racing 2) 2)
                 0), [])
  ∧ mode (game_over
            (with_time_remaining
               (with_powerup_spawn_counter (with_move_counter racing 2) 2) 0))
    = GAME_OVER.
Proof.
  assert (Hu : updates (Z.to_nat (time_remaining (with_time_remaining racing 2)))
                 (with_time_remaining racing 2) []
               = Done (game_over
                         (with_time_remaining
                            (with_powerup_spawn_counter
                               (with_move_counter racing 2) 2) 0), []))
    by (vm_compute; reflexivity).
  split_and!; [reflexivity|reflexivity|exact Hu|].
  exact (proj1 (time_attack_ends (with_time_remaining racing 2) [] _ []
                  eq_refl eq_refl Hu)).
Defined.

(** X16. A tick never lowers a best score, and it changes the table and
    the file only when it ends the round. *)
Theorem best_never_lowered (g : Game) (rng : list Z) (g' : Game)
    (rng' : list Z) (k : string) :
  update g rng = Done (g', rng') →
  default 0 (high_scores g !! k) ≤ default 0 (high_scores g' !! k)
  ∧ (mode g' ≠ GAME_OVER ∨ mode g = GAME_OVER →
     high_scores g' = high_scores g ∧ disk g' = disk g).
Proof.
  intros H. destruct (playing (mode g)) eqn:Hp.
  2:{ rewrite update_idle in H by done. by injection H as <- _. }
  apply update_end in H
    as (moves & meals & g2 & _ & Hm & _ & _ & Hhs & Hd & _ & _ & _ & _ & Hend);
    [|done].
  assert (Hover : ∀ g3, high_scores g3 = high_scores g → disk g3 = disk g →
            default 0 (high_scores g !! k)
            ≤ default 0 (high_scores (game_over g3) !! k)
            ∧ (mode (game_over g3) ≠ GAME_OVER ∨ mode g = GAME_OVER →
               high_scores (game_over g3) = high_scores g
               ∧ disk (game_over g3) = disk g)).
  { intros g3 H3 _. split.
    - rewrite <- H3. apply game_over_best.
    - rewrite mode_game_over. intros [?|Hg]; [done|].
      by rewrite Hg in Hp. }
  destruct Hend as [[-> _]| ->]; [by apply Hover|].
  destruct (time_attack_cases g2) as [(_ & ->)|[(_ & _ & ->)|(_ & _ & ->)]].
  - by rewrite Hhs, Hd.
  - simpl. by rewrite Hhs, Hd.
  - by apply Hover.
Qed.

Lemma best_never_lowered_witness :
  update (with_score second_collision 30) []
  = Done (game_over (at_move (with_score second_collision 30)), [])
  ∧ default 0 (high_scores (with_score second_collision 30) !! "survival") = 0
  ∧ default 0 (high_scores (game_over (at_move (with_score second_collision 30)))
               !! "survival") = 30
  ∧ default 0 (high_scores (with_score second_collision 30) !! "survival")
    ≤ default 0 (high_scores (game_over (at_move (with_score second_collision 30)))
                 !! "survival").
Proof.
  assert (Hu : update (with_score second_collision 30) []
               = Done (game_over (at_move (with_score second_collision 30)), []))
    by (vm_compute; reflexivity).
  split_and!; [exact Hu|vm_compute; reflexivity|vm_compute; reflexivity|].
  exact (proj1 (best_never_lowered _ [] _ [] "survival" Hu)).
Defined.

Lemma reset_game_table g rng g' rng' :
  reset_game g rng = Done (g', rng') →
  high_scores g' = high_scores g ∧ disk g' = disk g.
Proof.
  unfold reset_game. intros H.
  apply bind_Done in H as (c & rng1 & _ & H). by apply ret_Done in H as [-> ->].
Qed.

Lemma handle_key_table g key rng g' rng' :
  handle_key g key rng = Done (Some g', rng') →
  high_scores g' = high_scores g ∧ disk g' = disk g.
Proof.
  intros H.
  assert (Hstart : ∀ m, start g m rng = Done (Some g', rng') →
            high_scores g' = high_scores g ∧ disk g' = disk g).
  { intros m Hst. unfold start in Hst.
    apply bind_Done in Hst as (g1 & rng1 & Hr & Hst).
    apply ret_Done in Hst as [[= ->] ->].
    by apply reset_game_table in Hr. }
  assert (Hturn : ∀ d, turn g d rng = Done (Some g', rng') →
            high_scores g' = high_scores g ∧ disk g' = disk g).
  { intros d Hd. unfold turn in Hd.
    apply bind_Done in Hd as (s & rng1 & _ & Hr).
    by apply ret_Done in Hr as [[= ->] ->]. }
  unfold handle_key in H.
  destruct (mode g) eqn:Hm; destruct key; simpl in H;
    try (by apply ret_Done in H as [[= ->] _]); try (by eapply Hstart);
    try (by eapply Hturn); try (by apply ret_Done in H as [[=] _]).
  apply bind_Done in H as (g1 & rng1 & Hr & H).
  apply reset_game_table in Hr as [Hhs Hd].
  destruct (last_mode g1); [|by apply lift_Done in H as [[=] _]].
  by apply ret_Done in H as [[= ->] _].
Qed.

(** X17. Input never touches the high scores: whatever the events of a
    pass, the table and the file are after [handle_events] what they
    were before. A round left with Escape leaves no score behind. *)
Theorem input_keeps_high_scores (events : list Event) (g : Game)
    (rng : list Z) (running : bool) (g' : Game) (rng' : list Z) :
  handle_events events g rng = Done (running, g', rng') →
  high_scores g' = high_scores g ∧ disk g' = disk g.
Proof.
  revert g rng. induction events as [|e events IH]; intros g rng H.
  - by apply ret_Done in H as [[= -> ->] _].
  - destruct e as [|key|]; simpl in H.
    + by apply ret_Done in H as [[= -> ->] _].
    + apply bind_Done in H as (r & rng1 & Hk & H). destruct r as [g1|].
      * apply handle_key_table in Hk as [Hhs Hd].
        apply IH in H as [-> ->]. done.
      * by apply ret_Done in H as [[= -> ->] _].
    + eauto.
Qed.

Lemma input_keeps_high_scores_witness :
  handle_events [KEYDOWN K_ESCAPE] thirty_points []
  = Done (true, with_mode thirty_points MENU, [])
  ∧ score thirty_points = 30
  ∧ high_scores (with_mode thirty_points MENU) = high_scores thirty_points
  ∧ disk (with_mode thirty_points MENU) = disk thirty_points.
Proof.
  assert (He : handle_events [KEYDOWN K_ESCAPE] thirty_points []
               = Done (true, with_mode thirty_points MENU, []))
    by (vm_compute; reflexivity).
  split_and!; [exact He|reflexivity|..];
    apply (input_keeps_high_scores _ _ _ _ _ _ He).
Defined.

End TickSteps.

(** ** The timers of the power-ups *)

Section Timers.

Import Game.

Lemma timers_kept_refl g : timers_kept g g.
Proof. by split. Qed.

Lemma timers_kept_trans g1 g2 g3 :
  timers_kept g1 g2 → timers_kept g2 g3 → timers_kept g1 g3.
Proof. intros [? ?] [? ?]. split; [congruence|by etrans]. Qed.

Lemma timers_kept_move_snake has_ghost g g2 :
  move_snake has_ghost g = Done (Go g2) → timers_kept g g2.
Proof.
  intros [(s & Hm & [= ->])|[(_ & _ & [= ->])|(_ & _ & [=])]]%move_snake_cases.
  - apply move_to_shape in Hm as (h & rest & _ & _ & Ha & _).
    split; [done|]. simpl. by rewrite Ha.
  - split; [done|]. simpl. apply delete_subseteq.
Qed.

Lemma timers_kept_check_obstacles has_ghost g g2 :
  check_obstacles has_ghost g = Done (Go g2) → timers_kept g g2.
Proof.
  intros [(_ & [= ->])|[(h & _ & _ & [= ->])|(h & _ & _ & [=])]]%check_obstacles_cases.
  - apply timers_kept_refl.
  - split; [done|]. simpl. apply delete_subseteq.
Qed.

Lemma timers_kept_check_food g rng g3 rng1 :
  check_food g rng = Done (g3, rng1) → timers_kept g g3.
Proof.
  intros [(h & _ & _ & -> & _)|(_ & c & _ & ->)]%check_food_cases.
  - apply timers_kept_refl.
  - by split.
Qed.

Lemma collected_source h copy : ∀ act t r,
  collected h copy act !! t = Some r →
  act !! t = Some r
  ∨ ∃ p, p ∈ copy ∧ pos p = h ∧ type p = t ∧ duration p = r.
Proof.
  induction copy as [|p copy IH]; intros act t r H; simpl in H; [by left|].
  apply IH in H as [H|(q & Hq & ? & ? & ?)].
  - case_bool_decide as Hpos; [|by left].
    rewrite lookup_insert in H. case_decide as Ht; [|by left].
    injection H as <-. right. exists p. split_and!; [by left|done..].
  - right. exists q. split_and!; [by right|done..].
Qed.

Lemma update_timers_lookup g t r :
  active_powerups (snake (update_timers g)) !! t = Some r →
  ∃ r0, active_powerups (snake g) !! t = Some r0 ∧ r = r0 - 1 ∧ 0 < r.
Proof.
  simpl. rewrite lookup_omap.
  destruct (active_powerups (snake g) !! t) as [r0|]; simpl; [|done].
  unfold tick_timer. destruct (r0 - 1 <=? 0) eqn:Hle; [done|].
  intros [= <-]. apply Z.leb_gt in Hle. eauto.
Qed.

(** X18. After a tick of a round every timer is either the one of the
    tick before, one less and still positive, or the duration of a
    power-up of that type that was on the field and is now under the
    head: nothing else starts a timer, and none runs backwards. *)
Theorem timer_step (g : Game) (rng : list Z) (g' : Game) (rng' : list Z)
    (t : PowerUpType) (r : Z) :
  playing (mode g) = true → update g rng = Done (g', rng') →
  active_powerups (snake g') !! t = Some r →
  (∃ r0, active_powerups (snake g) !! t = Some r0 ∧ r = r0 - 1 ∧ 0 < r)
  ∨ (∃ p, p ∈ powerups g ∧ type p = t ∧ duration p = r
          ∧ Snake.get_head (snake g') = Done (pos p)).
Proof.
  intros Hp H Hl. apply update_cases in H; [|done].
  destruct H as [(frames & _ & _ & H)|(_ & r' & rng1 & Hm & H)].
  { apply end_of_tick_snake in H as [Hs _]. rewrite Hs in Hl.
    left. by apply update_timers_lookup. }
  assert (Hkept : ∀ g2, timers_kept (with_move_counter (ticked g) 0) g2 →
            active_powerups (snake g2) !! t = Some r →
            ∃ r0, active_powerups (snake g) !! t = Some r0
                  ∧ r = r0 - 1 ∧ 0 < r).
  { intros g2 [_ Hsub] Hl2. apply update_timers_lookup.
    exact (lookup_weaken _ _ _ _ Hl2 Hsub). }
  apply move_tick_cases in Hm as [(g2 & Hm & -> & _)|(g2 & Hm & Ha)].
  { apply ret_Done in H as [-> _]. apply course_move_snake in Hm.
    simpl in Hm. subst g2.
    destruct (game_over_board (with_move_counter (ticked g) 0))
      as (_ & _ & _ & Hs).
    rewrite Hs in Hl. left. by apply update_timers_lookup. }
  apply timers_kept_move_snake in Hm.
  apply after_move_cases in Ha
    as [(g3 & Ho & -> & _)|(g3 & g4 & h & Ho & Hf & Hh & ->)].
  { apply ret_Done in H as [-> _]. apply course_check_obstacles in Ho.
    simpl in Ho. subst g3.
    destruct (game_over_board g2) as (_ & _ & _ & Hs). rewrite Hs in Hl.
    left. by eapply Hkept. }
  apply timers_kept_check_obstacles in Ho.
  apply timers_kept_check_food in Hf.
  pose proof (timers_kept_trans _ _ _ Hm (timers_kept_trans _ _ _ Ho Hf))
    as Hk4.
  simpl in H. apply end_of_tick_snake in H as [Hs _]. rewrite Hs in *.
  simpl in Hl. apply collected_source in Hl as [Hl|(p & Hin & Hpos & Ht & Hd)].
  - left. by eapply Hkept.
  - right. exists p. destruct Hk4 as [Hpw _]. rewrite Hpw in Hin. simpl in Hin.
    split_and!; [done..|].
    subst h. unfold Snake.get_head in *. simpl. exact Hh.
Qed.

Lemma timer_step_witness :
  ∃ taken,
    playing (mode shield_on_field) = true
    ∧ updates 2 shield_on_field [] = Done (taken, [])
    ∧ update (with_powerup_spawn_counter (with_move_counter shield_on_field 6) 1)
        [] = Done (taken, [])
    ∧ active_powerups (snake taken) !! SHIELD = Some 300
    ∧ ((∃ r0, active_powerups (snake shield_on_field) !! SHIELD = Some r0
              ∧ 300 = r0 - 1 ∧ 0 < 300)
       ∨ (∃ p, p ∈ powerups shield_on_field ∧ type p = SHIELD
               ∧ duration p = 300
               ∧ Snake.get_head (snake taken) = Done (pos p))).
Proof.
  exists (mkGame SURVIVAL None
            (mkSnake [(22, 15); (21, 15); (20, 15)] RIGHT 0 {[SHIELD := 300]})
            0 0 8 1%float [] [] (60 * FPS) 2 (0, 0)
            default_high_scores (mkDisk None true)).
  assert (Hu : update (with_powerup_spawn_counter
                         (with_move_counter shield_on_field 6) 1) []
               = Done (mkGame SURVIVAL None
                         (mkSnake [(22, 15); (21, 15); (20, 15)] RIGHT 0
                            {[SHIELD := 300]})
                         0 0 8 1%float [] [] (60 * FPS) 2 (0, 0)
                         default_high_scores (mkDisk None true), []))
    by (vm_compute; reflexivity).
  split_and!; [reflexivity|vm_compute; reflexivity|exact Hu|reflexivity|].
  exact (timer_step
           (with_powerup_spawn_counter (with_move_counter shield_on_field 6) 1)
           [] _ [] SHIELD 300 eq_refl Hu eq_refl).
Defined.

(** X19. The timers' pass of [update], run [n + 1] times with nothing
    else in between, takes [n + 1] off every timer and drops those that
    reach zero or less: a timer lasts as many passes as it shows. *)
Theorem timers_after (n : nat) (g : Game) (t : PowerUpType) :
  active_powerups (snake (Nat.iter (S n) update_timers g)) !! t
  = r ← active_powerups (snake g) !! t;
    if r - Z.of_nat (S n) <=? 0 then None else Some (r - Z.of_nat (S n)).
Proof.
  induction n as [|n IH].
  - simpl. rewrite lookup_omap.
    by destruct (active_powerups (snake g) !! t).
  - change (Nat.iter (S (S n)) update_timers g)
      with (update_timers (Nat.iter (S n) update_timers g)).
    change (active_powerups (snake (update_timers ?x)))
      with (omap tick_timer (active_powerups (snake x))).
    rewrite lookup_omap, IH.
    destruct (active_powerups (snake g) !! t) as [r|]; [|done]. simpl.
    unfold tick_timer.
    destruct (r - Z.of_nat (S n) <=? 0) eqn:H1; simpl.
    + apply Z.leb_le in H1.
      rewrite (proj2 (Z.leb_le (r - Z.of_nat (S (S n))) 0)) by lia. done.
    + apply Z.leb_gt in H1.
      replace (r - Z.of_nat (S n) - 1) with (r - Z.of_nat (S (S n))) by lia.
      done.
Qed.

End Timers.

(** ** Where the spawners put things *)

Section Spawners.

Import Game.

(** X20. [spawn_powerup] does nothing, and reads no draw, when two or
    more power-ups are on the field. Otherwise it adds one power-up at
    the end of the list, with the duration 300, on a cell of the grid
    that is not under the snake, not the food's, not another power-up's
    and not an obstacle's. *)
Theorem spawn_powerup_avoids (g : Game) (rng : list Z) (g' : Game)
    (rng' : list Z) :
  spawn_powerup g rng = Done (g', rng') →
  ((2 ≤ length (powerups g))%nat ∧ g' = g ∧ rng' = rng)
  ∨ ((length (powerups g) < 2)%nat
     ∧ ∃ p, g' = with_powerups g (powerups g ++ [p])
            ∧ duration p = 300 ∧ in_grid (pos p)
            ∧ (pos p ∉ body (snake g)) ∧ pos p ≠ food_pos g
            ∧ (pos p ∉ pos <$> powerups g)
            ∧ (pos p ∉ opos <$> obstacles g)).
Proof.
  unfold spawn_powerup. intros H.
  destruct (length (powerups g) <? 2)%nat eqn:Hlen.
  - right. apply Nat.ltb_lt in Hlen. split; [done|].
    apply bind_Done in H as (c & rng1 & Hc & H).
    apply bind_Done in H as (t & rng2 & Ht & H).
    apply ret_Done in H as [-> ->].
    apply sample_Done in Hc as [Hc Hg].
    apply field_free_true in Hc as (? & ? & ? & ?).
    exists (mkPowerUp t c 300). done.
  - left. apply Nat.ltb_ge in Hlen. by apply ret_Done in H as [-> ->].
Qed.

Lemma spawn_powerup_avoids_witness :
  spawn_powerup (with_powerups shield_on_field []) [21; 15; 22; 15; 1]
  = Done (shield_on_field, [])
  ∧ ((2 ≤ length (powerups (with_powerups shield_on_field [])))%nat
     ∧ shield_on_field = with_powerups shield_on_field [] ∧ [] = [21; 15; 22; 15; 1]
     ∨ (length (powerups (with_powerups shield_on_field [])) < 2)%nat
       ∧ ∃ p, shield_on_field
              = with_powerups (with_powerups shield_on_field [])
                  (powerups (with_powerups shield_on_field []) ++ [p])
              ∧ duration p = 300 ∧ in_grid (pos p)
              ∧ (pos p ∉ body (snake (with_powerups shield_on_field [])))
              ∧ pos p ≠ food_pos (with_powerups shield_on_field [])
              ∧ (pos p ∉ pos <$> powerups (with_powerups shield_on_field []))
              ∧ (pos p ∉ opos <$> obstacles (with_powerups shield_on_field []))).
Proof.
  assert (Hs : spawn_powerup (with_powerups shield_on_field [])
                 [21; 15; 22; 15; 1] = Done (shield_on_field, []))
    by (vm_compute; reflexivity).
  split; [exact Hs|].
  exact (spawn_powerup_avoids _ _ _ _ Hs).
Defined.

(** X21. [update] adds an obstacle only in Survival, when the length of
    the snake is a multiple of 5 above 3 and fewer obstacles are on the
    field than a fifth of that length; in every other case nothing
    changes and no draw is read. The obstacle goes to the end of the
    list, on a cell of the grid that is not under the snake, not the
    food's, not a power-up's and not another obstacle's. *)
Theorem spawn_obstacles_gate (g : Game) (rng : list Z) (g' : Game)
    (rng' : list Z) :
  spawn_obstacles g rng = Done (g', rng') →
  (g' = g ∧ rng' = rng
   ∧ ¬ (mode g = SURVIVAL
        ∧ Z.of_nat (length (body (snake g))) `mod` 5 = 0
        ∧ 3 < Z.of_nat (length (body (snake g)))
        ∧ Z.of_nat (length (obstacles g))
          < Z.of_nat (length (body (snake g))) `div` 5))
  ∨ (mode g = SURVIVAL
     ∧ Z.of_nat (length (body (snake g))) `mod` 5 = 0
     ∧ 3 < Z.of_nat (length (body (snake g)))
     ∧ Z.of_nat (length (obstacles g))
       < Z.of_nat (length (body (snake g))) `div` 5
     ∧ ∃ c, g' = with_obstacles g (obstacles g ++ [mkObstacle c])
            ∧ in_grid c
            ∧ (c ∉ body (snake g)) ∧ c ≠ food_pos g
            ∧ (c ∉ pos <$> powerups g)
            ∧ (c ∉ opos <$> obstacles g)).
Proof.
  unfold spawn_obstacles, spawn_obstacle. intros H.
  destruct (bool_decide (mode g = SURVIVAL)) eqn:Hm; simpl in H.
  2:{ left. apply ret_Done in H as [-> ->]. split_and!; [done..|].
      apply bool_decide_eq_false in Hm. tauto. }
  apply bool_decide_eq_true in Hm.
  destruct (_ `mod` 5 =? 0) eqn:H5; simpl in H.
  2:{ left. apply ret_Done in H as [-> ->]. split_and!; [done..|].
      apply Z.eqb_neq in H5. tauto. }
  apply Z.eqb_eq in H5.
  destruct (3 <? _) eqn:H3; simpl in H.
  2:{ left. apply ret_Done in H as [-> ->]. split_and!; [done..|].
      apply Z.ltb_ge in H3. lia. }
  apply Z.ltb_lt in H3.
  destruct (Z.of_nat (length (obstacles g)) <? _) eqn:Hlt.
  2:{ left. apply ret_Done in H as [-> ->]. split_and!; [done..|].
      apply Z.ltb_ge in Hlt. lia. }
  apply Z.ltb_lt in Hlt. right. split_and!; [done..|].
  apply bind_Done in H as (c & rng1 & Hs & H).
  apply ret_Done in H as [-> ->].
  apply sample_Done in Hs as [Hs Hg].
  apply field_free_true in Hs as (? & ? & ? & ?).
  exists c. done.
Qed.

Lemma spawn_obstacles_gate_witness :
  spawn_obstacles (with_obstacles veteran []) [23; 15; 30; 10]
  = Done (veteran, [])
  ∧ mode (with_obstacles veteran []) = SURVIVAL
  ∧ length (body (snake (with_obstacles veteran []))) = 5%nat
  ∧ obstacles veteran = [mkObstacle (30, 10)].
Proof.
  assert (Hs : spawn_obstacles (with_obstacles veteran []) [23; 15; 30; 10]
               = Done (veteran, []))
    by (vm_compute; reflexivity).
  split; [exact Hs|].
  destruct (spawn_obstacles_gate _ _ _ _ Hs) as [(_ & Hrng & _)|(Hm & _)].
  - discriminate Hrng.
  - split; [exact Hm|]. split; reflexivity.
Defined.

(** X22. [spawn_food] does not look at the power-ups: a draw that falls
    on the cell of a power-up on the field, clear of the snake and of
    the obstacles, is taken for the food, although [spawn_powerup] and
    [spawn_obstacle] would reject the same cell. *)
Theorem spawn_food_on_powerup (g : Game) (p : PowerUp) (rest : list Z) :
  p ∈ powerups g → in_grid (pos p) →
  pos p ∉ body (snake g) → pos p ∉ opos <$> obstacles g →
  spawn_food g ((pos p).1 :: (pos p).2 :: rest) = Done (pos p, rest)
  ∧ field_free g (pos p) = false.
Proof.
  intros Hin [Hx Hy] Hb Ho.
  assert (Hc : cell_of_draws (pos p).1 (pos p).2 = pos p).
  { unfold cell_of_draws. rewrite !Z.mod_small by done. by destruct (pos p). }
  split.
  - pose proof (sample_progress (food_free g) [] (pos p).1 (pos p).2 rest)
      as Hs.
    rewrite Hc in Hs. apply Hs; [constructor|]. by apply food_free_true.
  - destruct (field_free g (pos p)) eqn:Hf; [|done].
    apply field_free_true in Hf as (_ & _ & Hp & _).
    destruct Hp. by apply list_elem_of_fmap_2.
Qed.

Lemma spawn_food_on_powerup_witness :
  mkPowerUp GHOST (3, 3) 300 ∈ powerups full_field
  ∧ spawn_food full_field [3; 3; 9] = Done ((3, 3), [9])
  ∧ field_free full_field (3, 3) = false.
Proof.
  assert (Hin : mkPowerUp GHOST (3, 3) 300 ∈ powerups full_field)
    by (simpl; left).
  split; [exact Hin|].
  apply (spawn_food_on_powerup full_field (mkPowerUp GHOST (3, 3) 300) [9] Hin).
  - by vm_compute.
  - apply (bool_decide_unpack _). by vm_compute.
  - apply (bool_decide_unpack _). by vm_compute.
Defined.

Lemma length_filter_out {A} (f : A → Cell) (l : list A) (x : Cell) :
  NoDup (f <$> l) → x ∈ f <$> l →
  S (length (filter (λ a, f a ≠ x) l)) = length l.
Proof.
  induction l as [|a l IH]; simpl; intros Hnd Hin.
  - by apply elem_of_nil in Hin.
  - apply NoDup_cons in Hnd as [Hna Hnd].
    destruct (decide (f a = x)) as [Heq|Hne].
    + rewrite filter_cons_False by (simpl; tauto).
      f_equal. subst x.
      assert (Hall : Forall (λ b, f b ≠ f a) l).
      { apply Forall_forall. intros b Hb Heq. apply Hna. rewrite <- Heq.
        by apply list_elem_of_fmap_2. }
      clear -Hall. induction Hall as [|b l Hb _ IH']; [done|].
      rewrite filter_cons_True by done. simpl. by rewrite IH'.
    + rewrite filter_cons_True by done. simpl. f_equal.
      apply IH; [done|].
      apply elem_of_cons in Hin as [Heq|Hin]; [by subst|done].
Qed.

(** X23. A Shield that absorbs the collision with an obstacle takes the
    obstacle under the head off the field, and with obstacles on
    distinct cells (as they are in a run) exactly that one: the others
    stay, in their order, and the session goes on without Shield. *)
Theorem shield_clears_one_obstacle (g : Game) (h : Cell) :
  NoDup (opos <$> obstacles g) →
  on_obstacle false g h → active g SHIELD = true →
  ∃ g2, check_obstacles false g = Done (Go g2)
        ∧ active g2 SHIELD = false
        ∧ S (length (obstacles g2)) = length (obstacles g)
        ∧ obstacles g2 = filter (λ o, opos o ≠ h) (obstacles g)
        ∧ (h ∉ opos <$> obstacles g2)
        ∧ body (snake g2) = body (snake g)
        ∧ mode g2 = mode g ∧ score g2 = score g.
Proof.
  intros Hnd Hon Hs. exists (clear_obstacle (drop_shield g) h).
  split; [by apply check_obstacles_shield|].
  destruct Hon as (_ & _ & _ & Hin).
  split_and!; try done.
  - change (active (clear_obstacle (drop_shield g) h) SHIELD)
      with (active (drop_shield g) SHIELD).
    rewrite active_drop_shield. by rewrite decide_True.
  - simpl. by apply length_filter_out.
  - simpl. intros (o & Heq & Ho)%list_elem_of_fmap.
    apply list_elem_of_filter in Ho as [Hne _]. by apply Hne.
Qed.

Lemma shield_clears_one_obstacle_witness :
  on_obstacle false on_rock (30, 10)
  ∧ active on_rock SHIELD = true
  ∧ ∃ g2, check_obstacles false on_rock = Done (Go g2)
          ∧ active g2 SHIELD = false
          ∧ obstacles g2 = [mkObstacle (5, 5)].
Proof.
  assert (Hon : on_obstacle false on_rock (30, 10)).
  { split_and!; [reflexivity..|]. simpl. right. left. }
  split; [exact Hon|]. split; [reflexivity|].
  assert (Hnd : NoDup (opos <$> obstacles on_rock))
    by (apply (bool_decide_unpack _); by vm_compute).
  destruct (shield_clears_one_obstacle on_rock (30, 10) Hnd Hon eq_refl)
    as (g2 & Hc & Ha & _ & Ho & _).
  exists g2. split_and!; [exact Hc|exact Ha|].
  rewrite Ho. reflexivity.
Defined.

End Spawners.

(** ** Scores on the screens, and the keys around a round *)

Section Screens.

Import Game.

Lemma game_over_lookup g k :
  default 0 (high_scores (game_over g) !! k)
  = if bool_decide (k = mode_key g)
    then Z.max (stored_best g) (score g)
    else default 0 (high_scores g !! k).
Proof.
  unfold game_over, stored_best, mode_key. simpl.
  destruct (default 0 (high_scores g !! lower (mode_name (mode g))) <? score g)
    eqn:Hlt.
  - apply Z.ltb_lt in Hlt.
    assert (Hk : default 0 (<[lower (mode_name (mode g)) := score g]>
                              (high_scores g) !! k)
                 = if bool_decide (k = lower (mode_name (mode g)))
                   then Z.max (default 0 (high_scores g
                                          !! lower (mode_name (mode g))))
                          (score g)
                   else default 0 (high_scores g !! k)).
    { case_bool_decide as Hkey.
      - subst k. rewrite lookup_insert_eq. simpl. lia.
      - by rewrite lookup_insert_ne. }
    unfold save_high_scores. simpl. by destruct (writable (disk g)).
  - apply Z.ltb_ge in Hlt. simpl. case_bool_decide as Hkey; [|done].
    subst k. lia.
Qed.

(** X24. On the screen after a round the line NEW HIGH SCORE! is drawn
    exactly when the score is positive and at least the best that was
    stored for the mode before the round ended. A score that only ties
    the stored best draws the line although [game_over] changed
    nothing. *)
Theorem new_best_banner (g : Game) :
  draw_game_over_new_best (game_over g)
  = Done (bool_decide (stored_best g ≤ score g ∧ 0 < score g))
  ∧ (score g = stored_best g → 0 < score g →
     draw_game_over_new_best (game_over g) = Done true
     ∧ high_scores (game_over g) = high_scores g
     ∧ disk (game_over g) = disk g).
Proof.
  assert (Hb : draw_game_over_new_best (game_over g)
               = Done (bool_decide (stored_best g ≤ score g ∧ 0 < score g))).
  { unfold draw_game_over_new_best.
    destruct (game_over_board g) as (Hsc & _ & -> & _). rewrite Hsc.
    fold (mode_key g). rewrite game_over_lookup.
    rewrite (bool_decide_eq_true_2 (mode_key g = mode_key g)) by done.
    f_equal. destruct (0 <? score g) eqn:Hpos.
    - apply Z.ltb_lt in Hpos. rewrite andb_true_r.
      apply bool_decide_ext. lia.
    - apply Z.ltb_ge in Hpos. rewrite andb_false_r. symmetry.
      apply bool_decide_eq_false. lia. }
  split; [exact Hb|]. intros Heq Hpos. split.
  - rewrite Hb. f_equal. apply bool_decide_eq_true. lia.
  - unfold game_over. fold (mode_key g). simpl. fold (stored_best g).
    rewrite (proj2 (Z.ltb_ge _ _)) by lia. done.
Qed.

Lemma new_best_banner_witness :
  stored_best (with_high_scores thirty_points
                 (<["survival" := 30]> default_high_scores)) = 30
  ∧ score (with_high_scores thirty_points
             (<["survival" := 30]> default_high_scores)) = 30
  ∧ draw_game_over_new_best
      (game_over (with_high_scores thirty_points
                    (<["survival" := 30]> default_high_scores)))
    = Done true
  ∧ high_scores
      (game_over (with_high_scores thirty_points
                    (<["survival" := 30]> default_high_scores)))
    = <["survival" := 30]> default_high_scores.
Proof.
  assert (Hbest : score (with_high_scores thirty_points
                           (<["survival" := 30]> default_high_scores))
                  = stored_best (with_high_scores thirty_points
                                   (<["survival" := 30]> default_high_scores)))
    by (vm_compute; reflexivity).
  destruct (new_best_banner
              (with_high_scores thirty_points
                 (<["survival" := 30]> default_high_scores))) as [_ Htie].
  destruct (Htie Hbest eq_refl) as (Hb & Hh & _).
  split_and!; [vm_compute; reflexivity|reflexivity|exact Hb|exact Hh].
Defined.

(** X25. The best scores outlive the process: [__init__] on the file
    that [game_over] left loads the table with the new best when the
    score was one and the file could be written, and in every other case
    what the file held before (the zeros when there was none). *)
Theorem best_survives_restart (g : Game) (rng : list Z) (g2 : Game)
    (rng' : list Z) :
  init (disk (game_over g)) rng = Done (g2, rng') →
  high_scores g2
  = (if (stored_best g <? score g) && writable (disk g)
     then <[mode_key g := score g]> (high_scores g)
     else load_high_scores (disk g))
  ∧ mode g2 = MENU ∧ score g2 = 0.
Proof.
  unfold init. intros H.
  apply bind_Done in H as (g1 & rng1 & Hr & H). apply ret_Done in H as [-> ->].
  unfold reset_game in Hr.
  apply bind_Done in Hr as (c & rng2 & _ & Hr). apply ret_Done in Hr as [-> ->].
  simpl. split; [|done].
  unfold game_over, stored_best, mode_key. simpl.
  destruct (_ <? _); simpl; [|done].
  unfold save_high_scores. simpl. by destruct (writable (disk g)).
Qed.

Lemma best_survives_restart_witness :
  stored_best thirty_points = 0 ∧ score thirty_points = 30
  ∧ writable (disk thirty_points) = true
  ∧ init (disk (game_over thirty_points)) [7; 7]
    = Done (mkGame MENU None Snake.reset 0 0 8 1%float [] [] (60 * FPS) 0
              (7, 7) (<["survival" := 30]> default_high_scores)
              (mkDisk (Some (<["survival" := 30]> default_high_scores)) true),
            [])
  ∧ high_scores
      (mkGame MENU None Snake.reset 0 0 8 1%float [] [] (60 * FPS) 0
         (7, 7) (<["survival" := 30]> default_high_scores)
         (mkDisk (Some (<["survival" := 30]> default_high_scores)) true))
    = <[mode_key thirty_points := score thirty_points]>
        (high_scores thirty_points).
Proof.
  assert (Hi : init (disk (game_over thirty_points)) [7; 7]
               = Done (mkGame MENU None Snake.reset 0 0 8 1%float [] []
                         (60 * FPS) 0 (7, 7)
                         (<["survival" := 30]> default_high_scores)
                         (mkDisk (Some (<["survival" := 30]> default_high_scores))
                            true), []))
    by (vm_compute; reflexivity).
  split_and!; [reflexivity|reflexivity|reflexivity|exact Hi|].
  exact (proj1 (best_survives_restart thirty_points [7; 7] _ [] Hi)).
Defined.

(** X26. The menu after a round: of the three lines under HIGH SCORES,
    "classic", "time_attack" and "survival", the line of the mode that
    ended shows the larger of its old best and the score of the round,
    and the other two show what they showed before. *)
Theorem menu_scores_after_game_over (g : Game) :
  draw_menu_scores (game_over g)
  = [("classic",
      if bool_decide (mode g = CLASSIC)
      then Z.max (default 0 (high_scores g !! "classic")) (score g)
      else default 0 (high_scores g !! "classic"));
     ("time_attack",
      if bool_decide (mode g = TIME_ATTACK)
      then Z.max (default 0 (high_scores g !! "time_attack")) (score g)
      else default 0 (high_scores g !! "time_attack"));
     ("survival",
      if bool_decide (mode g = SURVIVAL)
      then Z.max (default 0 (high_scores g !! "survival")) (score g)
      else default 0 (high_scores g !! "survival"))].
Proof.
  unfold draw_menu_scores. simpl. rewrite !game_over_lookup.
  unfold stored_best. rewrite mode_key_name.
  destruct (mode g); reflexivity.
Qed.

Lemma menu_scores_after_game_over_witness :
  mode thirty_points = SURVIVAL ∧ score thirty_points = 30
  ∧ draw_menu_scores thirty_points
    = [("classic", 0); ("time_attack", 0); ("survival", 0)]
  ∧ draw_menu_scores (game_over thirty_points)
    = [("classic", 0); ("time_attack", 0); ("survival", 30)].
Proof.
  split_and!; [reflexivity|reflexivity|vm_compute; reflexivity|].
  rewrite (menu_scores_after_game_over thirty_points).
  vm_compute. reflexivity.
Defined.

(** X27. In a run, [R] on the screen after a round always finds the
    mode that ended: it raises nothing and starts a fresh round of that
    mode (the snake of the start, no points, an empty field, the full
    clock, the food on a free cell), with the high scores and the file
    as they were. *)
Theorem restart_keeps_mode (g : Game) (rng : list Z) (r : option Game)
    (rng' : list Z) :
  reachable g → mode g = GAME_OVER →
  handle_key g K_r rng = Done (r, rng') →
  ∃ m g',
    r = Some g' ∧ last_mode g = Some m ∧ playing m = true
    ∧ mode g' = m ∧ last_mode g' = Some m
    ∧ snake g' = Snake.reset ∧ score g' = 0
    ∧ powerups g' = [] ∧ obstacles g' = []
    ∧ time_remaining g' = 60 * FPS
    ∧ move_counter g' = 0 ∧ powerup_spawn_counter g' = 0
    ∧ high_scores g' = high_scores g ∧ disk g' = disk g
    ∧ in_grid (food_pos g') ∧ food_pos g' ∉ body Snake.reset.
Proof.
  intros Hr Hm H.
  destruct (placed_last_mode g (reachable_placed g Hr) Hm) as (m & Hl & Hp).
  unfold handle_key in H. rewrite Hm in H.
  apply bind_Done in H as (g1 & rng1 & Hreset & H).
  unfold reset_game in Hreset.
  apply bind_Done in Hreset as (c & rng2 & Hc & Hreset).
  apply ret_Done in Hreset as [-> ->]. simpl in H. rewrite Hl in H.
  apply ret_Done in H as [-> ->].
  apply spawn_food_Done in Hc as (Hb & _ & Hg). simpl in Hb.
  exists m. eexists. split; [reflexivity|]. simpl. done.
Qed.

Lemma restart_keeps_mode_witness :
  reachable veteran_over ∧ mode veteran_over = GAME_OVER
  ∧ handle_key veteran_over K_r [20; 15; 5; 5]
    = Done (Some (mkGame SURVIVAL (Some SURVIVAL) Snake.reset 0 0 8 1%float
                    [] [] (60 * FPS) 0 (5, 5) (high_scores veteran_over)
                    (disk veteran_over)), [])
  ∧ ∃ m, last_mode veteran_over = Some m ∧ playing m = true.
Proof.
  assert (Hk : handle_key veteran_over K_r [20; 15; 5; 5]
               = Done (Some (mkGame SURVIVAL (Some SURVIVAL) Snake.reset 0 0 8
                               1%float [] [] (60 * FPS) 0 (5, 5)
                               (high_scores veteran_over) (disk veteran_over)),
                       []))
    by (vm_compute; reflexivity).
  split_and!; [exact veteran_over_reachable|reflexivity|exact Hk|].
  destruct (restart_keeps_mode veteran_over _ _ _ veteran_over_reachable
              eq_refl Hk) as (m & g' & _ & Hl & Hp & _).
  exists m. split; [exact Hl|exact Hp].
Defined.

(** X28. [handle_events] takes the events in order and stops at the
    first that ends the program: handling a list that is two lists, one
    after the other, is handling the first and, unless it returned
    [False], the second on the session the first left. *)
Theorem handle_events_app (e1 e2 : list Event) (g : Game) (rng : list Z) :
  handle_events (e1 ++ e2) g rng
  = match handle_events e1 g rng with
    | Done (true, g1, rng1) => handle_events e2 g1 rng1
    | other => other
    end.
Proof.
  revert g rng. induction e1 as [|e e1 IH]; intros g rng; [done|].
  destruct e as [|key|]; simpl; [done| |apply IH].
  unfold bind. destruct (handle_key g key rng) as [[r rng1]| |]; simpl;
    [|done..].
  destruct r as [g1|]; [apply IH|done].
Qed.

(** X29. In a run the cadence of Time Attack and of Survival does not
    depend on the length of the snake: a move every 7 ticks, every 5
    under SpeedBoost. In Classic it is between 1 and 7 ticks, and at
    most 4 under SpeedBoost. *)
Theorem cadence_values (g : Game) :
  reachable g →
  (mode g ≠ CLASSIC →
   frames_per_move (update_timers g)
   = Done (if active (update_timers g) SPEED_BOOST then 5 else 7))
  ∧ (mode g = CLASSIC →
     ∃ frames, frames_per_move (update_timers g) = Done frames
               ∧ 1 ≤ frames ≤ 7
               ∧ (active (update_timers g) SPEED_BOOST = true → frames ≤ 4)).
Proof.
  intros Hr. pose proof (reachable_sound g Hr) as [Hs _].
  pose proof (tally_length g (reachable_tally g Hr)) as Hlen.
  rewrite (frames_per_move_floor _ (sound_update_timers _ Hs)).
  unfold cadence, speed_x20. change (FPS * 20) with 1200.
  change (mode (update_timers g)) with (mode g).
  change (body (snake (update_timers g))) with (body (snake g)).
  split; intros Hm.
  - rewrite bool_decide_eq_false_2 by done.
    by destruct (active (update_timers g) SPEED_BOOST).
  - rewrite bool_decide_eq_true_2 by done. eexists. split; [reflexivity|].
    destruct (active (update_timers g) SPEED_BOOST).
    + assert (1200 `div` (240 + Z.of_nat (length (body (snake g)))) ≤ 4).
      { etrans; [apply (Z.div_le_compat_l 1200 243); lia|]. done. }
      lia.
    + assert (1200 `div` (160 + Z.of_nat (length (body (snake g)))) ≤ 7).
      { etrans; [apply (Z.div_le_compat_l 1200 163); lia|]. done. }
      lia.
Qed.

Lemma cadence_values_witness :
  reachable shield_state ∧ mode shield_state ≠ CLASSIC
  ∧ frames_per_move (update_timers shield_state) = Done 7.
Proof.
  split; [exact shield_state_reachable|]. split; [discriminate|].
  destruct (cadence_values shield_state shield_state_reachable) as [Hf _].
  rewrite Hf by discriminate. reflexivity.
Defined.

End Screens.
